(** * Kodoku: the roster engine of [read_schedule.py]

    A shallow embedding of the [Schedule] class (the validity predicate
    [is_valid_assignment] and the greedy fill [greedy_schedule]) together
    with the properties of the engine that the specification states.

    Python integers are unbounded, hence [Z]; identifiers are strings; the
    dictionaries of the engine are finite maps.  A call of the engine either
    returns or raises, and it may materialise keys of the [defaultdict]
    indexes, hence every operation yields an [outcome]: the value (or the
    exception) together with the schedule it leaves behind. *)

From Stdlib Require Import ZArith List Bool Lia Permutation Sorted Ascii String.
From stdpp Require Import gmap strings list fin_maps.

Local Open Scope Z_scope.

(** ** Data model *)

(** [class Assignment] (a dataclass: equality is by value). *)
Record Assignment := mkAssignment {
  staff_id : string;
  day : Z;
  shift_id : string
}.

#[global] Instance Assignment_eq_dec : EqDecision Assignment.
Proof. solve_decision. Defined.

(** An entry of [instance_data['shifts']]. *)
Record Shift := mkShift {
  sh_id : string;
  sh_length : Z;
  forbidden_following : list string
}.

(** An entry of [instance_data['staff']]; [max_weekends] is an optional key. *)
Record Staff := mkStaff {
  id : string;
  shift_limits : gmap string Z;
  max_shifts : Z;
  max_total_minutes : Z;
  min_total_minutes : Z;
  max_consecutive_shifts : Z;
  min_consecutive_shifts : Z;
  min_consecutive_days_off : Z;
  max_weekends : option Z
}.

(** An entry of [instance_data['cover_requirements']]. *)
Record Cover := mkCover {
  c_day : Z;
  c_shift_id : string;
  requirement : Z;
  weight_under : Z;
  weight_over : Z
}.

(** The keys of [instance_data] that the engine reads, in a dictionary
    that holds them all.  The dictionary [read_instance_file] returns may
    lack a key; the engine on such a dictionary is
    [dict_is_valid_assignment] and [dict_greedy_schedule] below. *)
Record Instance := mkInstance {
  horizon : Z;
  shifts : list Shift;
  staff : list Staff;
  days_off : gmap string (list Z);
  cover_requirements : list Cover
}.

(** The attributes of a [Schedule] object. *)
Record Schedule := mkSchedule {
  instance_data : Instance;
  assignments : list Assignment;
  staff_assignments : gmap string (list Assignment);
  day_shift_assignments : gmap (Z * string) (list Assignment);
  shifts_dict : gmap string Shift
}.

(** The exceptions the engine can raise: [next] on an exhausted generator
    and a subscript with a missing key. *)
Inductive exn := StopIteration | KeyError.

Inductive outcome (A : Type) :=
| Ret (a : A) (st : Schedule)
| Raise (e : exn) (st : Schedule).
Arguments Ret {A} a st.
Arguments Raise {A} e st.

Definition final {A} (o : outcome A) : Schedule :=
  match o with Ret _ st => st | Raise _ st => st end.

(** ** [Schedule.__init__] *)

(** [{shift['id']: shift for shift in instance_data['shifts']}]: a later
    entry with the same id replaces an earlier one. *)
Definition make_shifts_dict (l : list Shift) : gmap string Shift :=
  foldl (fun m sh => <[sh_id sh := sh]> m) ∅ l.

Definition init (inst : Instance) : Schedule :=
  {| instance_data := inst;
     assignments := [];
     staff_assignments := ∅;
     day_shift_assignments := ∅;
     shifts_dict := make_shifts_dict (shifts inst) |}.

(** ** The two indexes *)

(** What [self.staff_assignments[sid]] evaluates to. *)
Definition sa_get (sid : string) (st : Schedule) : list Assignment :=
  default [] (staff_assignments st !! sid).

(** [staff_assignments] is a [defaultdict(list)]: reading a missing key
    stores an empty list under it. *)
Definition sa_touch (sid : string) (st : Schedule) : Schedule :=
  match staff_assignments st !! sid with
  | Some _ => st
  | None =>
      {| instance_data := instance_data st;
         assignments := assignments st;
         staff_assignments := <[sid := []]> (staff_assignments st);
         day_shift_assignments := day_shift_assignments st;
         shifts_dict := shifts_dict st |}
  end.

(** [self.day_shift_assignments.get(key, [])]: [get] stores nothing. *)
Definition ds_get (key : Z * string) (st : Schedule) : list Assignment :=
  default [] (day_shift_assignments st !! key).

(** Lines 99-101: the three appends of one committed assignment. *)
Definition commit (a : Assignment) (st : Schedule) : Schedule :=
  {| instance_data := instance_data st;
     assignments := assignments st ++ [a];
     staff_assignments :=
       <[staff_id a := sa_get (staff_id a) st ++ [a]]> (staff_assignments st);
     day_shift_assignments :=
       <[(day a, shift_id a) := ds_get (day a, shift_id a) st ++ [a]]>
         (day_shift_assignments st);
     shifts_dict := shifts_dict st |}.

(** ** [Schedule.is_valid_assignment] *)

(** Line 30: [next(s for s in staff if s['id'] == staff_id)]. *)
Definition next_staff (l : list Staff) (sid : string) : option Staff :=
  find (fun s => String.eqb (id s) sid) l.

(** Line 33: [day in instance_data['days_off'].get(staff_id, [])], the
    key [days_off] being there. *)
Definition day_off (a : Assignment) (st : Schedule) : bool :=
  existsb (Z.eqb (day a))
    (default [] (days_off (instance_data st) !! staff_id a)).

(** Lines 38-39: the number of assignments with the given shift id. *)
Definition count_shift (sh : string) (l : list Assignment) : Z :=
  Z.of_nat (length (filter (fun b => shift_id b = sh) l)).

(** Lines 37-41: the quota check; [true] when the candidate is blocked.  The
    per-staff list is read only when the shift id has a cap. *)
Definition quota_blocked (s : Staff) (a : Assignment) (st : Schedule)
  : bool * Schedule :=
  match shift_limits s !! shift_id a with
  | Some cap =>
      (cap <=? count_shift (shift_id a) (sa_get (staff_id a) st),
       sa_touch (staff_id a) st)
  | None => (false, st)
  end.

(** Lines 44-48: the succession check; [true] when the candidate is
    blocked.  The subscript [self.shifts_dict[...]] raises on a shift id
    that is not in the table. *)
Definition succession_blocked (a : Assignment) (st : Schedule) : outcome bool :=
  let st1 := sa_touch (staff_id a) st in
  match last (sa_get (staff_id a) st) with
  | None => Ret false st1
  | Some last_assignment =>
      if day last_assignment =? day a - 1 then
        match shifts_dict st !! shift_id last_assignment with
        | None => Raise KeyError st1
        | Some sh =>
            Ret (existsb (String.eqb (shift_id a)) (forbidden_following sh)) st1
        end
      else Ret false st1
  end.

(** Lines 52-56: the loop over [range(day - 1, -1, -1)], with [n] the
    number of days still to visit (the next one is day [n - 1]); the value
    is the number of worked days counted before the [break]. *)
Fixpoint worked_before (l : list Assignment) (n : nat) : Z :=
  match n with
  | O => 0
  | S k =>
      if existsb (fun b => day b =? Z.of_nat k) l
      then 1 + worked_before l k
      else 0
  end.

(** Lines 51-58; the per-staff key has been materialised on line 44. *)
Definition run_blocked (s : Staff) (a : Assignment) (st : Schedule) : bool :=
  let consecutive_count :=
    1 + worked_before (sa_get (staff_id a) st) (Z.to_nat (day a)) in
  max_consecutive_shifts s <? consecutive_count.

Definition is_valid_assignment (a : Assignment) (st : Schedule) : outcome bool :=
  match next_staff (staff (instance_data st)) (staff_id a) with
  | None => Raise StopIteration st
  | Some s =>
      if day_off a st then Ret false st
      else
        let '(blocked, st1) := quota_blocked s a st in
        if blocked then Ret false st1
        else
          match succession_blocked a st1 with
          | Raise e st2 => Raise e st2
          | Ret true st2 => Ret false st2
          | Ret false st2 => Ret (negb (run_blocked s a st2)) st2
          end
  end.

(** ** [Schedule.greedy_schedule] *)

(** [sorted(..., key=weight_under, reverse=True)]: a stable sort by
    descending weight; rows of equal weight keep their input order. *)
Fixpoint insert_by_weight (x : Cover) (l : list Cover) : list Cover :=
  match l with
  | [] => [x]
  | y :: ys =>
      if weight_under y <=? weight_under x then x :: y :: ys
      else y :: insert_by_weight x ys
  end.

Definition sort_by_weight (l : list Cover) : list Cover :=
  foldr insert_by_weight [] l.

(** Lines 85-102: the loop over the staff list for one requirement; the
    value is [needed] when the loop ends. *)
Fixpoint try_staff (d : Z) (sh : string) (l : list Staff) (needed : Z)
    (st : Schedule) : outcome Z :=
  match l with
  | [] => Ret needed st
  | s :: rest =>
      if needed <=? 0 then Ret needed st
      else
        let potential_assignment := mkAssignment (id s) d sh in
        match is_valid_assignment potential_assignment st with
        | Raise e st1 => Raise e st1
        | Ret true st1 =>
            try_staff d sh rest (needed - 1) (commit potential_assignment st1)
        | Ret false st1 => try_staff d sh rest needed st1
        end
  end.

(** Lines 72-108: the loop over the sorted requirements. *)
Fixpoint fill (reqs : list Cover) (st : Schedule) : outcome bool :=
  match reqs with
  | [] => Ret true st
  | req :: rest =>
      let current_assignments := ds_get (c_day req, c_shift_id req) st in
      let needed := requirement req - Z.of_nat (length current_assignments) in
      if needed <=? 0 then fill rest st
      else
        match try_staff (c_day req) (c_shift_id req)
                (staff (instance_data st)) needed st with
        | Raise e st1 => Raise e st1
        | Ret needed1 st1 =>
            if 0 <? needed1 then Ret false st1 else fill rest st1
        end
  end.

Definition greedy_schedule (st : Schedule) : outcome bool :=
  fill (sort_by_weight (cover_requirements (instance_data st))) st.

(** ** Notions used in the statements *)

(** [sum(len(v) for v in index.values())]. *)
Definition sum_lens `{Countable K} (m : gmap K (list Assignment)) : nat :=
  map_fold (fun _ l n => (length l + n)%nat) 0%nat m.

Definition heavier (x y : Cover) : Prop := weight_under y <= weight_under x.

(** The candidate built on lines 90-94. *)
Definition candidate (s : Staff) (r : Cover) : Assignment :=
  mkAssignment (id s) (c_day r) (c_shift_id r).

(** The schedules a run on [inst] can pass through: the fresh schedule,
    the schedule left by a call of the predicate on a candidate of the
    instance, and the schedule after an accepted candidate is committed. *)
Inductive reachable (inst : Instance) : Schedule -> Prop :=
| reach_init : reachable inst (init inst)
| reach_check s r st :
    reachable inst st -> s ∈ staff inst -> r ∈ cover_requirements inst ->
    reachable inst (final (is_valid_assignment (candidate s r) st))
| reach_commit s r st st' :
    reachable inst st -> s ∈ staff inst -> r ∈ cover_requirements inst ->
    is_valid_assignment (candidate s r) st = Ret true st' ->
    reachable inst (commit (candidate s r) st').

Definition by_staff (sid : string) (l : list Assignment) : list Assignment :=
  filter (fun a => staff_id a = sid) l.

Definition by_day_shift (key : Z * string) (l : list Assignment)
  : list Assignment :=
  filter (fun a => (day a, shift_id a) = key) l.

(** Both indexes are views of the flat list: each per-key list is the flat
    list restricted to that key, in insertion order, and the totals agree. *)
Record consistent (st : Schedule) : Prop := {
  cons_staff : forall sid, sa_get sid st = by_staff sid (assignments st);
  cons_day_shift :
    forall key, ds_get key st = by_day_shift key (assignments st);
  cons_staff_len :
    sum_lens (staff_assignments st) = length (assignments st);
  cons_day_shift_len :
    sum_lens (day_shift_assignments st) = length (assignments st)
}.

(** The candidate's day is one of the days off of its staff id. *)
Definition on_day_off (inst : Instance) (a : Assignment) : Prop :=
  day a ∈ default [] (days_off inst !! staff_id a).

(** The index key of a cover row and of an assignment. *)
Definition key_of_cover (r : Cover) : Z * string := (c_day r, c_shift_id r).

Definition key_of (a : Assignment) : Z * string := (day a, shift_id a).

(** The fill loop as the specification words it, to be compared with
    [fill]: every requirement is attempted whatever happened to the earlier
    ones, and the result is true exactly when no requirement was left
    unmet. *)
Fixpoint spec_fill_every (reqs : list Cover) (st : Schedule) : outcome bool :=
  match reqs with
  | [] => Ret true st
  | req :: rest =>
      let needed :=
        requirement req - Z.of_nat (length (ds_get (key_of_cover req) st)) in
      if needed <=? 0 then spec_fill_every rest st
      else
        match try_staff (c_day req) (c_shift_id req)
                (staff (instance_data st)) needed st with
        | Raise e st1 => Raise e st1
        | Ret needed1 st1 =>
            match spec_fill_every rest st1 with
            | Raise e st2 => Raise e st2
            | Ret ok st2 => Ret (negb (0 <? needed1) && ok) st2
            end
        end
  end.

Definition spec_greedy_every (st : Schedule) : outcome bool :=
  spec_fill_every (sort_by_weight (cover_requirements (instance_data st))) st.

(** [b] follows [a] on the next day for the same staff member although the
    shift of [a] forbids the shift of [b] after it. *)
Definition forbidden_succession (st : Schedule) (a b : Assignment) : Prop :=
  staff_id a = staff_id b /\ day b = day a + 1 /\
  exists sh,
    shifts_dict st !! shift_id a = Some sh /\
    shift_id b ∈ forbidden_following sh.

Definition no_forbidden_succession (st : Schedule) : Prop :=
  forall a b,
    a ∈ assignments st -> b ∈ assignments st -> ~ forbidden_succession st a b.

(** The staff id has an assignment on day [d]. *)
Definition works_on (st : Schedule) (sid : string) (d : Z) : Prop :=
  exists a, a ∈ assignments st /\ staff_id a = sid /\ day a = d.

(** The staff id works on each of the [n] days from day [d] on. *)
Definition works_run (st : Schedule) (sid : string) (d : Z) (n : nat) : Prop :=
  forall i, (i < n)%nat -> works_on st sid (d + Z.of_nat i).

Definition run_bound_respected (st : Schedule) : Prop :=
  forall sid s d n,
    next_staff (staff (instance_data st)) sid = Some s ->
    works_run st sid d n ->
    Z.of_nat n <= max_consecutive_shifts s.

(** What a call yields, without the schedule it leaves behind. *)
Definition verdict {A} (o : outcome A) : exn + A :=
  match o with Ret a _ => inr a | Raise e _ => inl e end.

(** The shift id is a key of the shift table of the schedule. *)
Definition known_shift (st : Schedule) (sh : string) : Prop :=
  is_Some (shifts_dict st !! sh).

(** Two staff entries with the same id, quota mapping and
    maximum-consecutive-shifts limit: they may differ in [max_shifts], the
    total-minutes bounds, [min_consecutive_shifts],
    [min_consecutive_days_off] and [max_weekends]. *)
Definition staff_agree (s1 s2 : Staff) : Prop :=
  id s1 = id s2 /\
  shift_limits s1 = shift_limits s2 /\
  max_consecutive_shifts s1 = max_consecutive_shifts s2.

(** Two instances that differ at most in those fields of their staff
    entries. *)
Definition instance_agree (i1 i2 : Instance) : Prop :=
  horizon i1 = horizon i2 /\
  shifts i1 = shifts i2 /\
  days_off i1 = days_off i2 /\
  cover_requirements i1 = cover_requirements i2 /\
  Forall2 staff_agree (staff i1) (staff i2).

(** The staff entry with those fields reset. *)
Definition forget_staff (s : Staff) : Staff :=
  {| id := id s;
     shift_limits := shift_limits s;
     max_shifts := 0;
     max_total_minutes := 0;
     min_total_minutes := 0;
     max_consecutive_shifts := max_consecutive_shifts s;
     min_consecutive_shifts := 0;
     min_consecutive_days_off := 0;
     max_weekends := None |}.

Definition forget_instance (i : Instance) : Instance :=
  {| horizon := horizon i;
     shifts := shifts i;
     staff := map forget_staff (staff i);
     days_off := days_off i;
     cover_requirements := cover_requirements i |}.

Definition forget (st : Schedule) : Schedule :=
  {| instance_data := forget_instance (instance_data st);
     assignments := assignments st;
     staff_assignments := staff_assignments st;
     day_shift_assignments := day_shift_assignments st;
     shifts_dict := shifts_dict st |}.

Definition outcome_map {A} (f : Schedule -> Schedule) (o : outcome A)
  : outcome A :=
  match o with
  | Ret a st => Ret a (f st)
  | Raise e st => Raise e (f st)
  end.

(** The schedule with another instance behind it. *)
Definition with_instance (i : Instance) (st : Schedule) : Schedule :=
  {| instance_data := i;
     assignments := assignments st;
     staff_assignments := staff_assignments st;
     day_shift_assignments := day_shift_assignments st;
     shifts_dict := shifts_dict st |}.

(** ** Scenarios *)

Definition staff_S1 (maxc : Z) : Staff :=
  mkStaff "S1" ∅ 10 1000 0 maxc 1 1 None.

Definition shift_D : Shift := mkShift "D" 480 [].

(** The three-day scenario: at most 2 consecutive shifts and one D
    required on each of the days 0, 1 and 2, with equal weights. *)
Definition scenario3 : Instance :=
  mkInstance 3 [shift_D] [staff_S1 2] ∅
    [mkCover 0 "D" 1 10 1; mkCover 1 "D" 1 10 1; mkCover 2 "D" 1 10 1].

(** One staff member whose day 0 is a day off, and a requirement on that
    day followed by a lighter one on day 1. *)
Definition scenario_off : Instance :=
  mkInstance 2 [shift_D] [staff_S1 2] {["S1" := [0]]}
    [mkCover 0 "D" 1 10 1; mkCover 1 "D" 1 5 1].

(** Two cover rows for the same day and shift, the second asking for one
    more. *)
Definition scenario_twice : Instance :=
  mkInstance 1 [shift_D] [staff_S1 2] ∅
    [mkCover 0 "D" 1 10 1; mkCover 0 "D" 2 5 1].

(** A staff member whose cap for shift D is negative. *)
Definition scenario_negative_cap : Instance :=
  mkInstance 1 [shift_D]
    [mkStaff "S1" {["D" := -1]} 10 1000 0 2 1 1 None] ∅
    [mkCover 0 "D" 1 10 1].

(** A staff member capped at one shift D, asked for on two days. *)
Definition scenario_cap : Instance :=
  mkInstance 3 [shift_D]
    [mkStaff "S1" {["D" := 1]} 10 1000 0 2 1 1 None] ∅
    [mkCover 0 "D" 1 10 1; mkCover 2 "D" 1 5 1].

(** An early shift E and a late shift L that E must not follow; the day-1
    requirement weighs more than the day-0 one. *)
Definition scenario_succession : Instance :=
  mkInstance 2 [mkShift "E" 480 []; mkShift "L" 480 ["E"]] [staff_S1 5] ∅
    [mkCover 0 "L" 1 10 1; mkCover 1 "E" 1 20 1].

(** At most 2 consecutive shifts; the requirements of days 1 and 2 weigh
    more than the one of day 0. *)
Definition scenario_run : Instance :=
  mkInstance 3 [shift_D] [staff_S1 2] ∅
    [mkCover 0 "D" 1 10 1; mkCover 1 "D" 1 30 1; mkCover 2 "D" 1 20 1].

(** S1 already holds a late shift and then a day shift on day 0, the late
    shift forbidding an early shift on the next day. *)
Definition schedule_two_on_day0 : Schedule :=
  commit (mkAssignment "S1" 0 "D")
    (commit (mkAssignment "S1" 0 "L")
       (init (mkInstance 2
                [shift_D; mkShift "E" 480 []; mkShift "L" 480 ["E"]]
                [staff_S1 5] ∅ []))).

(** A requirement on day 0 for a shift X that the shift table lacks, and
    one for D on day 1. *)
Definition scenario_unknown_shift : Instance :=
  mkInstance 2 [shift_D] [staff_S1 2] ∅
    [mkCover 0 "X" 1 10 1; mkCover 1 "D" 1 5 1].

(** S1 with [max_shifts] 1 and requirements on two days that are not
    consecutive. *)
Definition scenario_max_shifts : Instance :=
  mkInstance 3 [shift_D] [mkStaff "S1" ∅ 1 480 0 5 1 1 (Some 0)] ∅
    [mkCover 0 "D" 1 10 1; mkCover 2 "D" 1 10 1].

(** ** Notions used in the further properties *)

(** The cover row has the staff it asks for. *)
Definition covered (st : Schedule) (r : Cover) : Prop :=
  requirement r <= Z.of_nat (length (ds_get (key_of_cover r) st)).

(** No (day, shift) key holds more assignments than some cover row of that
    key asks for. *)
Definition within_cover (covers : list Cover) (st : Schedule) : Prop :=
  forall key,
    ds_get key st = [] \/
    exists r,
      r ∈ covers /\ key_of_cover r = key /\
      Z.of_nat (length (ds_get key st)) <= requirement r.

(** The staff member with the per-staff list [l] has an assignment on each
    of the [k] days before day [d]. *)
Definition worked_days_back (l : list Assignment) (d k : Z) : Prop :=
  forall i, 1 <= i <= k -> exists b, b ∈ l /\ day b = d - i.

(** The order of two cover rows by day. *)
Definition day_le (r1 r2 : Cover) : Prop := c_day r1 <= c_day r2.

(** No staff member works on more consecutive days than the limit of the
    staff entry found under the id. *)
Definition runs_within_limit (st : Schedule) : Prop :=
  forall sid s d n,
    next_staff (staff (instance_data st)) sid = Some s ->
    (0 < n)%nat ->
    works_run st sid d n ->
    Z.of_nat n <= max_consecutive_shifts s.

(** What a run keeps while it fills the rows in the order of their days:
    every assignment is on a day between 0 and [D], and no run of worked
    days exceeds the limit. *)
Definition ordered_inv (inst : Instance) (D : Z) (st : Schedule) : Prop :=
  reachable inst st /\
  (forall a, a ∈ assignments st -> 0 <= day a <= D) /\
  runs_within_limit st.

(** What a run keeps while it fills the rows in the order of their days,
    as to successions: every assignment is on a day up to [D], the last
    inserted assignment of a staff member is on that member's latest day,
    and no forbidden succession is committed. *)
Definition succession_inv (inst : Instance) (D : Z) (st : Schedule) : Prop :=
  reachable inst st /\
  (forall a, a ∈ assignments st -> day a <= D) /\
  (forall sid la b,
      last (sa_get sid st) = Some la -> b ∈ sa_get sid st ->
      day b <= day la) /\
  no_forbidden_succession st.

(** ** [main]: the per-staff statistics *)

(** Lines 252-254: [staff_assignments[assignment.staff_id] += 1] over the
    flat list, on a [defaultdict(int)]. *)
Definition count_per_staff (l : list Assignment) : gmap string Z :=
  foldl (fun m a => <[staff_id a := default 0 (m !! staff_id a) + 1]> m) ∅ l.

(** ** [read_instance_file]

    The loader works on the text of the file.  A [str] is modelled by a
    [string] whose characters are the code points below 256.  [int] on a
    string is a parameter of the model ([None] is its [ValueError]); the
    other string operations are written out. *)

(** The exceptions of the loader: a failed unpacking or [int], and a
    subscript out of range. *)
Inductive load_exn := ValueError | IndexError.

Inductive loaded (A : Type) :=
| Done (a : A)
| Fail (e : load_exn).
Arguments Done {A} a.
Arguments Fail {A} e.

Definition and_then {A B} (x : loaded A) (k : A -> loaded B) : loaded B :=
  match x with
  | Done a => k a
  | Fail e => Fail e
  end.

Notation "'let*' x ':=' c 'in' k" := (and_then c (fun x => k))
  (at level 10, x name, c at level 100, k at level 200).

(** The elements of a list in order, up to the first failure. *)
Fixpoint load_all {A B} (f : A -> loaded B) (l : list A) : loaded (list B) :=
  match l with
  | [] => Done []
  | x :: rest =>
      let* y := f x in
      let* ys := load_all f rest in
      Done (y :: ys)
  end.

(** [s.split(sep)] for a separator of one character. *)
Fixpoint split_on (sep : ascii) (s : string) : list string :=
  match s with
  | EmptyString => [EmptyString]
  | String c rest =>
      if Ascii.eqb c sep then EmptyString :: split_on sep rest
      else
        match split_on sep rest with
        | p :: ps => String c p :: ps
        | [] => [String c EmptyString]
        end
  end.

(** [s.split(sep, 1)]: the text before the first separator and, when
    there is one, the text after it. *)
Fixpoint split_once (sep : ascii) (s : string) : string * option string :=
  match s with
  | EmptyString => (EmptyString, None)
  | String c rest =>
      if Ascii.eqb c sep then (EmptyString, Some rest)
      else
        let '(p, r) := split_once sep rest in
        (String c p, r)
  end.

(** [re.split(pat, s)] for a pattern that is a plain non-empty text: the
    pieces between the matches, found from the left; [skip] counts the
    characters of a match still to pass. *)
Fixpoint split_str (pat : string) (skip : nat) (s : string) : list string :=
  match s with
  | EmptyString => [EmptyString]
  | String c rest =>
      match skip with
      | S k => split_str pat k rest
      | O =>
          if String.prefix pat s
          then EmptyString :: split_str pat (String.length pat - 1) rest
          else
            match split_str pat 0 rest with
            | p :: ps => String c p :: ps
            | [] => [String c EmptyString]
            end
      end
  end.

(** [c.isspace()] for a code point below 256. *)
Definition is_space (c : ascii) : bool :=
  existsb (N.eqb (N_of_ascii c)) [9; 10; 11; 12; 13; 28; 29; 30; 31; 32; 133; 160]%N.

Fixpoint lstrip (s : string) : string :=
  match s with
  | EmptyString => EmptyString
  | String c rest => if is_space c then lstrip rest else s
  end.

Fixpoint rstrip (s : string) : string :=
  match s with
  | EmptyString => EmptyString
  | String c rest =>
      match rstrip rest with
      | EmptyString => if is_space c then EmptyString else String c EmptyString
      | r => String c r
      end
  end.

(** [s.strip()]. *)
Definition strip (s : string) : string := rstrip (lstrip s).

(** [c in s] for one character. *)
Definition has_char (c : ascii) (s : string) : bool :=
  existsb (Ascii.eqb c) (list_ascii_of_string s).

Definition newline : ascii := "010"%char.

(** Lines 126-127: the stripped lines of a section that are not blank and
    do not start with [#]. *)
Definition data_lines (section_content : string) : list string :=
  map strip
    (List.filter
       (fun line =>
          negb (String.eqb (strip line) EmptyString) &&
          negb (String.prefix "#" line))
       (split_on newline section_content)).

(** An entry of [shift_on_requests] and [shift_off_requests]. *)
Record Request := mkRequest {
  rq_staff_id : string;
  rq_day : Z;
  rq_shift_id : string;
  rq_weight : Z
}.

(** The dictionary the loader returns: a key is present when a section of
    that name was read. *)
Record Loaded := mkLoaded {
  l_horizon : option Z;
  l_shifts : option (list Shift);
  l_staff : option (list Staff);
  l_days_off : option (gmap string (list Z));
  l_shift_on_requests : option (list Request);
  l_shift_off_requests : option (list Request);
  l_cover_requirements : option (list Cover)
}.

Definition no_section : Loaded :=
  mkLoaded None None None None None None None.

Section Loader.
Variable py_int : string -> option Z.

Definition to_int (s : string) : loaded Z :=
  match py_int s with
  | Some n => Done n
  | None => Fail ValueError
  end.

(** [int(parts[i])]. *)
Definition int_at (parts : list string) (i : nat) : loaded Z :=
  match parts !! i with
  | Some s => to_int s
  | None => Fail IndexError
  end.

(** Lines 135-141: one line of [SHIFTS]. *)
Definition parse_shift_line (line : string) : loaded Shift :=
  match split_on "," line with
  | [shift_id; length; forbidden] =>
      let forbidden :=
        if String.eqb forbidden EmptyString then []
        else split_on "|" forbidden in
      let* n := to_int length in
      Done (mkShift shift_id n forbidden)
  | _ => Fail ValueError
  end.

(** Lines 157-161: the quota mapping from the items of the second field. *)
Fixpoint parse_limits (items : list string) (shift_limits_dict : gmap string Z)
  : loaded (gmap string Z) :=
  match items with
  | [] => Done shift_limits_dict
  | limit :: rest =>
      if has_char "=" limit then
        match split_on "=" limit with
        | [shift; max_count] =>
            let* n := to_int max_count in
            parse_limits rest (<[shift := n]> shift_limits_dict)
        | _ => Fail ValueError
        end
      else parse_limits rest shift_limits_dict
  end.

(** Lines 154-179: one line of [STAFF]. *)
Definition parse_staff_line (line : string) : loaded Staff :=
  let parts := split_on "," line in
  let staff_id := default EmptyString (parts !! 0%nat) in
  match parts !! 1%nat with
  | None => Fail IndexError
  | Some limits =>
      let* shift_limits_dict := parse_limits (split_on "|" limits) ∅ in
      let* v2 := int_at parts 2 in
      let* v3 := int_at parts 3 in
      let* v4 := int_at parts 4 in
      let* v5 := int_at parts 5 in
      let* v6 := int_at parts 6 in
      let* v7 := int_at parts 7 in
      if (8 <? length parts)%nat then
        let* v8 := int_at parts 8 in
        Done (mkStaff staff_id shift_limits_dict v2 v3 v4 v5 v6 v7 (Some v8))
      else
        Done (mkStaff staff_id shift_limits_dict v2 v3 v4 v5 v6 v7 None)
  end.

(** Lines 184-187: the lines of [DAYS_OFF], a later line replacing an
    earlier one of the same staff id. *)
Fixpoint parse_days_off (lines : list string) (days_off : gmap string (list Z))
  : loaded (gmap string (list Z)) :=
  match lines with
  | [] => Done days_off
  | line :: rest =>
      match split_on "," line with
      | staff_id :: days =>
          let* ds := load_all to_int days in
          parse_days_off rest (<[staff_id := ds]> days_off)
      | [] => Fail ValueError
      end
  end.

(** Lines 194-200 and 206-212: one line of a requests section. *)
Definition parse_request_line (line : string) : loaded Request :=
  match split_on "," line with
  | [staff_id; day; shift_id; weight] =>
      let* d := to_int day in
      let* w := to_int weight in
      Done (mkRequest staff_id d shift_id w)
  | _ => Fail ValueError
  end.

(** Lines 218-225: one line of [COVER]. *)
Definition parse_cover_line (line : string) : loaded Cover :=
  match split_on "," line with
  | [day; shift_id; requirement; weight_under; weight_over] =>
      let* d := to_int day in
      let* rq := to_int requirement in
      let* wu := to_int weight_under in
      let* wo := to_int weight_over in
      Done (mkCover d shift_id rq wu wo)
  | _ => Fail ValueError
  end.

(** Lines 123-226: one section, stored under its key in the dictionary
    read so far; a section of another name stores nothing. *)
Definition load_section (instance_data : Loaded) (section : string)
  : loaded Loaded :=
  let '(section_name, section_content) := split_once newline (strip section) in
  let lines := data_lines (default EmptyString section_content) in
  let d := instance_data in
  if String.eqb section_name "HORIZON" then
    match lines with
    | [] => Fail IndexError
    | first :: _ =>
        let* n := to_int first in
        Done (mkLoaded (Some n) (l_shifts d) (l_staff d) (l_days_off d)
                (l_shift_on_requests d) (l_shift_off_requests d)
                (l_cover_requirements d))
    end
  else if String.eqb section_name "SHIFTS" then
    let* shifts := load_all parse_shift_line lines in
    Done (mkLoaded (l_horizon d) (Some shifts) (l_staff d) (l_days_off d)
            (l_shift_on_requests d) (l_shift_off_requests d)
            (l_cover_requirements d))
  else if String.eqb section_name "SECTION_DAYS_OFF" then
    let* days_off := parse_days_off lines ∅ in
    Done (mkLoaded (l_horizon d) (l_shifts d) (l_staff d) (Some days_off)
            (l_shift_on_requests d) (l_shift_off_requests d)
            (l_cover_requirements d))
  else if String.eqb section_name "STAFF" then
    let* staff := load_all parse_staff_line lines in
    Done (mkLoaded (l_horizon d) (l_shifts d) (Some staff) (l_days_off d)
            (l_shift_on_requests d) (l_shift_off_requests d)
            (l_cover_requirements d))
  else if String.eqb section_name "DAYS_OFF" then
    let* days_off := parse_days_off lines ∅ in
    Done (mkLoaded (l_horizon d) (l_shifts d) (l_staff d) (Some days_off)
            (l_shift_on_requests d) (l_shift_off_requests d)
            (l_cover_requirements d))
  else if String.eqb section_name "SHIFT_ON_REQUESTS" then
    let* requests := load_all parse_request_line lines in
    Done (mkLoaded (l_horizon d) (l_shifts d) (l_staff d) (l_days_off d)
            (Some requests) (l_shift_off_requests d)
            (l_cover_requirements d))
  else if String.eqb section_name "SHIFT_OFF_REQUESTS" then
    let* requests := load_all parse_request_line lines in
    Done (mkLoaded (l_horizon d) (l_shifts d) (l_staff d) (l_days_off d)
            (l_shift_on_requests d) (Some requests)
            (l_cover_requirements d))
  else if String.eqb section_name "COVER" then
    let* cover := load_all parse_cover_line lines in
    Done (mkLoaded (l_horizon d) (l_shifts d) (l_staff d) (l_days_off d)
            (l_shift_on_requests d) (l_shift_off_requests d) (Some cover))
  else Done d.

Fixpoint load_sections (instance_data : Loaded) (sections : list string)
  : loaded Loaded :=
  match sections with
  | [] => Done instance_data
  | section :: rest =>
      let* d := load_section instance_data section in
      load_sections d rest
  end.

(** Lines 119-228, from the text of the file. *)
Definition read_instance (content : string) : loaded Loaded :=
  load_sections no_section (tail (split_str "SECTION_" 0 content)).

End Loader.

(** An [int] for the examples: it reads a plain decimal numeral, with an
    optional minus sign. *)
Fixpoint digits_value (acc : Z) (s : string) : option Z :=
  match s with
  | EmptyString => Some acc
  | String c rest =>
      let n := N_of_ascii c in
      if ((48 <=? n) && (n <=? 57))%N
      then digits_value (10 * acc + Z.of_N (n - 48)) rest
      else None
  end.

Definition decimal_int (s : string) : option Z :=
  match s with
  | EmptyString => None
  | String "-" (String c rest) => option_map Z.opp (digits_value 0 (String c rest))
  | _ => digits_value 0 s
  end.

(** A small instance file. *)
Definition sample_file : string :=
  "# an example
SECTION_HORIZON
3

SECTION_SHIFTS
# id, minutes, shifts that must not follow
E,480,
L,480,E

SECTION_STAFF
S1,E=2|L=1,10,1000,0,2,1,1
S2,,8,800,0,3,1,1,1

SECTION_DAYS_OFF
S1,0
S2

SECTION_COVER
0,L,1,10,1
1,E,1,20,1
".

(** The character does not occur in the string. *)
Definition sep_free (sep : ascii) (s : string) : Prop :=
  has_char sep s = false.

(** The text occurs somewhere in the string. *)
Definition occurs (pat s : string) : Prop :=
  exists pre post, s = pre +:+ pat +:+ post.

(** The quota item [k=v]. *)
Definition quota_item (k v : string) : string := k +:+ String "=" v.

(** The first comma-separated field of a line. *)
Definition first_field (line : string) : string :=
  default EmptyString (head (split_on "," line)).

(** The instance with the horizon, the lengths of the shifts and the
    over-coverage weights reset. *)
Definition plain_shift (sh : Shift) : Shift :=
  mkShift (sh_id sh) 0 (forbidden_following sh).

Definition plain_cover (r : Cover) : Cover :=
  mkCover (c_day r) (c_shift_id r) (requirement r) (weight_under r) 0.

Definition plain_instance (i : Instance) : Instance :=
  {| horizon := 0;
     shifts := map plain_shift (shifts i);
     staff := staff i;
     days_off := days_off i;
     cover_requirements := map plain_cover (cover_requirements i) |}.

Definition plain (st : Schedule) : Schedule :=
  {| instance_data := plain_instance (instance_data st);
     assignments := assignments st;
     staff_assignments := staff_assignments st;
     day_shift_assignments := day_shift_assignments st;
     shifts_dict := plain_shift <$> shifts_dict st |}.

(** A cover row on day 7 of an instance whose horizon is 3. *)
Definition scenario_beyond_horizon : Instance :=
  mkInstance 3 [shift_D] [staff_S1 2] ∅ [mkCover 7 "D" 1 10 1].

(** The schedule after the per-staff keys [sids] have been read in turn:
    the same lists, with possibly more keys holding an empty list. *)
Definition touched (sids : list string) (st : Schedule) : Schedule :=
  foldl (fun s sid => sa_touch sid s) st sids.

(** Two staff members, the first of whom may work no shift D at all, and
    one D required on day 0. *)
Definition staff_S0 : Staff :=
  mkStaff "S0" {["D" := 0]} 10 1000 0 2 1 1 None.

Definition scenario_first_fit : Instance :=
  mkInstance 1 [shift_D] [staff_S0; staff_S1 2] ∅ [mkCover 0 "D" 1 10 1].

(** ** The schedules a run passes through *)

(** Lines 85-102 again, this time collecting the schedule right after each
    commit (line 101), in the order of the commits. *)
Fixpoint try_staff_commits (d : Z) (sh : string) (l : list Staff) (needed : Z)
    (st : Schedule) : list Schedule :=
  match l with
  | [] => []
  | s :: rest =>
      if needed <=? 0 then []
      else
        let potential_assignment := mkAssignment (id s) d sh in
        match is_valid_assignment potential_assignment st with
        | Raise e st1 => []
        | Ret true st1 =>
            commit potential_assignment st1 ::
            try_staff_commits d sh rest (needed - 1)
              (commit potential_assignment st1)
        | Ret false st1 => try_staff_commits d sh rest needed st1
        end
  end.

(** Lines 72-108 again: the schedules after each commit of a run of [fill],
    up to its return or raise. *)
Fixpoint fill_commits (reqs : list Cover) (st : Schedule) : list Schedule :=
  match reqs with
  | [] => []
  | req :: rest =>
      let current_assignments := ds_get (c_day req, c_shift_id req) st in
      let needed := requirement req - Z.of_nat (length current_assignments) in
      if needed <=? 0 then fill_commits rest st
      else
        let committed :=
          try_staff_commits (c_day req) (c_shift_id req)
            (staff (instance_data st)) needed st in
        match try_staff (c_day req) (c_shift_id req)
                (staff (instance_data st)) needed st with
        | Raise e st1 => committed
        | Ret needed1 st1 =>
            if 0 <? needed1 then committed
            else committed ++ fill_commits rest st1
        end
  end.

Definition greedy_commits (st : Schedule) : list Schedule :=
  fill_commits (sort_by_weight (cover_requirements (instance_data st))) st.

(** The lists [base ++ [a1]], [base ++ [a1; a2]], ..., one for each element
    of [added]: what a list that starts as [base] holds after each of the
    appends that make it [base ++ added]. *)
Fixpoint prefixes_from {A} (base added : list A) : list (list A) :=
  match added with
  | [] => []
  | a :: rest => (base ++ [a]) :: prefixes_from (base ++ [a]) rest
  end.

(** One staff member and one cover row that asks for two. *)
Definition scenario_two_needed : Instance :=
  mkInstance 1 [shift_D] [staff_S1 2] ∅ [mkCover 0 "D" 2 10 1].

(** Two staff entries with the id S1, the first without a cap and the
    second capped at no shift D at all. *)
Definition scenario_duplicate_id : Instance :=
  mkInstance 1 [shift_D]
    [staff_S1 2; mkStaff "S1" {["D" := 0]} 10 1000 0 2 1 1 None] ∅
    [mkCover 0 "D" 1 10 1].

(** ** The engine on the dictionary as loaded

    [read_instance_file] stores a key only when the file has a section of
    that name, and the engine subscripts the dictionary it is given: a key
    that is missing raises [KeyError].  [Instance] above is a dictionary
    that holds the four keys the engine reads; the definitions below follow
    the same lines of [Schedule] on a [Loaded] dictionary, where each of
    them may be missing. *)

(** The attributes of a [Schedule] object built on a [Loaded] dictionary. *)
Record DictSchedule := mkDictSchedule {
  d_instance_data : Loaded;
  d_assignments : list Assignment;
  d_staff_assignments : gmap string (list Assignment);
  d_day_shift_assignments : gmap (Z * string) (list Assignment);
  d_shifts_dict : gmap string Shift
}.

Inductive dict_outcome (A : Type) :=
| DRet (a : A) (st : DictSchedule)
| DRaise (e : exn) (st : DictSchedule).
Arguments DRet {A} a st.
Arguments DRaise {A} e st.

Definition dict_final {A} (o : dict_outcome A) : DictSchedule :=
  match o with DRet _ st => st | DRaise _ st => st end.

Definition dict_verdict {A} (o : dict_outcome A) : exn + A :=
  match o with DRet a _ => inr a | DRaise e _ => inl e end.

(** [Schedule.__init__]: line 21 subscripts [instance_data['shifts']]; when
    it raises no object is built. *)
Definition dict_init (d : Loaded) : exn + DictSchedule :=
  match l_shifts d with
  | None => inl KeyError
  | Some shifts =>
      inr {| d_instance_data := d;
             d_assignments := [];
             d_staff_assignments := ∅;
             d_day_shift_assignments := ∅;
             d_shifts_dict := make_shifts_dict shifts |}
  end.

Definition dict_sa_get (sid : string) (st : DictSchedule) : list Assignment :=
  default [] (d_staff_assignments st !! sid).

Definition dict_sa_touch (sid : string) (st : DictSchedule) : DictSchedule :=
  match d_staff_assignments st !! sid with
  | Some _ => st
  | None =>
      {| d_instance_data := d_instance_data st;
         d_assignments := d_assignments st;
         d_staff_assignments := <[sid := []]> (d_staff_assignments st);
         d_day_shift_assignments := d_day_shift_assignments st;
         d_shifts_dict := d_shifts_dict st |}
  end.

Definition dict_ds_get (key : Z * string) (st : DictSchedule)
  : list Assignment :=
  default [] (d_day_shift_assignments st !! key).

(** Lines 99-101. *)
Definition dict_commit (a : Assignment) (st : DictSchedule) : DictSchedule :=
  {| d_instance_data := d_instance_data st;
     d_assignments := d_assignments st ++ [a];
     d_staff_assignments :=
       <[staff_id a := dict_sa_get (staff_id a) st ++ [a]]>
         (d_staff_assignments st);
     d_day_shift_assignments :=
       <[(day a, shift_id a) := dict_ds_get (day a, shift_id a) st ++ [a]]>
         (d_day_shift_assignments st);
     d_shifts_dict := d_shifts_dict st |}.

(** Lines 37-41. *)
Definition dict_quota_blocked (s : Staff) (a : Assignment) (st : DictSchedule)
  : bool * DictSchedule :=
  match shift_limits s !! shift_id a with
  | Some cap =>
      (cap <=? count_shift (shift_id a) (dict_sa_get (staff_id a) st),
       dict_sa_touch (staff_id a) st)
  | None => (false, st)
  end.

(** Lines 44-48. *)
Definition dict_succession_blocked (a : Assignment) (st : DictSchedule)
  : dict_outcome bool :=
  let st1 := dict_sa_touch (staff_id a) st in
  match last (dict_sa_get (staff_id a) st) with
  | None => DRet false st1
  | Some last_assignment =>
      if day last_assignment =? day a - 1 then
        match d_shifts_dict st !! shift_id last_assignment with
        | None => DRaise KeyError st1
        | Some sh =>
            DRet (existsb (String.eqb (shift_id a)) (forbidden_following sh))
              st1
        end
      else DRet false st1
  end.

(** Lines 51-58. *)
Definition dict_run_blocked (s : Staff) (a : Assignment) (st : DictSchedule)
  : bool :=
  let consecutive_count :=
    1 + worked_before (dict_sa_get (staff_id a) st) (Z.to_nat (day a)) in
  max_consecutive_shifts s <? consecutive_count.

(** Lines 23-60: line 30 subscripts [instance_data['staff']] and line 33
    subscripts [instance_data['days_off']] before it asks [get] for the
    staff id. *)
Definition dict_is_valid_assignment (a : Assignment) (st : DictSchedule)
  : dict_outcome bool :=
  match l_staff (d_instance_data st) with
  | None => DRaise KeyError st
  | Some staff_list =>
      match next_staff staff_list (staff_id a) with
      | None => DRaise StopIteration st
      | Some s =>
          match l_days_off (d_instance_data st) with
          | None => DRaise KeyError st
          | Some offs =>
              if existsb (Z.eqb (day a)) (default [] (offs !! staff_id a))
              then DRet false st
              else
                let '(blocked, st1) := dict_quota_blocked s a st in
                if blocked then DRet false st1
                else
                  match dict_succession_blocked a st1 with
                  | DRaise e st2 => DRaise e st2
                  | DRet true st2 => DRet false st2
                  | DRet false st2 =>
                      DRet (negb (dict_run_blocked s a st2)) st2
                  end
          end
      end
  end.

(** Lines 85-102, over the staff list that line 85 has found. *)
Fixpoint dict_try_staff (d : Z) (sh : string) (l : list Staff) (needed : Z)
    (st : DictSchedule) : dict_outcome Z :=
  match l with
  | [] => DRet needed st
  | s :: rest =>
      if needed <=? 0 then DRet needed st
      else
        let potential_assignment := mkAssignment (id s) d sh in
        match dict_is_valid_assignment potential_assignment st with
        | DRaise e st1 => DRaise e st1
        | DRet true st1 =>
            dict_try_staff d sh rest (needed - 1)
              (dict_commit potential_assignment st1)
        | DRet false st1 => dict_try_staff d sh rest needed st1
        end
  end.

(** Lines 72-108: line 85 subscripts [instance_data['staff']] for each
    requirement that still needs staff. *)
Fixpoint dict_fill (reqs : list Cover) (st : DictSchedule) : dict_outcome bool :=
  match reqs with
  | [] => DRet true st
  | req :: rest =>
      let current_assignments := dict_ds_get (c_day req, c_shift_id req) st in
      let needed := requirement req - Z.of_nat (length current_assignments) in
      if needed <=? 0 then dict_fill rest st
      else
        match l_staff (d_instance_data st) with
        | None => DRaise KeyError st
        | Some staff_list =>
            match dict_try_staff (c_day req) (c_shift_id req) staff_list
                    needed st with
            | DRaise e st1 => DRaise e st1
            | DRet needed1 st1 =>
                if 0 <? needed1 then DRet false st1 else dict_fill rest st1
            end
        end
  end.

(** Lines 62-108: line 66 subscripts [instance_data['cover_requirements']]. *)
Definition dict_greedy_schedule (st : DictSchedule) : dict_outcome bool :=
  match l_cover_requirements (d_instance_data st) with
  | None => DRaise KeyError st
  | Some cover => dict_fill (sort_by_weight cover) st
  end.

(** The schedule [st] seen as an object on the dictionary [d], and a
    schedule on a dictionary seen as one on the instance [inst]: the lists
    and the shift table are the same. *)
Definition on_dict (d : Loaded) (st : Schedule) : DictSchedule :=
  {| d_instance_data := d;
     d_assignments := assignments st;
     d_staff_assignments := staff_assignments st;
     d_day_shift_assignments := day_shift_assignments st;
     d_shifts_dict := shifts_dict st |}.

Definition on_instance (inst : Instance) (st : DictSchedule) : Schedule :=
  {| instance_data := inst;
     assignments := d_assignments st;
     staff_assignments := d_staff_assignments st;
     day_shift_assignments := d_day_shift_assignments st;
     shifts_dict := d_shifts_dict st |}.

Definition on_dict_outcome {A} (d : Loaded) (o : outcome A) : dict_outcome A :=
  match o with
  | Ret a st => DRet a (on_dict d st)
  | Raise e st => DRaise e (on_dict d st)
  end.

(** The dictionary holds the keys the predicate reads, with the values
    [inst] has for them. *)
Definition holds_staff_keys (d : Loaded) (inst : Instance) : Prop :=
  l_staff d = Some (staff inst) /\ l_days_off d = Some (days_off inst).

(** The dictionary of the three-day scenario, and the dictionary read from
    a file that has no [DAYS_OFF] section. *)
Definition dict_scenario3 : Loaded :=
  mkLoaded (Some 3) (Some [shift_D]) (Some [staff_S1 2]) (Some ∅) None None
    (Some [mkCover 0 "D" 1 10 1; mkCover 1 "D" 1 10 1; mkCover 2 "D" 1 10 1]).

Definition file_without_days_off : string :=
  "SECTION_HORIZON
1

SECTION_SHIFTS
D,480,

SECTION_STAFF
S1,,10,1000,0,2,1,1

SECTION_COVER
0,D,1,10,1
".

Definition dict_without_days_off : Loaded :=
  mkLoaded (Some 1) (Some [shift_D]) (Some [staff_S1 2]) None None None
    (Some [mkCover 0 "D" 1 10 1]).

(** * Properties *)

(** ** The indexes as views of the flat list *)

Section SumLens.
Context `{Countable K}.
Implicit Types m : gmap K (list Assignment).

Lemma sum_lens_empty : sum_lens (∅ : gmap K (list Assignment)) = 0%nat.
Proof. apply map_fold_empty. Qed.

Lemma sum_lens_insert_fresh m k l :
  m !! k = None -> sum_lens (<[k := l]> m) = (length l + sum_lens m)%nat.
Proof.
  intros Hk. unfold sum_lens.
  rewrite map_fold_insert_L; [reflexivity | intros; lia | exact Hk].
Qed.

Lemma sum_lens_insert_over m k l0 l :
  m !! k = Some l0 ->
  (sum_lens (<[k := l]> m) + length l0 = length l + sum_lens m)%nat.
Proof.
  intros Hk.
  rewrite <- (insert_delete_eq m k l).
  rewrite sum_lens_insert_fresh by apply lookup_delete_eq.
  unfold sum_lens at 2.
  rewrite (map_fold_delete_L _ _ k l0 m); [ | intros; lia | exact Hk].
  fold (sum_lens (delete k m)). lia.
Qed.

(** Appending one element to the list under [k] (a missing key counting
    as the empty list) adds one to the total. *)
Lemma sum_lens_append m k a :
  sum_lens (<[k := default [] (m !! k) ++ [a]]> m) = S (sum_lens m).
Proof.
  destruct (m !! k) as [l0|] eqn:Hk; simpl.
  - pose proof (sum_lens_insert_over m k l0 (l0 ++ [a]) Hk) as E.
    rewrite length_app in E. simpl in E. lia.
  - rewrite sum_lens_insert_fresh by exact Hk. reflexivity.
Qed.
End SumLens.

Section Touch.
Variables (sid : string) (st : Schedule).

Lemma touch_instance : instance_data (sa_touch sid st) = instance_data st.
Proof. unfold sa_touch. destruct (_ !! _); reflexivity. Qed.

Lemma touch_assignments : assignments (sa_touch sid st) = assignments st.
Proof. unfold sa_touch. destruct (_ !! _); reflexivity. Qed.

Lemma touch_day_shift :
  day_shift_assignments (sa_touch sid st) = day_shift_assignments st.
Proof. unfold sa_touch. destruct (_ !! _); reflexivity. Qed.

Lemma touch_shifts_dict : shifts_dict (sa_touch sid st) = shifts_dict st.
Proof. unfold sa_touch. destruct (_ !! _); reflexivity. Qed.

Lemma touch_sa_get sid' : sa_get sid' (sa_touch sid st) = sa_get sid' st.
Proof.
  unfold sa_get, sa_touch.
  destruct (staff_assignments st !! sid) eqn:E; [reflexivity|]. simpl.
  destruct (decide (sid = sid')) as [<-|Hne].
  - rewrite lookup_insert_eq, E. reflexivity.
  - rewrite lookup_insert_ne by exact Hne. reflexivity.
Qed.

Lemma touch_ds_get key : ds_get key (sa_touch sid st) = ds_get key st.
Proof. unfold ds_get. rewrite touch_day_shift. reflexivity. Qed.

Lemma touch_sum_lens :
  sum_lens (staff_assignments (sa_touch sid st)) =
  sum_lens (staff_assignments st).
Proof.
  unfold sa_touch.
  destruct (staff_assignments st !! sid) eqn:E; [reflexivity|]. simpl.
  rewrite sum_lens_insert_fresh by exact E. reflexivity.
Qed.

Lemma touch_idem : sa_touch sid (sa_touch sid st) = sa_touch sid st.
Proof.
  unfold sa_touch at 2 3.
  destruct (staff_assignments st !! sid) eqn:E.
  - unfold sa_touch. rewrite E. reflexivity.
  - unfold sa_touch. simpl. rewrite lookup_insert_eq. reflexivity.
Qed.
End Touch.

(** ** The shape of the predicate's outcomes *)

Lemma quota_blocked_state s a st :
  snd (quota_blocked s a st) = st \/
  snd (quota_blocked s a st) = sa_touch (staff_id a) st.
Proof.
  unfold quota_blocked. destruct (shift_limits s !! shift_id a); auto.
Qed.

Lemma quota_blocked_false s a st :
  fst (quota_blocked s a st) = false <->
  (forall cap, shift_limits s !! shift_id a = Some cap ->
     count_shift (shift_id a) (sa_get (staff_id a) st) < cap).
Proof.
  unfold quota_blocked.
  destruct (shift_limits s !! shift_id a) as [cap|]; simpl.
  - rewrite Z.leb_gt. split.
    + intros Hlt c [= <-]. exact Hlt.
    + intros Hc. apply Hc. reflexivity.
  - split; [intros _ c; discriminate | reflexivity].
Qed.

Lemma succession_final a st :
  final (succession_blocked a st) = sa_touch (staff_id a) st.
Proof.
  unfold succession_blocked.
  destruct (last (sa_get (staff_id a) st)) as [la|]; [|reflexivity].
  destruct (day la =? day a - 1); [|reflexivity].
  destruct (shifts_dict st !! shift_id la); reflexivity.
Qed.

(** The succession check reads the per-staff list and the shift table
    only, so a materialised key does not change its verdict. *)
Lemma succession_touch a sid st :
  succession_blocked a (sa_touch sid st) =
  match succession_blocked a st with
  | Ret b st' => Ret b (sa_touch sid st')
  | Raise e st' => Raise e (sa_touch sid st')
  end.
Proof.
  assert (Hc : sa_touch (staff_id a) (sa_touch sid st) =
               sa_touch sid (sa_touch (staff_id a) st)).
  { destruct (decide (sid = staff_id a)) as [->|Hne]; [reflexivity|].
    unfold sa_touch.
    destruct (staff_assignments st !! sid) eqn:E1;
      destruct (staff_assignments st !! staff_id a) eqn:E2; simpl;
      rewrite ?E1, ?E2, ?lookup_insert_ne, ?E1, ?E2 by congruence;
      try reflexivity.
    f_equal. apply insert_insert_ne. congruence. }
  unfold succession_blocked. rewrite touch_sa_get, touch_shifts_dict, Hc.
  destruct (last (sa_get (staff_id a) st)) as [la|]; [|reflexivity].
  destruct (day la =? day a - 1); [|reflexivity].
  destruct (shifts_dict st !! shift_id la); reflexivity.
Qed.

Lemma run_blocked_touch s a sid st :
  run_blocked s a (sa_touch sid st) = run_blocked s a st.
Proof. unfold run_blocked. rewrite touch_sa_get. reflexivity. Qed.

(** The state a call of the predicate leaves behind differs from the state
    it started in by at most one materialised key. *)
Lemma is_valid_final a st :
  final (is_valid_assignment a st) = st \/
  final (is_valid_assignment a st) = sa_touch (staff_id a) st.
Proof.
  unfold is_valid_assignment.
  destruct (next_staff _ _) as [s|]; [|left; reflexivity].
  destruct (day_off a st); [left; reflexivity|].
  pose proof (quota_blocked_state s a st) as Hq.
  destruct (quota_blocked s a st) as [blocked st1]. simpl in Hq.
  destruct blocked; [exact Hq|].
  pose proof (succession_final a st1) as Hs.
  assert (Ht : sa_touch (staff_id a) st1 = sa_touch (staff_id a) st)
    by (destruct Hq as [-> | ->]; [reflexivity | apply touch_idem]).
  rewrite Ht in Hs.
  destruct (succession_blocked a st1) as [[|] st2|e st2]; right; exact Hs.
Qed.

(** What an accepted candidate has passed. *)
Lemma is_valid_true a st st' :
  is_valid_assignment a st = Ret true st' ->
  st' = sa_touch (staff_id a) st /\
  exists s,
    next_staff (staff (instance_data st)) (staff_id a) = Some s /\
    day_off a st = false /\
    (forall cap, shift_limits s !! shift_id a = Some cap ->
       count_shift (shift_id a) (sa_get (staff_id a) st) < cap) /\
    succession_blocked a st = Ret false (sa_touch (staff_id a) st) /\
    run_blocked s a st = false.
Proof.
  unfold is_valid_assignment.
  destruct (next_staff _ _) as [s|]; [|discriminate].
  destruct (day_off a st) eqn:Hoff; [discriminate|].
  pose proof (quota_blocked_state s a st) as Hq.
  pose proof (quota_blocked_false s a st) as Hqf.
  destruct (quota_blocked s a st) as [blocked st1]. simpl in Hq, Hqf.
  destruct blocked; [discriminate|].
  assert (Hsb : succession_blocked a st1 =
                match succession_blocked a st with
                | Ret b x => Ret b (sa_touch (staff_id a) st)
                | Raise e x => Raise e (sa_touch (staff_id a) st)
                end).
  { pose proof (succession_final a st) as Hf.
    destruct Hq as [-> | ->].
    - destruct (succession_blocked a st); simpl in Hf; subst; reflexivity.
    - rewrite succession_touch.
      destruct (succession_blocked a st); simpl in Hf; subst;
        rewrite touch_idem; reflexivity. }
  rewrite Hsb. clear Hsb.
  pose proof (succession_final a st) as Hf.
  destruct (succession_blocked a st) as [[|] st2|e st2]; try discriminate.
  simpl in Hf. subst st2.
  intros [= Hrun <-]. split; [reflexivity|].
  exists s. rewrite run_blocked_touch in Hrun.
  apply negb_true_iff in Hrun.
  repeat split; auto. apply Hqf. reflexivity.
Qed.

(** ** The sort *)

Lemma insert_by_weight_perm x l : insert_by_weight x l ≡ₚ x :: l.
Proof.
  induction l as [|y ys IH]; simpl; [reflexivity|].
  destruct (weight_under y <=? weight_under x); [reflexivity|].
  rewrite IH. apply Permutation_swap.
Qed.

Lemma sort_by_weight_perm l : sort_by_weight l ≡ₚ l.
Proof.
  induction l as [|x xs IH]; simpl; [reflexivity|].
  rewrite insert_by_weight_perm, IH. reflexivity.
Qed.

Lemma insert_by_weight_sorted x l :
  Sorted heavier l -> Sorted heavier (insert_by_weight x l).
Proof.
  induction 1 as [|y ys Hs IH Hhd]; simpl.
  - repeat constructor.
  - destruct (weight_under y <=? weight_under x) eqn:E.
    + apply Z.leb_le in E. repeat constructor; assumption.
    + apply Z.leb_gt in E. constructor; [exact IH|].
      destruct Hhd as [|z zs Hz]; simpl.
      * constructor. unfold heavier. lia.
      * destruct (weight_under z <=? weight_under x);
          constructor; unfold heavier in *; lia.
Qed.

Lemma sort_by_weight_sorted l : Sorted heavier (sort_by_weight l).
Proof.
  induction l as [|x xs IH]; simpl; [constructor|].
  apply insert_by_weight_sorted, IH.
Qed.

(** Stability: rows of one weight come out in their input order. *)
Lemma insert_by_weight_filter w x l :
  filter (fun c => weight_under c = w) (insert_by_weight x l) =
  filter (fun c => weight_under c = w) (x :: l).
Proof.
  induction l as [|y ys IH]; simpl; [reflexivity|].
  destruct (weight_under y <=? weight_under x) eqn:E; [reflexivity|].
  apply Z.leb_gt in E.
  rewrite (filter_cons _ y (insert_by_weight x ys)), IH.
  rewrite !filter_cons.
  repeat case_decide; try reflexivity; lia.
Qed.

Lemma sort_by_weight_stable w l :
  filter (fun c => weight_under c = w) (sort_by_weight l) =
  filter (fun c => weight_under c = w) l.
Proof.
  induction l as [|x xs IH]; simpl; [reflexivity|].
  rewrite insert_by_weight_filter, !filter_cons, IH. reflexivity.
Qed.

(** ** Reachable schedules *)

Lemma final_instance a st :
  instance_data (final (is_valid_assignment a st)) = instance_data st.
Proof.
  destruct (is_valid_final a st) as [-> | ->];
    [reflexivity | apply touch_instance].
Qed.

Lemma reachable_instance inst st : reachable inst st -> instance_data st = inst.
Proof.
  induction 1 as [|s r st _ IH _ _|s r st st' _ IH _ _ Hv].
  - reflexivity.
  - rewrite final_instance. exact IH.
  - simpl. pose proof (final_instance (candidate s r) st) as E.
    rewrite Hv in E. simpl in E. congruence.
Qed.

Lemma try_staff_reachable inst r l needed st :
  reachable inst st -> l ⊆ staff inst -> r ∈ cover_requirements inst ->
  reachable inst (final (try_staff (c_day r) (c_shift_id r) l needed st)).
Proof.
  revert needed st.
  induction l as [|s rest IH]; intros needed st Hst Hl Hr; simpl; [exact Hst|].
  destruct (needed <=? 0); [exact Hst|].
  assert (Hs : s ∈ staff inst) by (apply Hl; left).
  assert (Hrest : rest ⊆ staff inst) by (intros x Hx; apply Hl; now right).
  fold (candidate s r).
  destruct (is_valid_assignment (candidate s r) st) as [[|] st1|e st1] eqn:Hv.
  - apply IH; auto. eapply reach_commit; eauto.
  - apply IH; auto.
    change st1 with (final (Ret false st1)). rewrite <- Hv.
    apply reach_check; auto.
  - change st1 with (final (Raise (A:=bool) e st1)). rewrite <- Hv.
    apply reach_check; auto.
Qed.

Lemma fill_reachable inst reqs st :
  reachable inst st -> reqs ⊆ cover_requirements inst ->
  reachable inst (final (fill reqs st)).
Proof.
  revert st.
  induction reqs as [|r rest IH]; intros st Hst Hl; simpl; [exact Hst|].
  assert (Hr : r ∈ cover_requirements inst) by (apply Hl; left).
  assert (Hrest : rest ⊆ cover_requirements inst)
    by (intros x Hx; apply Hl; now right).
  destruct (_ <=? 0); [apply IH; auto|].
  rewrite (reachable_instance inst st Hst).
  pose proof (try_staff_reachable inst r (staff inst)
                (requirement r -
                 Z.of_nat (length (ds_get (c_day r, c_shift_id r) st)))
                st Hst (fun x Hx => Hx) Hr) as Ht.
  destruct (try_staff _ _ _ _ _) as [n st1|e st1]; simpl in Ht; [|exact Ht].
  destruct (0 <? n); [exact Ht|]. apply IH; auto.
Qed.

Lemma greedy_reachable inst st :
  reachable inst st -> reachable inst (final (greedy_schedule st)).
Proof.
  intros Hst. unfold greedy_schedule.
  apply fill_reachable; [exact Hst|].
  rewrite (reachable_instance inst st Hst).
  intros x Hx. now rewrite sort_by_weight_perm in Hx.
Qed.

(** An induction principle in terms of the two ways a schedule changes. *)
Lemma reachable_steps inst (P : Schedule -> Prop) :
  P (init inst) ->
  (forall sid st, reachable inst st -> P st -> P (sa_touch sid st)) ->
  (forall s r st,
      reachable inst st -> P st -> s ∈ staff inst ->
      r ∈ cover_requirements inst ->
      is_valid_assignment (candidate s r) st =
        Ret true (sa_touch (id s) st) ->
      P (sa_touch (id s) st) ->
      P (commit (candidate s r) (sa_touch (id s) st))) ->
  forall st, reachable inst st -> P st.
Proof.
  intros Hinit Htouch Hcommit st Hst.
  induction Hst as [|s r st Hst IH Hs Hr|s r st st' Hst IH Hs Hr Hv].
  - exact Hinit.
  - destruct (is_valid_final (candidate s r) st) as [-> | ->]; auto.
  - destruct (is_valid_true _ _ _ Hv) as [-> _]. simpl in *.
    apply Hcommit; auto.
Qed.

(** Induction over the schedules a run passes through, from a hypothesis
    [Hst : reachable inst st]. *)
Ltac reach_induction Hst :=
  match type of Hst with
  | reachable _ ?st => pattern st; revert st Hst; apply reachable_steps
  end.

(** ** Index consistency *)

Lemma commit_sa_get a sid st :
  sa_get sid (commit a st) =
  if decide (staff_id a = sid) then sa_get sid st ++ [a] else sa_get sid st.
Proof.
  unfold sa_get at 1. simpl. case_decide as E.
  - subst sid. rewrite lookup_insert_eq. reflexivity.
  - rewrite lookup_insert_ne by exact E. reflexivity.
Qed.

Lemma commit_ds_get a key st :
  ds_get key (commit a st) =
  if decide ((day a, shift_id a) = key) then ds_get key st ++ [a]
  else ds_get key st.
Proof.
  unfold ds_get at 1. simpl. case_decide as E.
  - subst key. rewrite lookup_insert_eq. reflexivity.
  - rewrite lookup_insert_ne by exact E. reflexivity.
Qed.

Lemma consistent_init inst : consistent (init inst).
Proof.
  split; simpl; try reflexivity; apply sum_lens_empty.
Qed.

Lemma consistent_touch sid st : consistent st -> consistent (sa_touch sid st).
Proof.
  intros [H1 H2 H3 H4]. split; intros;
    rewrite ?touch_sa_get, ?touch_ds_get, ?touch_sum_lens, ?touch_day_shift,
      ?touch_assignments; auto.
Qed.

Lemma consistent_commit a st : consistent st -> consistent (commit a st).
Proof.
  intros [H1 H2 H3 H4]. split.
  - intros sid. rewrite commit_sa_get. simpl. unfold by_staff.
    rewrite filter_app, filter_cons, filter_nil. fold (by_staff sid (assignments st)).
    rewrite <- H1. repeat case_decide; try contradiction;
      [reflexivity | now rewrite app_nil_r].
  - intros key. rewrite commit_ds_get. simpl. unfold by_day_shift.
    rewrite filter_app, filter_cons, filter_nil.
    fold (by_day_shift key (assignments st)).
    rewrite <- H2. repeat case_decide; try contradiction;
      [reflexivity | now rewrite app_nil_r].
  - simpl. unfold sa_get. rewrite sum_lens_append, H3, length_app. simpl. lia.
  - simpl. unfold ds_get. rewrite sum_lens_append, H4, length_app. simpl. lia.
Qed.

Lemma reachable_consistent inst st : reachable inst st -> consistent st.
Proof.
  apply reachable_steps.
  - apply consistent_init.
  - intros sid st0 _. apply consistent_touch.
  - intros s r st0 _ _ _ _ _. apply consistent_commit.
Qed.

(** The three appends of a commit, as seen through the readers. *)
Lemma commit_lock_step a st :
  assignments (commit a st) = assignments st ++ [a] /\
  sa_get (staff_id a) (commit a st) = sa_get (staff_id a) st ++ [a] /\
  ds_get (day a, shift_id a) (commit a st) =
    ds_get (day a, shift_id a) st ++ [a].
Proof.
  rewrite commit_sa_get, commit_ds_get.
  repeat case_decide; try contradiction. auto.
Qed.

(** Multiplicities: a view by a key holds an assignment as often as the
    flat list when the key is the assignment's own, and not at all
    otherwise. *)
Lemma count_occ_filter_key {K} `{EqDecision K} (f : Assignment -> K)
    (k : K) (a : Assignment) (l : list Assignment) :
  count_occ Assignment_eq_dec (filter (fun b => f b = k) l) a =
  if decide (f a = k) then count_occ Assignment_eq_dec l a else 0%nat.
Proof.
  induction l as [|b bs IH]; simpl.
  - case_decide; reflexivity.
  - rewrite filter_cons.
    destruct (decide (f b = k)) as [Eb|Eb]; simpl.
    + destruct (Assignment_eq_dec b a) as [->|Hne].
      * rewrite IH. case_decide; [reflexivity | contradiction].
      * exact IH.
    + destruct (Assignment_eq_dec b a) as [->|Hne].
      * rewrite IH. case_decide; [contradiction | reflexivity].
      * exact IH.
Qed.

(** ** Days off *)

Lemma day_off_true a st :
  day_off a st = true <-> on_day_off (instance_data st) a.
Proof.
  unfold day_off, on_day_off. rewrite existsb_exists. split.
  - intros (d & Hd & E). apply Z.eqb_eq in E. subst d.
    now apply list_elem_of_In.
  - intros Hd. exists (day a). split; [now apply list_elem_of_In|].
    apply Z.eqb_refl.
Qed.

Lemma day_off_false a st :
  day_off a st = false <-> ~ on_day_off (instance_data st) a.
Proof.
  rewrite <- day_off_true. destruct (day_off a st); split; congruence.
Qed.

Lemma reachable_days_off inst st :
  reachable inst st ->
  forall a, a ∈ assignments st -> ~ on_day_off inst a.
Proof.
  intros Hst. reach_induction Hst.
  - simpl. intros a Ha. inversion Ha.
  - intros sid st _ IH a. rewrite touch_assignments. apply IH.
  - intros s r st Hst _ _ _ Hv IH a. simpl.
    rewrite touch_assignments in *. rewrite elem_of_app, list_elem_of_singleton.
    intros [Ha | ->]; [now apply IH|].
    apply is_valid_true in Hv as (_ & s' & _ & Hoff & _).
    apply day_off_false in Hoff.
    now rewrite (reachable_instance inst st Hst) in Hoff.
Qed.

(** ** Quotas *)

Lemma count_shift_snoc sh l a :
  count_shift sh (l ++ [a]) =
  count_shift sh l + (if decide (shift_id a = sh) then 1 else 0).
Proof.
  unfold count_shift. rewrite filter_app, filter_cons, filter_nil, length_app.
  case_decide; simpl; lia.
Qed.

Lemma count_shift_nonneg sh l : 0 <= count_shift sh l.
Proof. unfold count_shift. lia. Qed.

Lemma reachable_quota inst st :
  reachable inst st ->
  forall sid s sh cap,
    next_staff (staff inst) sid = Some s ->
    shift_limits s !! sh = Some cap ->
    count_shift sh (sa_get sid st) <= Z.max 0 cap.
Proof.
  intros Hst. reach_induction Hst.
  - intros sid s sh cap _ _. unfold sa_get. simpl.
    rewrite lookup_empty. simpl. unfold count_shift. simpl. lia.
  - intros sid0 st _ IH sid s sh cap. rewrite touch_sa_get. apply IH.
  - intros s0 r st Hst _ _ _ Hv IH sid s sh cap Hs Hcap.
    rewrite commit_sa_get. simpl.
    case_decide as E; [|now apply (IH sid s)].
    subst sid. rewrite count_shift_snoc. simpl.
    specialize (IH (id s0) s sh cap Hs Hcap).
    case_decide as Esh; [|lia].
    apply is_valid_true in Hv as (_ & s' & Hs' & _ & Hq & _).
    simpl in Hs', Hq.
    rewrite (reachable_instance inst st Hst), Hs in Hs'.
    injection Hs' as <-. subst sh.
    specialize (Hq cap Hcap). rewrite touch_sa_get. lia.
Qed.

Lemma next_staff_unique l s :
  NoDup (map id l) -> s ∈ l -> next_staff l (id s) = Some s.
Proof.
  unfold next_staff. induction l as [|x xs IH]; intros Hnd Hs.
  - inversion Hs.
  - simpl. destruct (String.eqb (id x) (id s)) eqn:E.
    + apply String.eqb_eq in E. apply elem_of_cons in Hs as [->|Hs]; auto.
      apply NoDup_cons in Hnd as [Hx _]. exfalso. apply Hx.
      rewrite E. apply list_elem_of_fmap. eauto.
    + apply elem_of_cons in Hs as [->|Hs].
      * now rewrite String.eqb_refl in E.
      * apply NoDup_cons in Hnd as [_ Hnd]. auto.
Qed.

(** ** Runs on instances with distinct staff ids and distinct cover keys *)

Lemma final_assignments a st :
  assignments (final (is_valid_assignment a st)) = assignments st.
Proof.
  destruct (is_valid_final a st) as [-> | ->];
    [reflexivity | apply touch_assignments].
Qed.

Lemma try_staff_instance d sh l needed st :
  instance_data (final (try_staff d sh l needed st)) = instance_data st.
Proof.
  revert needed st. induction l as [|s rest IH]; intros needed st; simpl;
    [reflexivity|].
  destruct (needed <=? 0); [reflexivity|].
  pose proof (final_instance (mkAssignment (id s) d sh) st) as E.
  destruct (is_valid_assignment _ st) as [[|] st1|e st1]; simpl in E.
  - rewrite IH. simpl. exact E.
  - rewrite IH. exact E.
  - exact E.
Qed.

Lemma try_staff_nodup d sh p l needed st :
  NoDup (map id (p ++ l)) ->
  NoDup (assignments st) ->
  (forall a, a ∈ assignments st -> key_of a = (d, sh) ->
             staff_id a ∈ map id p) ->
  let st' := final (try_staff d sh l needed st) in
  NoDup (assignments st') /\
  (forall a, a ∈ assignments st' ->
             a ∈ assignments st \/ key_of a = (d, sh)).
Proof.
  revert p needed st.
  induction l as [|s rest IH]; intros p needed st Hids Hnd Hp; simpl.
  { split; auto. }
  destruct (needed <=? 0); [split; auto|].
  set (a0 := mkAssignment (id s) d sh).
  assert (Hids' : NoDup (map id ((p ++ [s]) ++ rest)))
    by now rewrite <- app_assoc.
  assert (Hfresh : id s ∉ map id p).
  { rewrite map_app in Hids. simpl in Hids.
    apply NoDup_app in Hids as (_ & Hdis & _).
    intros Hin. apply (Hdis _ Hin). left. }
  assert (Hp' : forall a, a ∈ assignments st -> key_of a = (d, sh) ->
                          staff_id a ∈ map id (p ++ [s])).
  { intros a Ha Hk. rewrite map_app. apply elem_of_app. left. auto. }
  pose proof (final_assignments a0 st) as Ef.
  destruct (is_valid_assignment a0 st) as [[|] st1|e st1] eqn:Hv;
    simpl in Ef.
  - destruct (IH (p ++ [s]) (needed - 1) (commit a0 st1) Hids') as [H1 H2].
    + simpl. rewrite Ef. apply NoDup_app. repeat split; auto.
      * intros a Ha Hin. apply list_elem_of_singleton in Hin. subst a.
        apply Hfresh. now apply (Hp a0 Ha).
      * apply NoDup_singleton.
    + simpl. rewrite Ef. intros a Ha Hk.
      apply elem_of_app in Ha as [Ha|Ha]; [now apply Hp'|].
      apply list_elem_of_singleton in Ha. subst a. simpl.
      rewrite map_app. apply elem_of_app. right. left.
    + split; [exact H1|]. intros a Ha.
      destruct (H2 a Ha) as [Hin|Hk]; [|now right].
      simpl in Hin. rewrite Ef in Hin.
      apply elem_of_app in Hin as [Hin|Hin]; [now left|].
      apply list_elem_of_singleton in Hin. subst a. now right.
  - destruct (IH (p ++ [s]) needed st1 Hids') as [H1 H2];
      rewrite ?Ef; auto.
    split; [exact H1|]. intros a Ha. rewrite <- Ef. auto.
  - simpl. rewrite Ef. split; auto.
Qed.

Lemma fill_nodup reqs st :
  NoDup (map id (staff (instance_data st))) ->
  NoDup (map key_of_cover reqs) ->
  NoDup (assignments st) ->
  (forall a, a ∈ assignments st -> key_of a ∉ map key_of_cover reqs) ->
  NoDup (assignments (final (fill reqs st))).
Proof.
  revert st.
  induction reqs as [|r rest IH]; intros st Hids Hkeys Hnd Hold; simpl;
    [exact Hnd|].
  simpl in Hkeys. apply NoDup_cons in Hkeys as [Hr Hkeys].
  assert (Hold' : forall a, a ∈ assignments st ->
                            key_of a ∉ map key_of_cover rest).
  { intros a Ha Hin. apply (Hold a Ha). simpl. now right. }
  destruct (_ <=? 0); [now apply IH|].
  destruct (try_staff_nodup (c_day r) (c_shift_id r) [] (staff (instance_data st))
              (requirement r -
               Z.of_nat (length (ds_get (c_day r, c_shift_id r) st))) st)
    as [H1 H2]; auto.
  { intros a Ha Hk. exfalso. apply (Hold a Ha). simpl. rewrite Hk. left. }
  pose proof (try_staff_instance (c_day r) (c_shift_id r)
                (staff (instance_data st))
                (requirement r -
                 Z.of_nat (length (ds_get (c_day r, c_shift_id r) st))) st)
    as Ei.
  destruct (try_staff _ _ _ _ _) as [n st1|e st1]; simpl in *; [|exact H1].
  destruct (0 <? n); [exact H1|].
  apply IH; auto; [now rewrite Ei|].
  intros a Ha. destruct (H2 a Ha) as [Hin|Hk]; [now apply Hold'|].
  rewrite Hk. exact Hr.
Qed.

Lemma greedy_nodup inst :
  NoDup (map id (staff inst)) ->
  NoDup (map key_of_cover (cover_requirements inst)) ->
  NoDup (assignments (final (greedy_schedule (init inst)))).
Proof.
  intros Hids Hkeys. unfold greedy_schedule. apply fill_nodup; simpl; auto.
  - now rewrite (Permutation_map key_of_cover (sort_by_weight_perm _)).
  - apply NoDup_nil_2.
  - intros a Ha. inversion Ha.
Qed.

(** ** The fill loop *)

Lemma try_staff_needed_le d sh l needed st n st' :
  try_staff d sh l needed st = Ret n st' -> n <= needed.
Proof.
  revert needed st. induction l as [|s rest IH]; intros needed st; simpl.
  - intros [= -> _]. lia.
  - destruct (needed <=? 0); [intros [= -> _]; lia|].
    destruct (is_valid_assignment _ st) as [[|] st1|e st1]; intros Ht;
      [apply IH in Ht; lia | now apply IH in Ht | discriminate].
Qed.

Lemma try_staff_keeps d sh l needed st :
  exists added,
    assignments (final (try_staff d sh l needed st)) =
    assignments st ++ added.
Proof.
  revert needed st. induction l as [|s rest IH]; intros needed st; simpl.
  - exists []. now rewrite app_nil_r.
  - destruct (needed <=? 0); [exists []; now rewrite app_nil_r|].
    pose proof (final_assignments (mkAssignment (id s) d sh) st) as Ef.
    destruct (is_valid_assignment _ st) as [[|] st1|e st1]; simpl in Ef.
    + destruct (IH (needed - 1) (commit (mkAssignment (id s) d sh) st1))
        as [added Ha].
      exists (mkAssignment (id s) d sh :: added).
      rewrite Ha. simpl. rewrite Ef, <- app_assoc. reflexivity.
    + destruct (IH needed st1) as [added Ha]. exists added. now rewrite Ha, Ef.
    + exists []. simpl. now rewrite app_nil_r.
Qed.

Lemma fill_keeps reqs st :
  exists added, assignments (final (fill reqs st)) = assignments st ++ added.
Proof.
  revert st. induction reqs as [|r rest IH]; intros st; simpl.
  - exists []. now rewrite app_nil_r.
  - destruct (_ <=? 0); [apply IH|].
    destruct (try_staff_keeps (c_day r) (c_shift_id r)
                (staff (instance_data st))
                (requirement r -
                 Z.of_nat (length (ds_get (c_day r, c_shift_id r) st))) st)
      as [added Ha].
    destruct (try_staff _ _ _ _ _) as [n st1|e st1]; simpl in Ha;
      [|now exists added].
    destruct (0 <? n); [now exists added|].
    destruct (IH st1) as [added' Ha']. exists (added ++ added').
    now rewrite Ha', Ha, app_assoc.
Qed.

Lemma fill_app reqs1 reqs2 st :
  fill (reqs1 ++ reqs2) st =
  match fill reqs1 st with
  | Ret true st1 => fill reqs2 st1
  | other => other
  end.
Proof.
  revert st. induction reqs1 as [|r rest IH]; intros st; simpl; [reflexivity|].
  destruct (_ <=? 0); [apply IH|].
  destruct (try_staff _ _ _ _ _) as [n st1|e st1]; [|reflexivity].
  destruct (0 <? n); [reflexivity | apply IH].
Qed.

(** ** The schedules a run passes through *)

Lemma prefixes_from_app {A} (base l1 l2 : list A) :
  prefixes_from base (l1 ++ l2) =
  prefixes_from base l1 ++ prefixes_from (base ++ l1) l2.
Proof.
  revert base. induction l1 as [|a rest IH]; intros base; simpl.
  - now rewrite app_nil_r.
  - rewrite IH, <- app_assoc. reflexivity.
Qed.

Lemma prefixes_from_length {A} (base added : list A) :
  length (prefixes_from base added) = length added.
Proof.
  revert base. induction added as [|a rest IH]; intros base; simpl;
    [reflexivity|]. now rewrite IH.
Qed.

Lemma prefixes_from_elem {A} (base added l : list A) :
  l ∈ prefixes_from base added ->
  exists done rest, added = done ++ rest /\ l = base ++ done /\ done <> [].
Proof.
  revert base. induction added as [|a rest IH]; intros base; simpl.
  - inversion 1.
  - intros Hl. apply elem_of_cons in Hl as [-> | Hl].
    + exists [a], rest. split; [reflexivity|]. split; [reflexivity|discriminate].
    + destruct (IH _ Hl) as (done & rest' & -> & -> & _).
      exists (a :: done), rest'. split; [reflexivity|].
      split; [now rewrite <- app_assoc | discriminate].
Qed.

Lemma try_staff_commits_spec d sh l needed st :
  exists added,
    assignments (final (try_staff d sh l needed st)) =
      assignments st ++ added /\
    map assignments (try_staff_commits d sh l needed st) =
      prefixes_from (assignments st) added.
Proof.
  revert needed st. induction l as [|s rest IH]; intros needed st; simpl.
  - exists []. now rewrite app_nil_r.
  - destruct (needed <=? 0); [exists []; now rewrite app_nil_r|].
    pose proof (final_assignments (mkAssignment (id s) d sh) st) as Ef.
    destruct (is_valid_assignment _ st) as [[|] st1|e st1]; simpl in Ef.
    + destruct (IH (needed - 1) (commit (mkAssignment (id s) d sh) st1))
        as (added & Ha & Hc).
      exists (mkAssignment (id s) d sh :: added).
      rewrite Ha. simpl. rewrite Hc. simpl. rewrite Ef, <- app_assoc.
      split; reflexivity.
    + destruct (IH needed st1) as (added & Ha & Hc). exists added.
      now rewrite Ha, Hc, Ef.
    + exists []. simpl. now rewrite app_nil_r.
Qed.

Lemma fill_commits_spec reqs st :
  exists added,
    assignments (final (fill reqs st)) = assignments st ++ added /\
    map assignments (fill_commits reqs st) =
      prefixes_from (assignments st) added.
Proof.
  revert st. induction reqs as [|r rest IH]; intros st; simpl.
  - exists []. now rewrite app_nil_r.
  - destruct (_ <=? 0); [apply IH|].
    destruct (try_staff_commits_spec (c_day r) (c_shift_id r)
                (staff (instance_data st))
                (requirement r -
                 Z.of_nat (length (ds_get (c_day r, c_shift_id r) st))) st)
      as (added & Ha & Hc).
    destruct (try_staff _ _ _ _ _) as [n st1|e st1]; simpl in Ha;
      [|now exists added].
    destruct (0 <? n); [now exists added|].
    destruct (IH st1) as (added' & Ha' & Hc'). exists (added ++ added').
    rewrite Ha', Ha, app_assoc. split; [reflexivity|].
    rewrite map_app, Hc, Hc', Ha, prefixes_from_app. reflexivity.
Qed.

Lemma try_staff_commits_reachable inst r l needed st :
  reachable inst st -> l ⊆ staff inst -> r ∈ cover_requirements inst ->
  forall st', st' ∈ try_staff_commits (c_day r) (c_shift_id r) l needed st ->
              reachable inst st'.
Proof.
  revert needed st.
  induction l as [|s rest IH]; intros needed st Hst Hl Hr st'; simpl;
    [inversion 1|].
  destruct (needed <=? 0); [inversion 1|].
  assert (Hs : s ∈ staff inst) by (apply Hl; left).
  assert (Hrest : rest ⊆ staff inst) by (intros x Hx; apply Hl; now right).
  fold (candidate s r).
  destruct (is_valid_assignment (candidate s r) st) as [[|] st1|e st1] eqn:Hv.
  - assert (Hc : reachable inst (commit (candidate s r) st1))
      by (eapply reach_commit; eauto).
    intros Hin. apply elem_of_cons in Hin as [-> | Hin]; [exact Hc|].
    eapply IH; eauto.
  - apply IH; auto.
    change st1 with (final (Ret false st1)). rewrite <- Hv.
    apply reach_check; auto.
  - inversion 1.
Qed.

Lemma fill_commits_reachable inst reqs st :
  reachable inst st -> reqs ⊆ cover_requirements inst ->
  forall st', st' ∈ fill_commits reqs st -> reachable inst st'.
Proof.
  revert st.
  induction reqs as [|r rest IH]; intros st Hst Hl st'; simpl; [inversion 1|].
  assert (Hr : r ∈ cover_requirements inst) by (apply Hl; left).
  assert (Hrest : rest ⊆ cover_requirements inst)
    by (intros x Hx; apply Hl; now right).
  destruct (_ <=? 0); [apply IH; auto|].
  rewrite (reachable_instance inst st Hst).
  pose proof (try_staff_reachable inst r (staff inst)
                (requirement r -
                 Z.of_nat (length (ds_get (c_day r, c_shift_id r) st)))
                st Hst (fun x Hx => Hx) Hr) as Ht.
  pose proof (try_staff_commits_reachable inst r (staff inst)
                (requirement r -
                 Z.of_nat (length (ds_get (c_day r, c_shift_id r) st)))
                st Hst (fun x Hx => Hx) Hr st') as Hc.
  destruct (try_staff _ _ _ _ _) as [n st1|e st1]; simpl in Ht; [|exact Hc].
  destruct (0 <? n); [exact Hc|].
  intros Hin. apply elem_of_app in Hin as [Hin | Hin]; [auto|].
  eapply IH; eauto.
Qed.

Lemma greedy_commits_reachable inst st :
  reachable inst st ->
  forall st', st' ∈ greedy_commits st -> reachable inst st'.
Proof.
  intros Hst. unfold greedy_commits.
  apply fill_commits_reachable; [exact Hst|].
  rewrite (reachable_instance inst st Hst).
  intros x Hx. now rewrite sort_by_weight_perm in Hx.
Qed.

(** The flat list of a schedule a run passes through starts the flat list
    the run ends with. *)
Lemma greedy_commits_prefix st st' :
  st' ∈ greedy_commits st ->
  exists rest,
    assignments (final (greedy_schedule st)) = assignments st' ++ rest.
Proof.
  unfold greedy_commits, greedy_schedule. intros Hin.
  destruct (fill_commits_spec
              (sort_by_weight (cover_requirements (instance_data st))) st)
    as (added & Ha & Hc).
  assert (Hl : assignments st' ∈ prefixes_from (assignments st) added).
  { rewrite <- Hc. apply list_elem_of_fmap. eauto. }
  apply prefixes_from_elem in Hl as (done & rest & -> & Hd & _).
  exists rest. now rewrite Ha, Hd, app_assoc.
Qed.

(** The agreement of the three structures is kept by every call, from any
    schedule in which it holds. *)
Lemma is_valid_consistent a st :
  consistent st -> consistent (final (is_valid_assignment a st)).
Proof.
  intros Hc. destruct (is_valid_final a st) as [-> | ->];
    [exact Hc | now apply consistent_touch].
Qed.

Lemma try_staff_consistent d sh l needed st :
  consistent st ->
  consistent (final (try_staff d sh l needed st)) /\
  (forall st', st' ∈ try_staff_commits d sh l needed st -> consistent st').
Proof.
  revert needed st. induction l as [|s rest IH]; intros needed st Hc; simpl.
  - split; [exact Hc | inversion 1].
  - destruct (needed <=? 0); [split; [exact Hc | inversion 1]|].
    pose proof (is_valid_consistent (mkAssignment (id s) d sh) st Hc) as Hv.
    destruct (is_valid_assignment _ st) as [[|] st1|e st1]; simpl in Hv.
    + apply (consistent_commit (mkAssignment (id s) d sh)) in Hv.
      destruct (IH (needed - 1) _ Hv) as [H1 H2].
      split; [exact H1|]. intros st' Hin.
      apply elem_of_cons in Hin as [-> | Hin]; auto.
    + now apply IH.
    + split; [exact Hv | inversion 1].
Qed.

Lemma fill_consistent reqs st :
  consistent st ->
  consistent (final (fill reqs st)) /\
  (forall st', st' ∈ fill_commits reqs st -> consistent st').
Proof.
  revert st. induction reqs as [|r rest IH]; intros st Hc; simpl.
  - split; [exact Hc | inversion 1].
  - destruct (_ <=? 0); [now apply IH|].
    destruct (try_staff_consistent (c_day r) (c_shift_id r)
                (staff (instance_data st))
                (requirement r -
                 Z.of_nat (length (ds_get (c_day r, c_shift_id r) st))) st Hc)
      as [H1 H2].
    destruct (try_staff _ _ _ _ _) as [n st1|e st1]; simpl in H1;
      [|split; assumption].
    destruct (0 <? n); [split; assumption|].
    destruct (IH st1 H1) as [H3 H4]. split; [exact H3|].
    intros st' Hin. apply elem_of_app in Hin as [Hin | Hin]; auto.
Qed.

(** ** Exceptions *)

Lemma next_staff_Some l sid :
  sid ∈ map id l -> is_Some (next_staff l sid).
Proof.
  unfold next_staff. induction l as [|x xs IH]; simpl; intros Hin.
  - inversion Hin.
  - destruct (String.eqb (id x) sid) eqn:E; [eauto|].
    apply elem_of_cons in Hin as [->|Hin]; [|auto].
    now rewrite String.eqb_refl in E.
Qed.

(** The two ways the predicate raises. *)
Lemma is_valid_raise a st e st' :
  is_valid_assignment a st = Raise e st' ->
  (e = StopIteration /\
   next_staff (staff (instance_data st)) (staff_id a) = None) \/
  (e = KeyError /\
   exists b, last (sa_get (staff_id a) st) = Some b /\
             shifts_dict st !! shift_id b = None).
Proof.
  unfold is_valid_assignment.
  destruct (next_staff _ _) as [s|]; [|intros [= <- _]; left; auto].
  destruct (day_off a st); [discriminate|].
  pose proof (quota_blocked_state s a st) as Hq.
  destruct (quota_blocked s a st) as [blocked st1]. simpl in Hq.
  destruct blocked; [discriminate|].
  assert (Hs : verdict (succession_blocked a st1) =
               verdict (succession_blocked a st)).
  { destruct Hq as [-> | ->]; [reflexivity|].
    rewrite succession_touch. destruct (succession_blocked a st); reflexivity. }
  destruct (succession_blocked a st1) as [[|] st2|e2 st2]; try discriminate.
  intros [= <- _]. right. revert Hs. unfold succession_blocked.
  destruct (last (sa_get (staff_id a) st)) as [la|]; [|discriminate].
  destruct (day la =? day a - 1); [|discriminate].
  destruct (shifts_dict st !! shift_id la) eqn:Es; [discriminate|].
  intros [= ->]. eauto.
Qed.

Lemma final_shifts_dict a st :
  shifts_dict (final (is_valid_assignment a st)) = shifts_dict st.
Proof.
  destruct (is_valid_final a st) as [-> | ->];
    [reflexivity | apply touch_shifts_dict].
Qed.

Lemma reachable_shifts_dict inst st :
  reachable inst st -> shifts_dict st = make_shifts_dict (shifts inst).
Proof.
  intros Hst. reach_induction Hst; auto.
  intros sid st0 _. now rewrite touch_shifts_dict.
Qed.

(** Every committed assignment is a candidate of the instance. *)
Lemma reachable_origin inst st :
  reachable inst st ->
  forall a, a ∈ assignments st ->
  exists s r, s ∈ staff inst /\ r ∈ cover_requirements inst /\
              a = candidate s r.
Proof.
  intros Hst. reach_induction Hst.
  - simpl. intros a Ha. inversion Ha.
  - intros sid st _ IH a. rewrite touch_assignments. apply IH.
  - intros s r st _ _ Hs Hr _ IH a. simpl.
    rewrite elem_of_app, list_elem_of_singleton.
    intros [Ha | ->]; [now apply IH | eauto].
Qed.

(** A raise under a reachable schedule is a [KeyError] for the shift of a
    committed assignment. *)
Lemma is_valid_raise_reachable inst s r st e st' :
  reachable inst st -> s ∈ staff inst ->
  is_valid_assignment (candidate s r) st = Raise e st' ->
  e = KeyError /\
  exists b, b ∈ assignments st' /\ ~ known_shift st' (shift_id b).
Proof.
  intros Hst Hs Hv.
  pose proof (final_assignments (candidate s r) st) as Ea.
  pose proof (final_shifts_dict (candidate s r) st) as Ed.
  rewrite Hv in Ea, Ed. simpl in Ea, Ed.
  apply is_valid_raise in Hv as [[_ Hnone] | [-> (b & Hb & Hk)]].
  - exfalso. rewrite (reachable_instance inst st Hst) in Hnone. simpl in Hnone.
    destruct (next_staff_Some (staff inst) (id s)) as [x Hx];
      [apply list_elem_of_fmap; eauto | congruence].
  - split; [reflexivity|]. exists b. unfold known_shift. rewrite Ea, Ed, Hk.
    split; [|intros [x Hx]; discriminate].
    apply last_Some_elem_of in Hb.
    rewrite (cons_staff st (reachable_consistent inst st Hst)) in Hb.
    now apply list_elem_of_filter in Hb as [_ Hb].
Qed.

Lemma try_staff_raise inst r l needed st e st' :
  reachable inst st -> l ⊆ staff inst -> r ∈ cover_requirements inst ->
  try_staff (c_day r) (c_shift_id r) l needed st = Raise e st' ->
  e = KeyError /\
  exists b, b ∈ assignments st' /\ ~ known_shift st' (shift_id b).
Proof.
  revert needed st.
  induction l as [|s rest IH]; intros needed st Hst Hl Hr; simpl;
    [discriminate|].
  destruct (needed <=? 0); [discriminate|].
  assert (Hs : s ∈ staff inst) by (apply Hl; left).
  assert (Hrest : rest ⊆ staff inst) by (intros x Hx; apply Hl; now right).
  fold (candidate s r).
  destruct (is_valid_assignment (candidate s r) st) as [[|] st1|e1 st1] eqn:Hv.
  - apply IH; auto. eapply reach_commit; eauto.
  - apply IH; auto.
    change st1 with (final (Ret false st1)). rewrite <- Hv.
    apply reach_check; auto.
  - intros [= <- <-]. eapply is_valid_raise_reachable; eauto.
Qed.

Lemma fill_raise inst reqs st e st' :
  reachable inst st -> reqs ⊆ cover_requirements inst ->
  fill reqs st = Raise e st' ->
  e = KeyError /\
  exists b, b ∈ assignments st' /\ ~ known_shift st' (shift_id b).
Proof.
  revert st.
  induction reqs as [|r rest IH]; intros st Hst Hl; simpl; [discriminate|].
  assert (Hr : r ∈ cover_requirements inst) by (apply Hl; left).
  assert (Hrest : rest ⊆ cover_requirements inst)
    by (intros x Hx; apply Hl; now right).
  destruct (_ <=? 0); [apply IH; auto|].
  rewrite (reachable_instance inst st Hst).
  pose proof (try_staff_reachable inst r (staff inst)
                (requirement r -
                 Z.of_nat (length (ds_get (c_day r, c_shift_id r) st)))
                st Hst (fun x Hx => Hx) Hr) as Hreach.
  destruct (try_staff _ _ _ _ _) as [n st1|e1 st1] eqn:Ht; simpl in Hreach.
  - destruct (0 <? n); [discriminate|]. apply IH; auto.
  - intros [= <- <-].
    eapply try_staff_raise;
      [exact Hst | intros x Hx; exact Hx | exact Hr | exact Ht].
Qed.

(** ** Fields the engine does not read *)

Lemma instance_agree_forget i1 i2 :
  instance_agree i1 i2 -> forget_instance i1 = forget_instance i2.
Proof.
  intros (Hh & Hs & Hd & Hc & Hst). unfold forget_instance.
  rewrite Hh, Hs, Hd, Hc. f_equal.
  induction Hst as [|s1 s2 l1 l2 (Hi & Hl & Hm) _ IH]; simpl; [reflexivity|].
  rewrite IH. f_equal. unfold forget_staff. now rewrite Hi, Hl, Hm.
Qed.

Lemma forget_touch sid st : forget (sa_touch sid st) = sa_touch sid (forget st).
Proof.
  unfold sa_touch. simpl. destruct (staff_assignments st !! sid); reflexivity.
Qed.

Lemma forget_commit a st : forget (commit a st) = commit a (forget st).
Proof. reflexivity. Qed.

Lemma next_staff_forget l sid :
  next_staff (map forget_staff l) sid = option_map forget_staff (next_staff l sid).
Proof.
  unfold next_staff. induction l as [|x xs IH]; simpl; [reflexivity|].
  destruct (String.eqb (id x) sid); [reflexivity | exact IH].
Qed.

Lemma succession_forget a st :
  succession_blocked a (forget st) = outcome_map forget (succession_blocked a st).
Proof.
  unfold succession_blocked. rewrite <- forget_touch.
  change (sa_get (staff_id a) (forget st)) with (sa_get (staff_id a) st).
  change (shifts_dict (forget st)) with (shifts_dict st).
  destruct (last (sa_get (staff_id a) st)) as [la|]; [|reflexivity].
  destruct (day la =? day a - 1); [|reflexivity].
  destruct (shifts_dict st !! shift_id la); reflexivity.
Qed.

Lemma is_valid_forget a st :
  is_valid_assignment a (forget st) =
  outcome_map forget (is_valid_assignment a st).
Proof.
  unfold is_valid_assignment. simpl. rewrite next_staff_forget.
  destruct (next_staff (staff (instance_data st)) (staff_id a)) as [s|];
    [|reflexivity].
  simpl. change (day_off a (forget st)) with (day_off a st).
  destruct (day_off a st); [reflexivity|].
  assert (Hq : quota_blocked (forget_staff s) a (forget st) =
               (fst (quota_blocked s a st), forget (snd (quota_blocked s a st)))).
  { unfold quota_blocked. simpl.
    destruct (shift_limits s !! shift_id a); simpl; [|reflexivity].
    now rewrite <- forget_touch. }
  rewrite Hq. destruct (quota_blocked s a st) as [blocked st1]. simpl.
  destruct blocked; [reflexivity|].
  rewrite succession_forget.
  destruct (succession_blocked a st1) as [[|] st2|e st2]; reflexivity.
Qed.

Lemma try_staff_forget d sh l needed st :
  try_staff d sh (map forget_staff l) needed (forget st) =
  outcome_map forget (try_staff d sh l needed st).
Proof.
  revert needed st. induction l as [|s rest IH]; intros needed st; simpl;
    [reflexivity|].
  destruct (needed <=? 0); [reflexivity|].
  rewrite is_valid_forget.
  destruct (is_valid_assignment _ st) as [[|] st1|e st1]; simpl;
    [|apply IH | reflexivity].
  rewrite <- forget_commit. apply IH.
Qed.

Lemma fill_forget reqs st :
  fill reqs (forget st) = outcome_map forget (fill reqs st).
Proof.
  revert st. induction reqs as [|r rest IH]; intros st; simpl; [reflexivity|].
  change (ds_get (c_day r, c_shift_id r) (forget st))
    with (ds_get (c_day r, c_shift_id r) st).
  destruct (_ <=? 0); [apply IH|].
  rewrite try_staff_forget.
  destruct (try_staff _ _ _ _ st) as [n st1|e st1]; simpl; [|reflexivity].
  destruct (0 <? n); [reflexivity | apply IH].
Qed.

Lemma greedy_forget st :
  greedy_schedule (forget st) = outcome_map forget (greedy_schedule st).
Proof. unfold greedy_schedule. simpl. apply fill_forget. Qed.

Lemma verdict_outcome_map {A} f (o : outcome A) :
  verdict (outcome_map f o) = verdict o.
Proof. destruct o; reflexivity. Qed.

Lemma final_outcome_map {A} f (o : outcome A) :
  final (outcome_map f o) = f (final o).
Proof. destruct o; reflexivity. Qed.

(** ** The engine on a dictionary that holds the keys *)

Lemma on_dict_on_instance inst st :
  on_dict (d_instance_data st) (on_instance inst st) = st.
Proof. destruct st; reflexivity. Qed.

Lemma on_dict_touch d sid st :
  dict_sa_touch sid (on_dict d st) = on_dict d (sa_touch sid st).
Proof.
  unfold dict_sa_touch, sa_touch. simpl.
  destruct (staff_assignments st !! sid); reflexivity.
Qed.

Lemma on_dict_commit d a st :
  dict_commit a (on_dict d st) = on_dict d (commit a st).
Proof. reflexivity. Qed.

Lemma on_dict_quota d s a st :
  dict_quota_blocked s a (on_dict d st) =
  (fst (quota_blocked s a st), on_dict d (snd (quota_blocked s a st))).
Proof.
  unfold dict_quota_blocked, quota_blocked.
  destruct (shift_limits s !! shift_id a); simpl; [|reflexivity].
  now rewrite on_dict_touch.
Qed.

Lemma on_dict_succession d a st :
  dict_succession_blocked a (on_dict d st) =
  on_dict_outcome d (succession_blocked a st).
Proof.
  unfold dict_succession_blocked, succession_blocked.
  rewrite on_dict_touch.
  change (dict_sa_get (staff_id a) (on_dict d st))
    with (sa_get (staff_id a) st).
  change (d_shifts_dict (on_dict d st)) with (shifts_dict st).
  destruct (last (sa_get (staff_id a) st)) as [la|]; [|reflexivity].
  destruct (day la =? day a - 1); [|reflexivity].
  destruct (shifts_dict st !! shift_id la); reflexivity.
Qed.

(** On a dictionary that holds the staff list and the days off, the
    predicate is the predicate on the instance. *)
Lemma on_dict_is_valid d a st :
  holds_staff_keys d (instance_data st) ->
  dict_is_valid_assignment a (on_dict d st) =
  on_dict_outcome d (is_valid_assignment a st).
Proof.
  intros [Hstaff Hoff].
  unfold dict_is_valid_assignment, is_valid_assignment, day_off. simpl.
  rewrite Hstaff, Hoff.
  destruct (next_staff (staff (instance_data st)) (staff_id a)) as [s|];
    [|reflexivity].
  destruct (existsb _ _); [reflexivity|].
  rewrite on_dict_quota.
  destruct (quota_blocked s a st) as [blocked st1]. simpl.
  destruct blocked; [reflexivity|].
  rewrite on_dict_succession.
  destruct (succession_blocked a st1) as [[|] st2|e st2]; reflexivity.
Qed.

Lemma on_dict_try_staff d day sh l needed st :
  holds_staff_keys d (instance_data st) ->
  dict_try_staff day sh l needed (on_dict d st) =
  on_dict_outcome d (try_staff day sh l needed st).
Proof.
  revert needed st. induction l as [|s rest IH]; intros needed st Hk; simpl;
    [reflexivity|].
  destruct (needed <=? 0); [reflexivity|].
  rewrite (on_dict_is_valid d _ st Hk).
  pose proof (final_instance (mkAssignment (id s) day sh) st) as Ei.
  destruct (is_valid_assignment _ st) as [[|] st1|e st1]; simpl in *;
    [|apply IH; now rewrite Ei | reflexivity].
  rewrite on_dict_commit. apply IH. simpl. now rewrite Ei.
Qed.

Lemma on_dict_fill d reqs st :
  holds_staff_keys d (instance_data st) ->
  dict_fill reqs (on_dict d st) = on_dict_outcome d (fill reqs st).
Proof.
  revert st. induction reqs as [|r rest IH]; intros st Hk; simpl;
    [reflexivity|].
  change (dict_ds_get (c_day r, c_shift_id r) (on_dict d st))
    with (ds_get (c_day r, c_shift_id r) st).
  destruct (_ <=? 0); [now apply IH|].
  rewrite (proj1 Hk), (on_dict_try_staff d _ _ _ _ st Hk).
  pose proof (try_staff_instance (c_day r) (c_shift_id r)
                (staff (instance_data st))
                (requirement r -
                 Z.of_nat (length (ds_get (c_day r, c_shift_id r) st))) st)
    as Ei.
  destruct (try_staff _ _ _ _ st) as [n st1|e st1]; simpl in *;
    [|reflexivity].
  destruct (0 <? n); [reflexivity|]. apply IH. now rewrite Ei.
Qed.

Lemma on_dict_greedy d st :
  holds_staff_keys d (instance_data st) ->
  l_cover_requirements d = Some (cover_requirements (instance_data st)) ->
  dict_greedy_schedule (on_dict d st) = on_dict_outcome d (greedy_schedule st).
Proof.
  intros Hk Hc. unfold dict_greedy_schedule, greedy_schedule. simpl.
  rewrite Hc. now apply on_dict_fill.
Qed.

Lemma on_dict_init d inst :
  l_shifts d = Some (shifts inst) ->
  dict_init d = inr (on_dict d (init inst)).
Proof. intros Hs. unfold dict_init. now rewrite Hs. Qed.

(** A run from the fresh schedule on an instance whose cover rows all name
    a shift of the table returns. *)
Lemma greedy_returns inst :
  (forall b,
      b ∈ assignments (final (greedy_schedule (init inst))) ->
      known_shift (init inst) (shift_id b)) ->
  exists ok st, greedy_schedule (init inst) = Ret ok st.
Proof.
  intros Hknown.
  destruct (greedy_schedule (init inst)) as [ok st|e st] eqn:Hg; [eauto|].
  exfalso. unfold greedy_schedule in Hg.
  assert (Hreach : reachable inst (final (Raise (A:=bool) e st))).
  { rewrite <- Hg. apply fill_reachable; [apply reach_init|].
    simpl. intros x Hx. now rewrite sort_by_weight_perm in Hx. }
  apply (fill_raise inst) in Hg as (_ & b & Hb & Hk).
  - apply Hk. unfold known_shift.
    rewrite (reachable_shifts_dict inst st Hreach). now apply Hknown.
  - apply reach_init.
  - simpl. intros x Hx. now rewrite sort_by_weight_perm in Hx.
Qed.

(** * The claims *)

(** C1, as amended.  When, after the staff list is exhausted, the needed
    count of a requirement is still positive, the run ends there: the
    result is false, the schedule is the one the staff loop of that
    requirement left, so whatever was committed before stays (no rollback),
    and the requirements after it are not attempted (the outcome is the
    same whatever follows in the list). *)
Theorem greedy_stops_at_first_unmet
    (st st1 st2 : Schedule) (reqs1 reqs2 : list Cover) (r : Cover) (n : Z) :
  sort_by_weight (cover_requirements (instance_data st)) =
    reqs1 ++ r :: reqs2 ->
  fill reqs1 st = Ret true st1 ->
  try_staff (c_day r) (c_shift_id r) (staff (instance_data st1))
    (requirement r - Z.of_nat (length (ds_get (key_of_cover r) st1))) st1 =
    Ret n st2 ->
  0 < n ->
  greedy_schedule st = Ret false st2 /\
  (exists added1 added2,
      assignments st1 = assignments st ++ added1 /\
      assignments st2 = assignments st1 ++ added2) /\
  (forall reqs, fill (reqs1 ++ r :: reqs) st = Ret false st2).
Proof.
  intros Hsort H1 Ht Hn.
  assert (Hfill : forall reqs, fill (reqs1 ++ r :: reqs) st = Ret false st2).
  { intros reqs. rewrite fill_app, H1. simpl.
    pose proof (try_staff_needed_le _ _ _ _ _ _ _ Ht) as Hle.
    unfold key_of_cover in Ht, Hle.
    destruct (_ <=? 0) eqn:E; [apply Z.leb_le in E; lia|].
    rewrite Ht. apply Z.ltb_lt in Hn. now rewrite Hn. }
  split; [unfold greedy_schedule; rewrite Hsort; apply Hfill|].
  split; [|exact Hfill].
  destruct (fill_keeps reqs1 st) as [added1 Ha1]. rewrite H1 in Ha1.
  destruct (try_staff_keeps (c_day r) (c_shift_id r)
              (staff (instance_data st1))
              (requirement r -
               Z.of_nat (length (ds_get (key_of_cover r) st1))) st1)
    as [added2 Ha2].
  rewrite Ht in Ha2. eauto.
Qed.

Lemma greedy_stops_at_first_unmet_witness :
  greedy_schedule (init scenario_off) = Ret false (init scenario_off).
Proof.
  apply (greedy_stops_at_first_unmet (init scenario_off) (init scenario_off)
           (init scenario_off) [] [mkCover 1 "D" 1 5 1]
           (mkCover 0 "D" 1 10 1) 1);
    [reflexivity | reflexivity | reflexivity | lia].
Defined.

(** C1 as stated fails on the instance whose only staff member has day 0
    off, with a requirement on day 0 and a lighter one on day 1: the run
    returns false with no assignment at all, although the day-1 requirement
    is unmet and its candidate is valid in the final schedule; attempting
    every requirement, as the claim words it, would commit (S1, 1, D). *)
Lemma greedy_skips_later_requirement :
  let st := final (greedy_schedule (init scenario_off)) in
  greedy_schedule (init scenario_off) = Ret false st /\
  assignments st = [] /\
  ds_get (1, "D") st = [] /\
  is_valid_assignment (mkAssignment "S1" 1 "D") st =
    Ret true (sa_touch "S1" st) /\
  assignments (final (spec_greedy_every (init scenario_off))) =
    [mkAssignment "S1" 1 "D"] /\
  greedy_schedule (init scenario_off) <> spec_greedy_every (init scenario_off).
Proof.
  repeat split; try (vm_compute; reflexivity).
  intros E. apply (f_equal (fun o => length (assignments (final o)))) in E.
  vm_compute in E. discriminate.
Qed.

(** C2 fails in the code.  The late shift L forbids the early shift E
    after it; the requirement (day 1, E) weighs more than (day 0, L) and is
    filled first.  When (S1, 0, L) is then checked, the last inserted
    assignment of S1 is on day 1, not on day -1, and nothing looks at the
    day after the candidate: the run returns true with S1 on L on day 0 and
    on E on day 1. *)
Theorem forbidden_succession_committed :
  let st := final (greedy_schedule (init scenario_succession)) in
  greedy_schedule (init scenario_succession) = Ret true st /\
  assignments st = [mkAssignment "S1" 1 "E"; mkAssignment "S1" 0 "L"] /\
  forbidden_succession st (mkAssignment "S1" 0 "L") (mkAssignment "S1" 1 "E") /\
  ~ no_forbidden_succession st.
Proof.
  intros st.
  assert (Hf : forbidden_succession st (mkAssignment "S1" 0 "L")
                 (mkAssignment "S1" 1 "E")).
  { repeat split.
    exists (mkShift "L" 480 ["E"]). split; [vm_compute; reflexivity|]. left. }
  split; [vm_compute; reflexivity|].
  split; [vm_compute; reflexivity|].
  split; [exact Hf|].
  intros Hno.
  apply (Hno (mkAssignment "S1" 0 "L") (mkAssignment "S1" 1 "E"));
    [vm_compute; right; left | vm_compute; left | exact Hf].
Qed.

(** C3 fails in the code.  S1 may work at most 2 consecutive shifts; the
    requirements of days 1 and 2 weigh more than the one of day 0 and are
    filled first.  The check of (S1, 0, D) walks backward from day -1,
    finds no worked day and accepts: the run returns true with S1 working
    on the three consecutive days 0, 1 and 2. *)
Theorem consecutive_run_exceeded :
  let st := final (greedy_schedule (init scenario_run)) in
  greedy_schedule (init scenario_run) = Ret true st /\
  assignments st =
    [mkAssignment "S1" 1 "D"; mkAssignment "S1" 2 "D";
     mkAssignment "S1" 0 "D"] /\
  next_staff (staff (instance_data st)) "S1" = Some (staff_S1 2) /\
  max_consecutive_shifts (staff_S1 2) = 2 /\
  works_run st "S1" 0 3 /\
  ~ run_bound_respected st.
Proof.
  intros st.
  assert (Hrun : works_run st "S1" 0 3).
  { intros i Hi.
    destruct i as [|[|[|i]]]; [ | | | lia].
    - exists (mkAssignment "S1" 0 "D"). repeat split.
      vm_compute. right. right. left.
    - exists (mkAssignment "S1" 1 "D"). repeat split. vm_compute. left.
    - exists (mkAssignment "S1" 2 "D"). repeat split.
      vm_compute. right. left. }
  split; [vm_compute; reflexivity|].
  split; [vm_compute; reflexivity|].
  split; [reflexivity|].
  split; [reflexivity|].
  split; [exact Hrun|].
  intros Hb.
  specialize (Hb "S1" (staff_S1 2) 0 3%nat eq_refl Hrun).
  vm_compute in Hb. apply Hb. reflexivity.
Qed.

(** C4. The succession check blocks the candidate exactly when the
    per-staff list is not empty, its trailing element is on the day before
    the candidate's and the shift of that element lists the candidate's
    shift id as forbidden after it; a candidate that reaches the check and
    is blocked by it is rejected by the predicate.  The verdict depends on
    the per-staff list through its trailing element only: two schedules
    with the same shift table whose per-staff lists end alike get the same
    verdict, whatever else the lists hold on the day before. *)
Theorem succession_check_uses_last (a : Assignment) (st : Schedule) :
  (succession_blocked a st = Ret true (sa_touch (staff_id a) st) <->
   exists l last_assignment sh,
     sa_get (staff_id a) st = l ++ [last_assignment] /\
     day last_assignment = day a - 1 /\
     shifts_dict st !! shift_id last_assignment = Some sh /\
     shift_id a ∈ forbidden_following sh) /\
  (forall st', succession_blocked a st = Ret true st' ->
               st' = sa_touch (staff_id a) st) /\
  (forall s,
      next_staff (staff (instance_data st)) (staff_id a) = Some s ->
      ~ on_day_off (instance_data st) a ->
      fst (quota_blocked s a st) = false ->
      succession_blocked a st = Ret true (sa_touch (staff_id a) st) ->
      is_valid_assignment a st = Ret false (sa_touch (staff_id a) st)) /\
  (forall st2,
      shifts_dict st2 = shifts_dict st ->
      last (sa_get (staff_id a) st2) = last (sa_get (staff_id a) st) ->
      verdict (succession_blocked a st2) = verdict (succession_blocked a st)).
Proof.
  assert (Hin : forall sh : Shift,
            existsb (String.eqb (shift_id a)) (forbidden_following sh) = true
            <-> shift_id a ∈ forbidden_following sh).
  { intros sh. rewrite existsb_exists. split.
    - intros (x & Hx & E). apply String.eqb_eq in E. subst x.
      now apply list_elem_of_In.
    - intros Hx. exists (shift_id a).
      split; [now apply list_elem_of_In | apply String.eqb_refl]. }
  split; [|split; [|split]].
  - unfold succession_blocked. split.
    + destruct (last (sa_get (staff_id a) st)) as [la|] eqn:El;
        [|discriminate].
      apply last_Some in El as [l El].
      destruct (day la =? day a - 1) eqn:Ed; [|discriminate].
      apply Z.eqb_eq in Ed.
      destruct (shifts_dict st !! shift_id la) as [sh|] eqn:Es;
        [|discriminate].
      intros [= Hb]. exists l, la, sh. repeat split; auto. now apply Hin.
    + intros (l & la & sh & El & Ed & Es & Hf).
      rewrite El, last_snoc. apply Z.eqb_eq in Ed. rewrite Ed, Es.
      apply Hin in Hf. now rewrite Hf.
  - intros st' Hs. pose proof (succession_final a st) as Hf.
    rewrite Hs in Hf. exact Hf.
  - intros s Hs Hoff Hq Hb. apply day_off_false in Hoff.
    unfold is_valid_assignment. rewrite Hs, Hoff.
    pose proof (quota_blocked_state s a st) as Hst.
    destruct (quota_blocked s a st) as [blocked st1]. simpl in Hq, Hst.
    subst blocked.
    destruct Hst as [-> | ->].
    + now rewrite Hb.
    + rewrite succession_touch, Hb, touch_idem. reflexivity.
  - intros st2 Hd Hl. unfold succession_blocked. rewrite Hd, Hl.
    destruct (last (sa_get (staff_id a) st)) as [la|]; [|reflexivity].
    destruct (day la =? day a - 1); [|reflexivity].
    destruct (shifts_dict st !! shift_id la); reflexivity.
Qed.

Lemma succession_check_uses_last_witness :
  let a := mkAssignment "S1" 1 "E" in
  let st := commit (mkAssignment "S1" 0 "L") (init scenario_succession) in
  is_valid_assignment a st = Ret false st /\
  sa_get "S1" schedule_two_on_day0 =
    [mkAssignment "S1" 0 "L"; mkAssignment "S1" 0 "D"] /\
  verdict (succession_blocked a schedule_two_on_day0) = inr false.
Proof.
  intros a st. split; [|split; [reflexivity|]].
  - apply (proj1 (proj2 (proj2 (succession_check_uses_last a st)))
             (staff_S1 5));
      [reflexivity | unfold on_day_off; vm_compute; inversion 1
      | reflexivity | reflexivity].
  - apply (proj2 (proj2 (proj2
             (succession_check_uses_last a
                (commit (mkAssignment "S1" 0 "D")
                   (init (mkInstance 2
                      [shift_D; mkShift "E" 480 []; mkShift "L" 480 ["E"]]
                      [staff_S1 5] ∅ []))))))
             schedule_two_on_day0); reflexivity.
Defined.

(** C5, as amended.  Every commit appends the assignment to the flat list,
    to the list of its staff id and to the list of its (day, shift) key.
    In every schedule reachable by greedy fill the length of the flat list
    equals the sum of the lengths of the per-staff lists and the sum of the
    lengths of the per-(day, shift) lists; each index list is the flat list
    restricted to its key, so an assignment occurs in the list of its own
    key as often as in the flat list and in no list of another key.  The
    schedules reachable by greedy fill include the schedule after each
    commit of a run and the schedule the run ends in, whether the run
    starts on the fresh schedule or on the schedule an earlier run left;
    the flat lists of the schedules after the commits are the flat list at
    the start with the committed assignments appended one by one.  The
    agreement holds in the fresh schedule and is kept by every call of the
    predicate, every commit and every run, from any schedule in which it
    holds.  In a run that starts on the fresh schedule of an instance whose
    staff ids are pairwise distinct and whose cover rows have pairwise
    distinct (day, shift) keys, an assignment of the schedule after any
    commit, and of the schedule the run ends in, occurs exactly once in all
    three. *)
Theorem index_consistency (inst : Instance) :
  reachable inst (final (greedy_schedule (init inst))) /\
  (forall a st,
      assignments (commit a st) = assignments st ++ [a] /\
      sa_get (staff_id a) (commit a st) = sa_get (staff_id a) st ++ [a] /\
      ds_get (key_of a) (commit a st) = ds_get (key_of a) st ++ [a]) /\
  (forall st,
      reachable inst st ->
      length (assignments st) = sum_lens (staff_assignments st) /\
      length (assignments st) = sum_lens (day_shift_assignments st) /\
      (forall sid, sa_get sid st = by_staff sid (assignments st)) /\
      (forall key, ds_get key st = by_day_shift key (assignments st)) /\
      (forall a,
          count_occ Assignment_eq_dec (sa_get (staff_id a) st) a =
            count_occ Assignment_eq_dec (assignments st) a /\
          count_occ Assignment_eq_dec (ds_get (key_of a) st) a =
            count_occ Assignment_eq_dec (assignments st) a) /\
      (forall a sid,
          a ∈ sa_get sid st -> sid = staff_id a /\ a ∈ assignments st) /\
      (forall a key,
          a ∈ ds_get key st -> key = key_of a /\ a ∈ assignments st)) /\
  (NoDup (map id (staff inst)) ->
   NoDup (map key_of_cover (cover_requirements inst)) ->
   forall st,
     st ∈ greedy_commits (init inst) \/
     st = final (greedy_schedule (init inst)) ->
     forall a,
       a ∈ assignments st ->
       count_occ Assignment_eq_dec (assignments st) a = 1%nat /\
       count_occ Assignment_eq_dec (sa_get (staff_id a) st) a = 1%nat /\
       count_occ Assignment_eq_dec (ds_get (key_of a) st) a = 1%nat) /\
  (forall st,
      reachable inst st ->
      reachable inst (final (greedy_schedule st)) /\
      (forall st', st' ∈ greedy_commits st -> reachable inst st')) /\
  (forall st,
      exists added,
        assignments (final (greedy_schedule st)) = assignments st ++ added /\
        map assignments (greedy_commits st) =
          prefixes_from (assignments st) added) /\
  (consistent (init inst) /\
   forall st,
     consistent st ->
     (forall a, consistent (final (is_valid_assignment a st)) /\
                consistent (commit a st)) /\
     consistent (final (greedy_schedule st)) /\
     (forall st', st' ∈ greedy_commits st -> consistent st')).
Proof.
  assert (Hall : forall st, reachable inst st ->
            (forall a,
              count_occ Assignment_eq_dec (sa_get (staff_id a) st) a =
                count_occ Assignment_eq_dec (assignments st) a /\
              count_occ Assignment_eq_dec (ds_get (key_of a) st) a =
                count_occ Assignment_eq_dec (assignments st) a)).
  { intros st Hst a.
    destruct (reachable_consistent inst st Hst) as [H1 H2 _ _].
    rewrite H1, H2. unfold by_staff, by_day_shift.
    rewrite (count_occ_filter_key staff_id).
    rewrite (count_occ_filter_key key_of).
    repeat case_decide; try contradiction. auto. }
  split; [apply greedy_reachable, reach_init|].
  split; [intros a st; apply commit_lock_step|].
  split; [|split; [|split; [|split]]].
  - intros st Hst.
    destruct (reachable_consistent inst st Hst) as [H1 H2 H3 H4].
    repeat split; auto; try apply Hall; auto.
    + rewrite H1 in H. apply list_elem_of_filter in H as [E _]. now symmetry.
    + rewrite H1 in H. now apply list_elem_of_filter in H as [_ E].
    + rewrite H2 in H. apply list_elem_of_filter in H as [E _]. now symmetry.
    + rewrite H2 in H. now apply list_elem_of_filter in H as [_ E].
  - intros Hids Hkeys st Hrun a Ha.
    pose proof (greedy_nodup inst Hids Hkeys) as Hnd.
    assert (Hst : reachable inst st /\ NoDup (assignments st)).
    { destruct Hrun as [Hin | ->].
      - split.
        + apply (greedy_commits_reachable inst (init inst));
            [apply reach_init | exact Hin].
        + destruct (greedy_commits_prefix _ _ Hin) as [rest E].
          rewrite E in Hnd. now apply NoDup_app in Hnd as [Hnd _].
      - split; [apply greedy_reachable, reach_init | exact Hnd]. }
    destruct Hst as [Hst Hnd'].
    destruct (Hall st Hst a) as [E1 E2]. rewrite E1, E2.
    assert (count_occ Assignment_eq_dec (assignments st) a = 1%nat).
    { apply NoDup_count_occ'.
      - now apply NoDup_ListNoDup.
      - now apply list_elem_of_In. }
    auto.
  - intros st Hst. split; [now apply greedy_reachable|].
    now apply greedy_commits_reachable.
  - intros st. apply fill_commits_spec.
  - split; [apply consistent_init|]. intros st Hc.
    split; [|apply fill_consistent, Hc].
    intros a. split; [now apply is_valid_consistent|].
    now apply consistent_commit.
Qed.

Lemma index_consistency_witness :
  let a := mkAssignment "S1" 0 "D" in
  let st := commit a (sa_touch "S1" (init scenario3)) in
  length (assignments st) = sum_lens (staff_assignments st) /\
  count_occ Assignment_eq_dec (sa_get "S1" st) a = 1%nat /\
  count_occ Assignment_eq_dec
    (assignments (final (greedy_schedule (init scenario3)))) a = 1%nat.
Proof.
  assert (Hids : NoDup (map id (staff scenario3)))
    by (vm_compute; repeat constructor; inversion 1).
  assert (Hkeys : NoDup (map key_of_cover (cover_requirements scenario3)))
    by (apply (bool_decide_unpack _); vm_compute; exact I).
  intros a st. split; [|split].
  - apply (proj1 (proj2 (proj2 (index_consistency scenario3))) st).
    apply (reach_commit scenario3 (staff_S1 2) (mkCover 0 "D" 1 10 1)
             (init scenario3));
      [apply reach_init | vm_compute; left | vm_compute; left
      | vm_compute; reflexivity].
  - apply (proj1 (proj2 (proj2 (proj2 (index_consistency scenario3))))
             Hids Hkeys st); [left; vm_compute; left | vm_compute; left].
  - apply (proj1 (proj2 (proj2 (proj2 (index_consistency scenario3))))
             Hids Hkeys (final (greedy_schedule (init scenario3))));
      [now right | vm_compute; left].
Defined.

(** C5 as stated fails on the instance with two cover rows for day 0 and
    shift D, asking for one and then for two: the only staff member is
    committed to (day 0, D) twice, so the assignment (S1, 0, D) occurs
    twice, not once, in each of the three structures. *)
Lemma assignment_committed_twice :
  let st := final (greedy_schedule (init scenario_twice)) in
  let a := mkAssignment "S1" 0 "D" in
  greedy_schedule (init scenario_twice) = Ret true st /\
  assignments st = [a; a] /\
  sa_get "S1" st = [a; a] /\
  ds_get (0, "D") st = [a; a] /\
  count_occ Assignment_eq_dec (assignments st) a = 2%nat /\
  ~ NoDup (assignments st).
Proof.
  repeat split; try (vm_compute; reflexivity).
  intros Hnd. vm_compute in Hnd.
  apply NoDup_cons in Hnd as [Hin _]. apply Hin. left.
Qed.

(** The run has to start on a fresh schedule: with one staff member and a
    cover row that asks for two, the first run commits (S1, 0, D) and
    returns false, and a second run on the schedule it left commits
    (S1, 0, D) again. *)
Lemma second_run_commits_again :
  let a := mkAssignment "S1" 0 "D" in
  let st1 := final (greedy_schedule (init scenario_two_needed)) in
  NoDup (map id (staff scenario_two_needed)) /\
  NoDup (map key_of_cover (cover_requirements scenario_two_needed)) /\
  greedy_schedule (init scenario_two_needed) = Ret false st1 /\
  assignments st1 = [a] /\
  verdict (greedy_schedule st1) = inr true /\
  assignments (final (greedy_schedule st1)) = [a; a].
Proof.
  intros a st1. split; [|split].
  - vm_compute. repeat constructor. inversion 1.
  - vm_compute. repeat constructor. inversion 1.
  - repeat split; vm_compute; reflexivity.
Qed.

(** C6. The three-day scenario: one staff member S1 (no quotas, at most 2
    consecutive shifts, no days off), one shift D, requirements for one D on
    each of the days 0, 1 and 2 with equal weights.  The run returns false
    with exactly the two assignments (S1, 0, D) and (S1, 1, D); in that
    schedule the day-2 candidate passes the day-off, quota and succession
    checks and is stopped by the consecutive-run check, and the day-2
    requirement has no assignment. *)
Theorem scenario_three_days :
  exists st,
    greedy_schedule (init scenario3) = Ret false st /\
    assignments st = [mkAssignment "S1" 0 "D"; mkAssignment "S1" 1 "D"] /\
    length (assignments st) = 2%nat /\
    ds_get (2, "D") st = [] /\
    (let a := mkAssignment "S1" 2 "D" in
     day_off a st = false /\
     fst (quota_blocked (staff_S1 2) a st) = false /\
     succession_blocked a st = Ret false st /\
     run_blocked (staff_S1 2) a st = true /\
     is_valid_assignment a st = Ret false st).
Proof.
  eexists. split; [vm_compute; reflexivity|].
  repeat split; vm_compute; reflexivity.
Qed.

(** C7, as amended.  The quota check blocks a candidate exactly when its
    staff entry has a cap for the candidate's shift id and the number of
    assignments of that shift id under the candidate's staff id has reached
    the cap (a shift id without a cap is never blocked), and a blocked
    candidate is rejected.  Consequently, in every schedule reachable by
    greedy fill and for the staff entry the engine finds under an id (the
    first entry of the staff list with that id), the number of committed
    assignments of a capped shift id never exceeds the cap when the cap is
    not negative, and is zero when it is negative; when the staff ids are
    pairwise distinct this holds for every staff entry. *)
Theorem quota_respected (inst : Instance) :
  (forall s a st,
      fst (quota_blocked s a st) = true <->
      exists cap,
        shift_limits s !! shift_id a = Some cap /\
        cap <= count_shift (shift_id a) (sa_get (staff_id a) st)) /\
  (forall s a st,
      shift_limits s !! shift_id a = None ->
      fst (quota_blocked s a st) = false) /\
  (forall s a st,
      next_staff (staff (instance_data st)) (staff_id a) = Some s ->
      ~ on_day_off (instance_data st) a ->
      fst (quota_blocked s a st) = true ->
      is_valid_assignment a st = Ret false (sa_touch (staff_id a) st)) /\
  (forall st sid s sh cap,
      reachable inst st ->
      next_staff (staff inst) sid = Some s ->
      shift_limits s !! sh = Some cap ->
      let n := count_shift sh (by_staff sid (assignments st)) in
      n = count_shift sh (sa_get sid st) /\
      (0 <= cap -> n <= cap) /\ (cap < 0 -> n = 0)) /\
  reachable inst (final (greedy_schedule (init inst))) /\
  (NoDup (map id (staff inst)) ->
   forall st s sh cap,
     reachable inst st ->
     s ∈ staff inst ->
     shift_limits s !! sh = Some cap ->
     let n := count_shift sh (by_staff (id s) (assignments st)) in
     (0 <= cap -> n <= cap) /\ (cap < 0 -> n = 0)).
Proof.
  assert (Hfound : forall st sid s sh cap,
            reachable inst st ->
            next_staff (staff inst) sid = Some s ->
            shift_limits s !! sh = Some cap ->
            let n := count_shift sh (by_staff sid (assignments st)) in
            n = count_shift sh (sa_get sid st) /\
            (0 <= cap -> n <= cap) /\ (cap < 0 -> n = 0)).
  { intros st sid s sh cap Hst Hs Hcap n. subst n.
    rewrite <- (cons_staff st (reachable_consistent inst st Hst)).
    pose proof (reachable_quota inst st Hst sid s sh cap Hs Hcap).
    pose proof (count_shift_nonneg sh (sa_get sid st)).
    repeat split; lia. }
  split; [|split; [|split; [|split; [|split]]]].
  - intros s a st. unfold quota_blocked.
    destruct (shift_limits s !! shift_id a) as [cap|]; simpl.
    + rewrite Z.leb_le. split; [eauto|]. now intros (c & [= <-] & Hc).
    + split; [discriminate|]. now intros (c & Hc & _).
  - intros s a st Hnone. unfold quota_blocked. now rewrite Hnone.
  - intros s a st Hs Hoff Hq. apply day_off_false in Hoff.
    unfold is_valid_assignment. rewrite Hs, Hoff.
    unfold quota_blocked in *.
    destruct (shift_limits s !! shift_id a) as [cap|]; simpl in *;
      [|discriminate].
    now rewrite Hq.
  - exact Hfound.
  - apply greedy_reachable, reach_init.
  - intros Hids st s sh cap Hst Hs Hcap.
    apply (Hfound st (id s) s sh cap Hst); [|exact Hcap].
    now apply next_staff_unique.
Qed.

Lemma quota_respected_witness :
  let st := commit (mkAssignment "S1" 0 "D")
              (sa_touch "S1" (init scenario_cap)) in
  count_shift "D" (by_staff "S1" (assignments st)) <= 1 /\
  is_valid_assignment (mkAssignment "S1" 2 "D") st = Ret false st /\
  count_shift "D"
    (by_staff "S1"
       (assignments (final (greedy_schedule (init scenario_cap))))) <= 1.
Proof.
  set (s := mkStaff "S1" {["D" := 1]} 10 1000 0 2 1 1 None).
  intros st. split; [|split].
  - apply (proj1 (proj2 (proj2 (proj2 (quota_respected scenario_cap))))
             st "S1" s "D" 1); [ | reflexivity | reflexivity | lia].
    apply (reach_commit scenario_cap s (mkCover 0 "D" 1 10 1)
             (init scenario_cap));
      [apply reach_init | vm_compute; left | vm_compute; left
      | vm_compute; reflexivity].
  - apply (proj1 (proj2 (proj2 (quota_respected scenario_cap)))
             s (mkAssignment "S1" 2 "D") st);
      [reflexivity | unfold on_day_off; vm_compute; inversion 1
      | vm_compute; reflexivity].
  - apply (proj2 (proj2 (proj2 (proj2 (proj2 (quota_respected scenario_cap)))))
             ltac:(vm_compute; repeat constructor; inversion 1)
             (final (greedy_schedule (init scenario_cap))) s "D" 1);
      [apply greedy_reachable, reach_init | vm_compute; left | reflexivity
      | lia].
Defined.

(** C7 as stated fails for a negative cap: the run on the instance whose
    only staff member has cap -1 for shift D commits nothing, and the
    count 0 of that capped pair exceeds the cap. *)
Lemma quota_negative_cap_exceeded :
  let inst := scenario_negative_cap in
  let st := final (greedy_schedule (init inst)) in
  exists s,
    s ∈ staff inst /\
    next_staff (staff inst) "S1" = Some s /\
    shift_limits s !! "D" = Some (-1) /\
    reachable inst st /\
    ~ (count_shift "D" (by_staff "S1" (assignments st)) <= -1).
Proof.
  intros inst st.
  exists (mkStaff "S1" {["D" := -1]} 10 1000 0 2 1 1 None).
  repeat split.
  - left.
  - apply greedy_reachable, reach_init.
  - vm_compute. intros H. apply H. reflexivity.
Qed.

(** The staff entry has to be the one the engine finds under the id: of
    two entries with the id S1 the engine reads the first, which has no
    cap, and commits (S1, 0, D) although the second entry caps shift D at
    zero. *)
Lemma quota_duplicate_id_exceeded :
  let inst := scenario_duplicate_id in
  let st := final (greedy_schedule (init inst)) in
  exists s,
    s ∈ staff inst /\
    id s = "S1" /\
    shift_limits s !! "D" = Some 0 /\
    next_staff (staff inst) "S1" <> Some s /\
    reachable inst st /\
    assignments st = [mkAssignment "S1" 0 "D"] /\
    ~ (count_shift "D" (by_staff (id s) (assignments st)) <= 0).
Proof.
  intros inst st.
  exists (mkStaff "S1" {["D" := 0]} 10 1000 0 2 1 1 None).
  split; [right; left|]. split; [reflexivity|]. split; [reflexivity|].
  split; [vm_compute; discriminate|].
  split; [apply greedy_reachable, reach_init|].
  split; [vm_compute; reflexivity|].
  vm_compute. intros H. apply H. reflexivity.
Qed.

(** C8. The predicate returns false, leaving the schedule as it was,
    whenever the candidate's day is one of the days off of the candidate's
    staff member, and it never accepts such a candidate; consequently no
    assignment of a schedule reachable by greedy fill, in particular of the
    schedule a run from the fresh schedule ends in, falls on a day off of
    its staff member. *)
Theorem days_off_exclusion (inst : Instance) :
  (forall a st s,
      next_staff (staff (instance_data st)) (staff_id a) = Some s ->
      on_day_off (instance_data st) a ->
      is_valid_assignment a st = Ret false st) /\
  (forall a st st',
      on_day_off (instance_data st) a ->
      is_valid_assignment a st <> Ret true st') /\
  (forall st a,
      reachable inst st -> a ∈ assignments st -> ~ on_day_off inst a) /\
  (forall a,
      a ∈ assignments (final (greedy_schedule (init inst))) ->
      ~ on_day_off inst a).
Proof.
  repeat split.
  - intros a st s Hs Hoff. apply day_off_true in Hoff.
    unfold is_valid_assignment. rewrite Hs, Hoff. reflexivity.
  - intros a st st' Hoff Hv.
    apply is_valid_true in Hv as (_ & s & _ & Hf & _).
    apply day_off_false in Hf. contradiction.
  - intros st a Hst. now apply reachable_days_off.
  - apply reachable_days_off, greedy_reachable, reach_init.
Qed.

Lemma days_off_exclusion_witness :
  on_day_off scenario_off (mkAssignment "S1" 0 "D") /\
  is_valid_assignment (mkAssignment "S1" 0 "D") (init scenario_off) =
    Ret false (init scenario_off) /\
  ~ on_day_off scenario_off (mkAssignment "S1" 1 "D").
Proof.
  assert (Hoff : on_day_off scenario_off (mkAssignment "S1" 0 "D"))
    by (unfold on_day_off; vm_compute; left).
  split; [exact Hoff|]. split.
  - apply (proj1 (days_off_exclusion scenario_off) _ _ (staff_S1 2));
      [reflexivity | exact Hoff].
  - apply (proj1 (proj2 (proj2 (days_off_exclusion scenario_off)))
             (commit (mkAssignment "S1" 1 "D")
                (sa_touch "S1" (init scenario_off)))).
    + apply (reach_commit scenario_off (staff_S1 2) (mkCover 1 "D" 1 5 1)
               (init scenario_off));
        [apply reach_init | vm_compute; left | vm_compute; right; left
        | vm_compute; reflexivity].
    + vm_compute. left.
Defined.

(** C9, as amended.  On a dictionary that holds the [staff] and [days_off]
    keys, with the candidate's staff id in the staff list and the shift ids
    of its staff member's assignments in the shift table, the predicate
    returns a boolean and raises nothing, and leaves the assignments as
    they were.  In the staff loop a rejected candidate is dropped and the
    loop goes on with the next staff member, the needed count and the
    assignments unchanged.  On a dictionary that holds the [shifts],
    [staff], [days_off] and [cover_requirements] keys, a run of greedy fill
    from the fresh schedule whose committed assignments all have their
    shift id in the shift table (which is the case when every cover row
    has) returns a boolean together with the schedule built so far.  On a
    dictionary without the [days_off] key the predicate raises [KeyError]
    for every candidate whose staff id is in the staff list. *)
Theorem no_exception_on_rejection :
  (forall a st staff_list offs,
      l_staff (d_instance_data st) = Some staff_list ->
      l_days_off (d_instance_data st) = Some offs ->
      staff_id a ∈ map id staff_list ->
      (forall b, b ∈ dict_sa_get (staff_id a) st ->
                 is_Some (d_shifts_dict st !! shift_id b)) ->
      exists ok st',
        dict_is_valid_assignment a st = DRet ok st' /\
        d_assignments st' = d_assignments st) /\
  (forall dy sh s rest needed st st',
      0 < needed ->
      dict_is_valid_assignment (mkAssignment (id s) dy sh) st =
        DRet false st' ->
      d_assignments st' = d_assignments st /\
      dict_try_staff dy sh (s :: rest) needed st =
        dict_try_staff dy sh rest needed st') /\
  (forall d st0 staff_list offs cover,
      dict_init d = inr st0 ->
      l_staff d = Some staff_list ->
      l_days_off d = Some offs ->
      l_cover_requirements d = Some cover ->
      (forall b,
          b ∈ d_assignments (dict_final (dict_greedy_schedule st0)) ->
          is_Some (d_shifts_dict st0 !! shift_id b)) ->
      exists ok st, dict_greedy_schedule st0 = DRet ok st) /\
  (forall d shift_list staff_list offs cover,
      l_shifts d = Some shift_list ->
      l_staff d = Some staff_list ->
      l_days_off d = Some offs ->
      l_cover_requirements d = Some cover ->
      (forall r, r ∈ cover ->
                 is_Some (make_shifts_dict shift_list !! c_shift_id r)) ->
      exists st0 ok st,
        dict_init d = inr st0 /\ dict_greedy_schedule st0 = DRet ok st) /\
  (forall a st staff_list,
      l_staff (d_instance_data st) = Some staff_list ->
      staff_id a ∈ map id staff_list ->
      l_days_off (d_instance_data st) = None ->
      dict_is_valid_assignment a st = DRaise KeyError st).
Proof.
  assert (Hpred : forall a st staff_list offs,
            l_staff (d_instance_data st) = Some staff_list ->
            l_days_off (d_instance_data st) = Some offs ->
            exists o,
              dict_is_valid_assignment a st =
                on_dict_outcome (d_instance_data st) o /\
              o = is_valid_assignment a
                    (on_instance (mkInstance 0 [] staff_list offs []) st)).
  { intros a st staff_list offs Hs Ho. eexists. split; [|reflexivity].
    rewrite <- (on_dict_is_valid (d_instance_data st) a
                  (on_instance (mkInstance 0 [] staff_list offs []) st));
      [|split; assumption].
    now rewrite on_dict_on_instance. }
  assert (Hrun : forall d st0 staff_list offs cover,
            dict_init d = inr st0 ->
            l_staff d = Some staff_list ->
            l_days_off d = Some offs ->
            l_cover_requirements d = Some cover ->
            exists shift_list inst,
              l_shifts d = Some shift_list /\
              inst = mkInstance 0 shift_list staff_list offs cover /\
              st0 = on_dict d (init inst) /\
              dict_greedy_schedule st0 =
                on_dict_outcome d (greedy_schedule (init inst))).
  { intros d st0 staff_list offs cover Hi Hs Ho Hc.
    unfold dict_init in Hi.
    destruct (l_shifts d) as [shift_list|] eqn:Hsh; [|discriminate].
    injection Hi as <-.
    exists shift_list, (mkInstance 0 shift_list staff_list offs cover).
    split; [reflexivity|]. split; [reflexivity|]. split; [reflexivity|].
    apply (on_dict_greedy d
             (init (mkInstance 0 shift_list staff_list offs cover)));
      [split; assumption | assumption]. }
  split; [|split; [|split; [|split]]].
  - intros a st staff_list offs Hs Ho Hid Hknown.
    destruct (Hpred a st staff_list offs Hs Ho) as (o & Hd & Eo).
    set (ist := on_instance (mkInstance 0 [] staff_list offs []) st) in *.
    pose proof (final_assignments a ist) as Ea. rewrite <- Eo in Ea.
    destruct o as [ok st'|e st'].
    + exists ok, (on_dict (d_instance_data st) st'). split; [exact Hd|].
      exact Ea.
    + exfalso. symmetry in Eo.
      apply is_valid_raise in Eo as [[_ Hnone] | [_ (b & Hb & Hk)]].
      * destruct (next_staff_Some _ _ Hid) as [x Hx]. simpl in Hnone.
        congruence.
      * apply last_Some_elem_of in Hb. destruct (Hknown b Hb) as [x Hx].
        simpl in Hk. congruence.
  - intros dy sh s rest needed st st' Hn Hv. split.
    + revert Hv. unfold dict_is_valid_assignment.
      destruct (l_staff (d_instance_data st)) as [staff_list|] eqn:Hs;
        [|discriminate].
      destruct (l_days_off (d_instance_data st)) as [offs|] eqn:Ho.
      * intros Hv.
        destruct (Hpred (mkAssignment (id s) dy sh) st staff_list offs Hs Ho)
          as (o & Hd & Eo).
        unfold dict_is_valid_assignment in Hd. rewrite Hs, Ho in Hd.
        rewrite Hd in Hv.
        pose proof (final_assignments (mkAssignment (id s) dy sh)
                      (on_instance (mkInstance 0 [] staff_list offs []) st))
          as Ea.
        rewrite <- Eo in Ea. destruct o as [ok st1|e st1]; [|discriminate].
        injection Hv as _ <-. exact Ea.
      * destruct (next_staff staff_list _); discriminate.
    + simpl. destruct (needed <=? 0) eqn:E; [apply Z.leb_le in E; lia|].
      now rewrite Hv.
  - intros d st0 staff_list offs cover Hi Hs Ho Hc Hknown.
    destruct (Hrun d st0 staff_list offs cover Hi Hs Ho Hc)
      as (shift_list & inst & Hsh & -> & -> & Hg).
    set (inst := mkInstance 0 shift_list staff_list offs cover) in *.
    destruct (greedy_returns inst) as (ok & st & Hr).
    + intros b Hb. apply Hknown. rewrite Hg.
      destruct (greedy_schedule (init inst)); exact Hb.
    + exists ok, (on_dict d st). now rewrite Hg, Hr.
  - intros d shift_list staff_list offs cover Hsh Hs Ho Hc Hcover.
    set (inst := mkInstance 0 shift_list staff_list offs cover).
    exists (on_dict d (init inst)).
    destruct (Hrun d (on_dict d (init inst)) staff_list offs cover)
      as (shift_list' & inst' & Hsh' & -> & _ & Hg); auto.
    { now apply on_dict_init. }
    assert (shift_list' = shift_list) by congruence. subst shift_list'.
    fold inst in Hg.
    destruct (greedy_returns inst) as (ok & st & Hr).
    + intros b Hb.
      destruct (reachable_origin inst _
                  (greedy_reachable inst _ (reach_init inst)) b Hb)
        as (s & r & _ & Hr & ->).
      simpl. now apply Hcover.
    + exists ok, (on_dict d st). split; [now apply on_dict_init|].
      now rewrite Hg, Hr.
  - intros a st staff_list Hs Hid Ho. unfold dict_is_valid_assignment.
    rewrite Hs. destruct (next_staff_Some _ _ Hid) as [x Hx].
    now rewrite Hx, Ho.
Qed.

Lemma no_exception_on_rejection_witness :
  (exists ok st',
      dict_is_valid_assignment (mkAssignment "S1" 2 "D")
        (on_dict dict_scenario3 (final (greedy_schedule (init scenario3)))) =
        DRet ok st' /\
      d_assignments st' =
        [mkAssignment "S1" 0 "D"; mkAssignment "S1" 1 "D"]) /\
  (exists st0 ok st,
      dict_init dict_scenario3 = inr st0 /\
      dict_greedy_schedule st0 = DRet ok st).
Proof.
  split.
  - apply (proj1 no_exception_on_rejection
             (mkAssignment "S1" 2 "D")
             (on_dict dict_scenario3 (final (greedy_schedule (init scenario3))))
             [staff_S1 2] ∅); [reflexivity | reflexivity | vm_compute; left|].
    intros b Hb. vm_compute in Hb.
    apply elem_of_cons in Hb as [-> | Hb];
      [|apply elem_of_cons in Hb as [-> | Hb]; [|inversion Hb]];
      vm_compute; eauto.
  - apply (proj1 (proj2 (proj2 (proj2 no_exception_on_rejection)))
             dict_scenario3 [shift_D] [staff_S1 2] ∅
             [mkCover 0 "D" 1 10 1; mkCover 1 "D" 1 10 1; mkCover 2 "D" 1 10 1]);
      try reflexivity.
    intros r Hr.
    repeat (apply elem_of_cons in Hr as [-> | Hr]; [vm_compute; eauto|]).
    inversion Hr.
Defined.

(** C9 as stated fails on a dictionary without the [days_off] key, which is
    what the loader returns for a file without a DAYS_OFF section.  The
    staff id S1 of the candidate is in the staff list and no assignment
    exists yet, and the predicate raises [KeyError] on line 33; so does the
    run, at its first candidate, with nothing committed. *)
Lemma days_off_key_missing_raises :
  let d := dict_without_days_off in
  let a := mkAssignment "S1" 0 "D" in
  read_instance decimal_int file_without_days_off = Done d /\
  exists st0,
    dict_init d = inr st0 /\
    l_staff d = Some [staff_S1 2] /\
    staff_id a ∈ map id [staff_S1 2] /\
    d_assignments st0 = [] /\
    is_Some (d_shifts_dict st0 !! shift_id a) /\
    dict_verdict (dict_is_valid_assignment a st0) = inl KeyError /\
    dict_verdict (dict_greedy_schedule st0) = inl KeyError /\
    d_assignments (dict_final (dict_greedy_schedule st0)) = [].
Proof.
  intros d a. split; [vm_compute; reflexivity|].
  eexists. split; [reflexivity|].
  split; [reflexivity|]. split; [vm_compute; left|].
  split; [reflexivity|]. split; [vm_compute; eauto|].
  repeat split; vm_compute; reflexivity.
Qed.

(** The condition on the shift ids is needed: with a cover row for a
    shift X that the table lacks, (S1, 0, X) is committed, and the check of
    the day-1 candidate looks X up and raises. *)
Lemma unknown_shift_raises :
  verdict (greedy_schedule (init scenario_unknown_shift)) = inl KeyError /\
  assignments (final (greedy_schedule (init scenario_unknown_shift))) =
    [mkAssignment "S1" 0 "X"].
Proof. split; vm_compute; reflexivity. Qed.

(** C10. The predicate and greedy fill read of a staff entry only its id,
    its quota mapping and its maximum-consecutive-shifts limit.  For two
    instances that differ at most in [max_shifts], the total-minutes
    bounds, [min_consecutive_shifts], [min_consecutive_days_off] and
    [max_weekends] of their staff entries, the predicate gives the same
    verdict on every candidate in every schedule, and greedy fill gives the
    same result, the same sequence of assignments and the same indexes.  In
    particular a staff member can get more assignments than [max_shifts]:
    S1 with [max_shifts] 1 gets two. *)
Theorem inert_fields_ignored :
  (forall i1 i2 a st,
      instance_agree i1 i2 ->
      verdict (is_valid_assignment a (with_instance i1 st)) =
      verdict (is_valid_assignment a (with_instance i2 st))) /\
  (forall i1 i2,
      instance_agree i1 i2 ->
      let o1 := greedy_schedule (init i1) in
      let o2 := greedy_schedule (init i2) in
      verdict o1 = verdict o2 /\
      assignments (final o1) = assignments (final o2) /\
      staff_assignments (final o1) = staff_assignments (final o2) /\
      day_shift_assignments (final o1) = day_shift_assignments (final o2)) /\
  (exists s st,
      greedy_schedule (init scenario_max_shifts) = Ret true st /\
      s ∈ staff scenario_max_shifts /\
      max_shifts s = 1 /\
      length (by_staff (id s) (assignments st)) = 2%nat).
Proof.
  split; [|split].
  - intros i1 i2 a st Hag. apply instance_agree_forget in Hag.
    rewrite <- (verdict_outcome_map forget (is_valid_assignment a (with_instance i1 st))).
    rewrite <- (verdict_outcome_map forget (is_valid_assignment a (with_instance i2 st))).
    rewrite <- !is_valid_forget. unfold forget, with_instance. simpl.
    now rewrite Hag.
  - intros i1 i2 Hag o1 o2. pose proof Hag as (_ & Hs & _).
    apply instance_agree_forget in Hag.
    assert (E : outcome_map forget o1 = outcome_map forget o2).
    { unfold o1, o2. rewrite <- !greedy_forget.
      unfold forget, init. simpl. now rewrite Hag, Hs. }
    split; [|split; [|split]].
    + rewrite <- (verdict_outcome_map forget o1), E.
      apply verdict_outcome_map.
    + change (assignments (forget (final o1)) =
              assignments (forget (final o2))).
      now rewrite <- !final_outcome_map, E.
    + change (staff_assignments (forget (final o1)) =
              staff_assignments (forget (final o2))).
      now rewrite <- !final_outcome_map, E.
    + change (day_shift_assignments (forget (final o1)) =
              day_shift_assignments (forget (final o2))).
      now rewrite <- !final_outcome_map, E.
  - eexists. eexists. split; [vm_compute; reflexivity|].
    split; [left|]. split; reflexivity.
Qed.

Lemma inert_fields_ignored_witness :
  verdict (greedy_schedule (init scenario_max_shifts)) =
  verdict (greedy_schedule (init
    (mkInstance 3 [shift_D] [mkStaff "S1" ∅ 7 9000 60 5 2 3 None] ∅
       [mkCover 0 "D" 1 10 1; mkCover 2 "D" 1 10 1]))).
Proof.
  apply (proj1 (proj2 inert_fields_ignored)).
  repeat split. repeat constructor.
Defined.

(** * Further properties of the engine *)

(** ** Coverage *)

Lemma final_ds_get a key st :
  ds_get key (final (is_valid_assignment a st)) = ds_get key st.
Proof.
  destruct (is_valid_final a st) as [-> | ->];
    [reflexivity | apply touch_ds_get].
Qed.

(** What one pass over the staff list does to the (day, shift) index: only
    the key of the requirement changes, by the number of commits, which is
    what [needed] went down by. *)
Lemma try_staff_coverage d sh l needed st :
  let st' := final (try_staff d sh l needed st) in
  (forall key, key <> (d, sh) -> ds_get key st' = ds_get key st) /\
  Z.of_nat (length (ds_get (d, sh) st)) <=
    Z.of_nat (length (ds_get (d, sh) st')) /\
  Z.of_nat (length (ds_get (d, sh) st')) <=
    Z.of_nat (length (ds_get (d, sh) st)) + Z.max 0 needed /\
  (forall n st'',
      try_staff d sh l needed st = Ret n st'' ->
      Z.of_nat (length (ds_get (d, sh) st'')) =
        Z.of_nat (length (ds_get (d, sh) st)) + (needed - n) /\
      (0 <= needed -> 0 <= n)).
Proof.
  revert needed st. induction l as [|s rest IH]; intros needed st; simpl.
  { split; [auto|]. split; [lia|]. split; [lia|].
    intros n st'' [= <- <-]. lia. }
  destruct (needed <=? 0) eqn:En.
  { simpl. split; [auto|]. split; [lia|]. split; [lia|].
    intros n st'' [= <- <-]. lia. }
  apply Z.leb_gt in En.
  set (a := mkAssignment (id s) d sh).
  pose proof (fun key => final_ds_get a key st) as Ef.
  destruct (is_valid_assignment a st) as [[|] st1|e st1]; simpl in Ef.
  - destruct (IH (needed - 1) (commit a st1)) as (H1 & H2 & H3 & H4).
    assert (Hc : Z.of_nat (length (ds_get (d, sh) (commit a st1))) =
                 Z.of_nat (length (ds_get (d, sh) st)) + 1).
    { rewrite commit_ds_get. simpl. case_decide; [|contradiction].
      rewrite length_app, Ef. simpl. lia. }
    split; [|split; [lia|split; [lia|]]].
    + intros key Hk. rewrite (H1 key Hk), commit_ds_get. simpl.
      case_decide; [congruence | apply Ef].
    + intros n st'' Ht. destruct (H4 n st'' Ht). lia.
  - destruct (IH needed st1) as (H1 & H2 & H3 & H4). rewrite Ef in *.
    split; [|split; [lia|split; [lia|]]].
    + intros key Hk. rewrite (H1 key Hk). apply Ef.
    + intros n st'' Ht. destruct (H4 n st'' Ht). lia.
  - simpl. rewrite Ef. split; [|split; [lia|split; [lia|discriminate]]].
    intros key _. apply Ef.
Qed.

Lemma try_staff_ds_mono d sh l needed st key :
  (length (ds_get key st) <=
   length (ds_get key (final (try_staff d sh l needed st))))%nat.
Proof.
  destruct (try_staff_coverage d sh l needed st) as (H1 & H2 & _).
  destruct (decide (key = (d, sh))) as [-> | Hk]; [lia|].
  rewrite (H1 key Hk). lia.
Qed.

Lemma fill_ds_mono reqs st key :
  (length (ds_get key st) <= length (ds_get key (final (fill reqs st))))%nat.
Proof.
  revert st. induction reqs as [|r rest IH]; intros st; simpl; [lia|].
  destruct (_ <=? 0); [apply IH|].
  pose proof (try_staff_ds_mono (c_day r) (c_shift_id r)
                (staff (instance_data st))
                (requirement r -
                 Z.of_nat (length (ds_get (c_day r, c_shift_id r) st)))
                st key) as Hm.
  destruct (try_staff _ _ _ _ _) as [n st1|e st1]; simpl in Hm; [|exact Hm].
  destruct (0 <? n); [exact Hm|]. specialize (IH st1). lia.
Qed.

Lemma fill_true_covered reqs st st' :
  fill reqs st = Ret true st' -> forall r, r ∈ reqs -> covered st' r.
Proof.
  revert st. induction reqs as [|r rest IH]; intros st Hf x Hx; simpl in Hf.
  { inversion Hx. }
  assert (Hstep : forall st1,
             covered st1 r -> fill rest st1 = Ret true st' -> covered st' x).
  { intros st1 Hc Hrest. apply elem_of_cons in Hx as [-> | Hx].
    - pose proof (fill_ds_mono rest st1 (key_of_cover r)) as Hm.
      rewrite Hrest in Hm. simpl in Hm. unfold covered in *. lia.
    - exact (IH st1 Hrest x Hx). }
  destruct (_ <=? 0) eqn:En.
  { apply Z.leb_le in En. apply (Hstep st); [|exact Hf].
    unfold covered, key_of_cover. lia. }
  destruct (try_staff _ _ _ _ _) as [n st1|e st1] eqn:Ht; [|discriminate].
  destruct (0 <? n) eqn:E0; [discriminate|]. apply Z.ltb_ge in E0.
  apply (Hstep st1); [|exact Hf].
  destruct (try_staff_coverage (c_day r) (c_shift_id r)
              (staff (instance_data st))
              (requirement r -
               Z.of_nat (length (ds_get (c_day r, c_shift_id r) st))) st)
    as (_ & _ & _ & H4).
  destruct (H4 n st1 Ht) as [Hlen _].
  unfold covered, key_of_cover. lia.
Qed.

Lemma fill_false_uncovered reqs st st' :
  fill reqs st = Ret false st' -> exists r, r ∈ reqs /\ ~ covered st' r.
Proof.
  revert st. induction reqs as [|r rest IH]; intros st Hf; simpl in Hf;
    [discriminate|].
  assert (Hrest : forall st1, fill rest st1 = Ret false st' ->
                              exists x, x ∈ r :: rest /\ ~ covered st' x).
  { intros st1 H1. destruct (IH st1 H1) as (x & Hx & Hc).
    exists x. split; [now right | exact Hc]. }
  destruct (_ <=? 0); [now apply (Hrest st)|].
  destruct (try_staff _ _ _ _ _) as [n st1|e st1] eqn:Ht; [|discriminate].
  destruct (0 <? n) eqn:E0; [|now apply (Hrest st1)].
  apply Z.ltb_lt in E0. injection Hf as <-.
  destruct (try_staff_coverage (c_day r) (c_shift_id r)
              (staff (instance_data st))
              (requirement r -
               Z.of_nat (length (ds_get (c_day r, c_shift_id r) st))) st)
    as (_ & _ & _ & H4).
  destruct (H4 n st1 Ht) as [Hlen _].
  exists r. split; [left|]. unfold covered, key_of_cover. lia.
Qed.

Lemma fill_within_cover covers reqs st :
  reqs ⊆ covers -> within_cover covers st ->
  within_cover covers (final (fill reqs st)).
Proof.
  revert st. induction reqs as [|r rest IH]; intros st Hl Hw; simpl;
    [exact Hw|].
  assert (Hr : r ∈ covers) by (apply Hl; left).
  assert (Hrest : rest ⊆ covers) by (intros x Hx; apply Hl; now right).
  destruct (_ <=? 0) eqn:En; [now apply IH|]. apply Z.leb_gt in En.
  destruct (try_staff_coverage (c_day r) (c_shift_id r)
              (staff (instance_data st))
              (requirement r -
               Z.of_nat (length (ds_get (c_day r, c_shift_id r) st))) st)
    as (H1 & _ & H3 & _).
  assert (Hw1 : within_cover covers
                  (final (try_staff (c_day r) (c_shift_id r)
                     (staff (instance_data st))
                     (requirement r -
                      Z.of_nat (length (ds_get (c_day r, c_shift_id r) st)))
                     st))).
  { intros key. destruct (decide (key = (c_day r, c_shift_id r))) as [-> | Hk].
    - right. exists r. repeat split; auto. lia.
    - rewrite (H1 key Hk). apply Hw. }
  destruct (try_staff _ _ _ _ _) as [n st1|e st1]; simpl in Hw1; [|exact Hw1].
  destruct (0 <? n); [exact Hw1 | now apply IH].
Qed.

Lemma NoDup_key_inj {A B} (f : A -> B) (l : list A) x y :
  NoDup (map f l) -> x ∈ l -> y ∈ l -> f x = f y -> x = y.
Proof.
  induction l as [|z zs IH]; simpl; intros Hnd Hx Hy E; [inversion Hx|].
  apply NoDup_cons in Hnd as [Hz Hnd].
  apply elem_of_cons in Hx as [-> | Hx]; apply elem_of_cons in Hy as [-> | Hy];
    auto.
  - exfalso. apply Hz. rewrite E. apply list_elem_of_fmap. eauto.
  - exfalso. apply Hz. rewrite <- E. apply list_elem_of_fmap. eauto.
Qed.

Lemma within_cover_init covers inst : within_cover covers (init inst).
Proof. intros key. left. reflexivity. Qed.

Lemma greedy_within_cover inst :
  within_cover (cover_requirements inst)
    (final (greedy_schedule (init inst))).
Proof.
  unfold greedy_schedule. apply fill_within_cover.
  - simpl. intros x Hx. now rewrite sort_by_weight_perm in Hx.
  - apply within_cover_init.
Qed.

(** X1. When greedy fill returns, its boolean is the coverage of the
    schedule it leaves: true exactly when every cover row of the instance
    has at least the number of assignments it asks for under its
    (day, shift) key. *)
Theorem result_is_coverage (st st' : Schedule) (ok : bool) :
  greedy_schedule st = Ret ok st' ->
  (ok = true <->
   forall r, r ∈ cover_requirements (instance_data st) -> covered st' r).
Proof.
  unfold greedy_schedule. intros Hg. destruct ok.
  - split; [intros _|reflexivity]. intros r Hr.
    apply (fill_true_covered _ _ _ Hg). now rewrite sort_by_weight_perm.
  - split; [discriminate|]. intros Hall. exfalso.
    destruct (fill_false_uncovered _ _ _ Hg) as (r & Hr & Hc).
    apply Hc, Hall. now rewrite sort_by_weight_perm in Hr.
Qed.

Lemma result_is_coverage_witness :
  covered (final (greedy_schedule (init scenario_max_shifts)))
    (mkCover 2 "D" 1 10 1).
Proof.
  apply (proj1 (result_is_coverage (init scenario_max_shifts)
                  (final (greedy_schedule (init scenario_max_shifts))) true
                  eq_refl));
    [reflexivity | vm_compute; right; left].
Defined.

(** X2. A run from the fresh schedule never assigns beyond what is asked
    for: whether it returns or raises, a (day, shift) key with assignments
    has a cover row of that key asking for at least that many. *)
Theorem never_over_covered (inst : Instance) (key : Z * string) :
  let st := final (greedy_schedule (init inst)) in
  ds_get key st = [] \/
  exists r,
    r ∈ cover_requirements inst /\ key_of_cover r = key /\
    Z.of_nat (length (ds_get key st)) <= requirement r.
Proof. apply greedy_within_cover. Qed.

(** X3. On an instance whose cover rows have pairwise distinct
    (day, shift) keys, a successful run meets every requirement exactly:
    the number of assignments under the key of a row is the required count
    of that row, or zero when that count is negative. *)
Theorem success_covers_exactly (inst : Instance) (st : Schedule) :
  NoDup (map key_of_cover (cover_requirements inst)) ->
  greedy_schedule (init inst) = Ret true st ->
  forall r,
    r ∈ cover_requirements inst ->
    Z.of_nat (length (ds_get (key_of_cover r) st)) = Z.max 0 (requirement r).
Proof.
  intros Hnd Hg r Hr.
  assert (Hc : covered st r).
  { unfold greedy_schedule in Hg.
    apply (fill_true_covered _ _ _ Hg). now rewrite sort_by_weight_perm. }
  pose proof (greedy_within_cover inst (key_of_cover r)) as Hw.
  rewrite Hg in Hw. simpl in Hw. unfold covered in Hc.
  destruct Hw as [Hnil | (r' & Hr' & Hk & Hle)].
  - rewrite Hnil in *. simpl in *. lia.
  - assert (r' = r) by (eapply NoDup_key_inj; eauto). subst r'. lia.
Qed.

Lemma success_covers_exactly_witness :
  Z.of_nat (length (ds_get (2, "D")
     (final (greedy_schedule (init scenario_max_shifts))))) = 1.
Proof.
  apply (success_covers_exactly scenario_max_shifts
           (final (greedy_schedule (init scenario_max_shifts)))
           ltac:(apply (bool_decide_unpack _); vm_compute; exact I)
           eq_refl (mkCover 2 "D" 1 10 1)).
  vm_compute. right. left.
Defined.

(** X4. Every assignment a run from the fresh schedule commits is for a
    staff id of the staff list and for the (day, shift) key of a cover row
    that asks for at least one staff member. *)
Theorem committed_assignments_are_asked_for (inst : Instance) (a : Assignment) :
  a ∈ assignments (final (greedy_schedule (init inst))) ->
  staff_id a ∈ map id (staff inst) /\
  exists r,
    r ∈ cover_requirements inst /\ key_of_cover r = key_of a /\
    1 <= requirement r.
Proof.
  intros Ha.
  pose proof (greedy_reachable inst _ (reach_init inst)) as Hreach.
  destruct (reachable_origin inst _ Hreach a Ha) as (s & r0 & Hs & _ & ->).
  split; [simpl; apply list_elem_of_fmap; eauto|].
  assert (Hin : candidate s r0 ∈
                ds_get (key_of (candidate s r0))
                  (final (greedy_schedule (init inst)))).
  { rewrite (cons_day_shift _ (reachable_consistent inst _ Hreach)).
    apply list_elem_of_filter. split; [reflexivity | exact Ha]. }
  destruct (greedy_within_cover inst (key_of (candidate s r0)))
    as [Hnil | (r & Hr & Hk & Hle)].
  - rewrite Hnil in Hin. inversion Hin.
  - exists r. repeat split; auto.
    destruct (ds_get _ _); [inversion Hin | simpl in Hle; lia].
Qed.

Lemma committed_assignments_are_asked_for_witness :
  exists r,
    r ∈ cover_requirements scenario3 /\
    key_of_cover r = (1, "D") /\ 1 <= requirement r.
Proof.
  apply (committed_assignments_are_asked_for scenario3
           (mkAssignment "S1" 1 "D")).
  vm_compute. right. left.
Defined.

(** ** The predicate as a function of what it reads *)

(** The verdict of the predicate in terms of its four checks. *)
Lemma is_valid_verdict a st :
  verdict (is_valid_assignment a st) =
  match next_staff (staff (instance_data st)) (staff_id a) with
  | None => inl StopIteration
  | Some s =>
      if day_off a st then inr false
      else if fst (quota_blocked s a st) then inr false
      else
        match verdict (succession_blocked a st) with
        | inl e => inl e
        | inr true => inr false
        | inr false => inr (negb (run_blocked s a st))
        end
  end.
Proof.
  unfold is_valid_assignment.
  destruct (next_staff _ _) as [s|]; [|reflexivity].
  destruct (day_off a st); [reflexivity|].
  pose proof (quota_blocked_state s a st) as Hq.
  destruct (quota_blocked s a st) as [blocked st1]. simpl in *.
  destruct blocked; [reflexivity|].
  destruct Hq as [-> | ->].
  - destruct (succession_blocked a st) as [[|] st2|e st2] eqn:Hs;
      try reflexivity.
    simpl. pose proof (succession_final a st) as Hf. rewrite Hs in Hf.
    simpl in Hf. subst st2. now rewrite run_blocked_touch.
  - rewrite succession_touch.
    destruct (succession_blocked a st) as [[|] st2|e st2] eqn:Hs;
      try reflexivity.
    simpl. pose proof (succession_final a st) as Hf. rewrite Hs in Hf.
    simpl in Hf. subst st2. now rewrite !run_blocked_touch.
Qed.

Lemma is_valid_verdict_touch a sid st :
  verdict (is_valid_assignment a (sa_touch sid st)) =
  verdict (is_valid_assignment a st).
Proof.
  rewrite !is_valid_verdict, touch_instance.
  destruct (next_staff _ _) as [s|]; [|reflexivity].
  assert (Hd : day_off a (sa_touch sid st) = day_off a st)
    by (unfold day_off; now rewrite touch_instance).
  assert (Hq : fst (quota_blocked s a (sa_touch sid st)) =
               fst (quota_blocked s a st)).
  { unfold quota_blocked. rewrite touch_sa_get.
    destruct (shift_limits s !! shift_id a); reflexivity. }
  assert (Hs : verdict (succession_blocked a (sa_touch sid st)) =
               verdict (succession_blocked a st)).
  { rewrite succession_touch. destruct (succession_blocked a st); reflexivity. }
  now rewrite Hd, Hq, Hs, run_blocked_touch.
Qed.

Lemma final_sa_get a sid st :
  sa_get sid (final (is_valid_assignment a st)) = sa_get sid st.
Proof.
  destruct (is_valid_final a st) as [-> | ->];
    [reflexivity | apply touch_sa_get].
Qed.

(** X5. A call of the predicate changes nothing a reader of the schedule
    can see: the flat list, the list read under every staff id, the
    (day, shift) index, the instance and the shift table are as before
    (at most an empty list is stored under the candidate's staff id), and
    the verdict on every candidate afterwards is the one it was before. *)
Theorem predicate_leaves_schedule (a : Assignment) (st : Schedule) :
  let st' := final (is_valid_assignment a st) in
  assignments st' = assignments st /\
  (forall sid, sa_get sid st' = sa_get sid st) /\
  day_shift_assignments st' = day_shift_assignments st /\
  instance_data st' = instance_data st /\
  shifts_dict st' = shifts_dict st /\
  (forall sid, sid <> staff_id a ->
               staff_assignments st' !! sid = staff_assignments st !! sid) /\
  (forall b, verdict (is_valid_assignment b st') =
             verdict (is_valid_assignment b st)).
Proof.
  simpl. split; [apply final_assignments|].
  split; [intros sid; apply final_sa_get|].
  split; [|split; [apply final_instance|split; [apply final_shifts_dict|]]].
  - destruct (is_valid_final a st) as [-> | ->];
      [reflexivity | apply touch_day_shift].
  - split.
    + intros sid Hne. destruct (is_valid_final a st) as [-> | ->];
        [reflexivity|].
      unfold sa_touch. destruct (staff_assignments st !! staff_id a);
        [reflexivity|]. simpl. apply lookup_insert_ne. congruence.
    + intros b. destruct (is_valid_final a st) as [-> | ->];
        [reflexivity | apply is_valid_verdict_touch].
Qed.

Lemma predicate_leaves_schedule_witness :
  staff_assignments
    (final (is_valid_assignment (mkAssignment "S1" 1 "D") (init scenario3)))
    !! "S2" =
  staff_assignments (init scenario3) !! "S2".
Proof.
  apply (proj1 (proj2 (proj2 (proj2 (proj2 (proj2
           (predicate_leaves_schedule (mkAssignment "S1" 1 "D")
              (init scenario3)))))))).
  discriminate.
Defined.

(** X6. The predicate raises [StopIteration] exactly when no staff entry
    has the candidate's staff id, and then before any other check and
    without touching the schedule.  It raises [KeyError] exactly when the
    candidate passes the day-off and quota checks, the last inserted
    assignment of its staff member is on the day before, and the shift id
    of that assignment is not in the shift table. *)
Theorem predicate_raises (a : Assignment) (st : Schedule) :
  (verdict (is_valid_assignment a st) = inl StopIteration <->
   next_staff (staff (instance_data st)) (staff_id a) = None) /\
  (next_staff (staff (instance_data st)) (staff_id a) = None ->
   is_valid_assignment a st = Raise StopIteration st) /\
  (verdict (is_valid_assignment a st) = inl KeyError <->
   exists s b,
     next_staff (staff (instance_data st)) (staff_id a) = Some s /\
     ~ on_day_off (instance_data st) a /\
     fst (quota_blocked s a st) = false /\
     last (sa_get (staff_id a) st) = Some b /\
     day b = day a - 1 /\
     ~ known_shift st (shift_id b)).
Proof.
  rewrite is_valid_verdict.
  assert (Hsucc :
    forall e, verdict (succession_blocked a st) = inl e <->
      e = KeyError /\
      exists b, last (sa_get (staff_id a) st) = Some b /\
                day b = day a - 1 /\ ~ known_shift st (shift_id b)).
  { intros e. unfold succession_blocked, known_shift.
    destruct (last (sa_get (staff_id a) st)) as [la|].
    - destruct (day la =? day a - 1) eqn:Ed.
      + apply Z.eqb_eq in Ed.
        destruct (shifts_dict st !! shift_id la) as [sh|] eqn:Es; simpl.
        * split; [discriminate|]. intros (_ & b & [= <-] & _ & Hk).
          exfalso. apply Hk. rewrite Es. eauto.
        * split.
          -- intros [= <-]. split; [reflexivity|]. exists la.
             rewrite Es. split; [reflexivity|]. split; [exact Ed|].
             intros [x Hx]. discriminate.
          -- now intros [-> _].
      + apply Z.eqb_neq in Ed. simpl. split; [discriminate|].
        intros (_ & b & [= <-] & Hd & _). contradiction.
    - simpl. split; [discriminate|]. intros (_ & b & Hb & _). discriminate. }
  split; [|split].
  - destruct (next_staff _ _) as [s|]; [|tauto].
    split; [|discriminate].
    destruct (day_off a st); [discriminate|].
    destruct (fst (quota_blocked s a st)); [discriminate|].
    case_eq (verdict (succession_blocked a st)); [intros e Hv|intros [|] Hv];
      try discriminate.
    intros [= ->]. apply Hsucc in Hv as [Hv _]. discriminate.
  - intros Hnone. unfold is_valid_assignment. now rewrite Hnone.
  - destruct (next_staff _ _) as [s|].
    + destruct (day_off a st) eqn:Hoff.
      { split; [discriminate|].
        intros (s' & b & _ & Hn & _). apply day_off_true in Hoff.
        contradiction. }
      apply day_off_false in Hoff.
      destruct (fst (quota_blocked s a st)) eqn:Hq.
      { split; [discriminate|].
        intros (s' & b & [= <-] & _ & Hq' & _). congruence. }
      case_eq (verdict (succession_blocked a st)); [intros e Hv|intros [|] Hv].
      * apply Hsucc in Hv as (-> & b & Hb & Hd & Hk).
        split; [intros _|reflexivity]. exists s, b. repeat split; auto.
      * split; [discriminate|].
        intros (s' & b & _ & _ & _ & Hb & Hd & Hk).
        assert (Hraise : verdict (succession_blocked a st) = inl KeyError)
          by (apply Hsucc; eauto).
        congruence.
      * split; [discriminate|].
        intros (s' & b & _ & _ & _ & Hb & Hd & Hk).
        assert (Hraise : verdict (succession_blocked a st) = inl KeyError)
          by (apply Hsucc; eauto).
        congruence.
    + split; [discriminate|]. intros (s & b & Hs & _). discriminate.
Qed.

Lemma predicate_raises_witness :
  is_valid_assignment (mkAssignment "S9" 0 "D") (init scenario_off) =
  Raise StopIteration (init scenario_off).
Proof.
  apply (proj1 (proj2 (predicate_raises (mkAssignment "S9" 0 "D")
                         (init scenario_off)))).
  reflexivity.
Defined.

(** ** The consecutive-run check *)

Lemma existsb_day l d :
  existsb (fun b : Assignment => day b =? d) l = true <->
  exists b, b ∈ l /\ day b = d.
Proof.
  rewrite existsb_exists. split.
  - intros (b & Hb & E). apply Z.eqb_eq in E. exists b.
    split; [now apply list_elem_of_In | exact E].
  - intros (b & Hb & E). exists b.
    split; [now apply list_elem_of_In | now apply Z.eqb_eq].
Qed.

Lemma worked_before_nonneg l n : 0 <= worked_before l n.
Proof.
  induction n as [|n IH]; simpl; [lia|].
  destruct (existsb _ l); lia.
Qed.

(** The loop counts at least [k] days exactly when the [k] days before day
    [n] are all worked and none of them is before day 0. *)
Lemma worked_before_spec l n k :
  0 <= k ->
  (k <= worked_before l n <->
   k <= Z.of_nat n /\ worked_days_back l (Z.of_nat n) k).
Proof.
  revert k. induction n as [|n IH]; intros k Hk; simpl worked_before.
  - split.
    + intros Hle. split; [lia|]. intros i Hi. lia.
    + intros [Hle _]. lia.
  - destruct (existsb (fun b => day b =? Z.of_nat n) l) eqn:Ex.
    + apply existsb_day in Ex as (b0 & Hb0 & Hd0).
      destruct (decide (k = 0)) as [-> | Hk0].
      * pose proof (worked_before_nonneg l n). split.
        -- intros _. split; [lia|]. intros i Hi. lia.
        -- intros _. lia.
      * specialize (IH (k - 1) ltac:(lia)). split.
        -- intros Hle. destruct (proj1 IH ltac:(lia)) as [Hn Hw].
           split; [lia|]. intros i Hi.
           destruct (decide (i = 1)) as [-> | Hi1].
           ++ exists b0. split; [exact Hb0 | lia].
           ++ destruct (Hw (i - 1) ltac:(lia)) as (b & Hb & Hd).
              exists b. split; [exact Hb | lia].
        -- intros [Hn Hw].
           assert (k - 1 <= worked_before l n); [|lia].
           apply IH. split; [lia|]. intros i Hi.
           destruct (Hw (i + 1) ltac:(lia)) as (b & Hb & Hd).
           exists b. split; [exact Hb | lia].
    + split.
      * intros Hle. assert (k = 0) by lia. subst k.
        split; [lia|]. intros i Hi. lia.
      * intros [Hn Hw].
        destruct (decide (k = 0)) as [-> | Hk0]; [lia|]. exfalso.
        destruct (Hw 1 ltac:(lia)) as (b & Hb & Hd).
        assert (Hex : existsb (fun b => day b =? Z.of_nat n) l = true)
          by (apply existsb_day; exists b; split; [exact Hb | lia]).
        congruence.
Qed.

Lemma run_blocked_spec (s : Staff) (a : Assignment) (st : Schedule) :
  run_blocked s a st = true <->
  exists k,
    0 <= k <= Z.max 0 (day a) /\
    worked_days_back (sa_get (staff_id a) st) (day a) k /\
    max_consecutive_shifts s < k + 1.
Proof.
  unfold run_blocked. rewrite Z.ltb_lt.
  set (l := sa_get (staff_id a) st). set (n := Z.to_nat (day a)).
  assert (Hn : Z.of_nat n = Z.max 0 (day a)) by (unfold n; lia).
  pose proof (worked_before_nonneg l n) as H0. split.
  - intros Hlt. exists (worked_before l n).
    destruct (proj1 (worked_before_spec l n (worked_before l n) H0)
                ltac:(lia)) as [Hle Hw].
    split; [lia|]. split; [|lia].
    intros i Hi. destruct (Hw i Hi) as (b & Hb & Hd).
    exists b. split; [exact Hb | lia].
  - intros (k & Hk & Hw & Hlt).
    assert (k <= worked_before l n); [|lia].
    apply worked_before_spec; [lia|]. split; [lia|].
    intros i Hi. destruct (Hw i Hi) as (b & Hb & Hd).
    exists b. split; [exact Hb | lia].
Qed.

(** X7. The consecutive-run check blocks a candidate exactly when, for
    some [k], the staff member has an assignment on each of the [k] days
    before the candidate's day, none of them before day 0, and [k + 1]
    exceeds the limit of the staff entry; days after the candidate's are
    not looked at. *)
Theorem run_check_meaning (s : Staff) (a : Assignment) (st : Schedule) :
  run_blocked s a st = true <->
  exists k,
    0 <= k <= Z.max 0 (day a) /\
    worked_days_back (sa_get (staff_id a) st) (day a) k /\
    max_consecutive_shifts s < k + 1.
Proof. apply run_blocked_spec. Qed.

Lemma run_check_meaning_witness :
  run_blocked (staff_S1 2) (mkAssignment "S1" 2 "D")
    (final (greedy_schedule (init scenario3))) = true.
Proof.
  apply (proj2 (run_check_meaning (staff_S1 2) (mkAssignment "S1" 2 "D")
                  (final (greedy_schedule (init scenario3))))).
  exists 2. split; [vm_compute; split; discriminate|].
  split; [|reflexivity].
  intros i Hi.
  destruct (decide (i = 1)) as [-> | Hne].
  - exists (mkAssignment "S1" 1 "D"). split; [vm_compute; right; left|].
    reflexivity.
  - assert (i = 2) by lia. subst i.
    exists (mkAssignment "S1" 0 "D"). split; [vm_compute; left|].
    reflexivity.
Defined.

(** ** Rows filled in the order of their days *)

Lemma split_run (n : nat) (P Q : nat -> Prop) :
  (forall i, (i < n)%nat -> P i \/ Q i) ->
  (forall i, (i < n)%nat -> P i) \/ (exists i, (i < n)%nat /\ Q i).
Proof.
  induction n as [|n IH]; intros H.
  - left. intros i Hi. lia.
  - destruct IH as [Hall | (i & Hi & Hq)].
    + intros i Hi. apply H. lia.
    + destruct (H n ltac:(lia)) as [Hp | Hq].
      * left. intros i Hi.
        destruct (decide (i = n)) as [-> | Hne]; [exact Hp|].
        apply Hall. lia.
      * right. exists n. split; [lia | exact Hq].
    + right. exists i. split; [lia | exact Hq].
Qed.

Lemma runs_within_limit_same st st' :
  instance_data st' = instance_data st ->
  assignments st' = assignments st ->
  runs_within_limit st -> runs_within_limit st'.
Proof.
  intros Ei Ea Hruns sid s d n Hs Hn Hw. rewrite Ei in Hs.
  apply (Hruns sid s d n Hs Hn).
  intros i Hi. destruct (Hw i Hi) as (b & Hb & Hb').
  exists b. rewrite <- Ea. auto.
Qed.

Lemma ordered_inv_check inst D a st :
  ordered_inv inst D st ->
  reachable inst (final (is_valid_assignment a st)) ->
  ordered_inv inst D (final (is_valid_assignment a st)).
Proof.
  intros (_ & Hdays & Hruns) Hreach. split; [exact Hreach|]. split.
  - rewrite final_assignments. exact Hdays.
  - eapply runs_within_limit_same; [apply final_instance
                                   | apply final_assignments | exact Hruns].
Qed.

Lemma ordered_inv_weaken inst D D' st :
  D <= D' -> ordered_inv inst D st -> ordered_inv inst D' st.
Proof.
  intros Hle (Hreach & Hdays & Hruns). split; [exact Hreach|].
  split; [|exact Hruns]. intros a Ha. specialize (Hdays a Ha). lia.
Qed.

Lemma ordered_inv_commit inst D s r st st' :
  ordered_inv inst D st ->
  s ∈ staff inst -> r ∈ cover_requirements inst ->
  D <= c_day r -> 0 <= c_day r ->
  is_valid_assignment (candidate s r) st = Ret true st' ->
  ordered_inv inst (c_day r) (commit (candidate s r) st').
Proof.
  intros (Hreach & Hdays & Hruns) Hs Hr HD H0 Hv.
  pose proof (reach_commit inst s r st st' Hreach Hs Hr Hv) as Hreach'.
  destruct (is_valid_true _ _ _ Hv) as (-> & s' & Hs' & _ & _ & _ & Hrun).
  change (staff_id (candidate s r)) with (id s) in *.
  assert (Ea : assignments (commit (candidate s r) (sa_touch (id s) st)) =
               assignments st ++ [candidate s r])
    by (simpl; now rewrite touch_assignments).
  split; [exact Hreach'|]. split.
  - intros b Hb. rewrite Ea in Hb. apply elem_of_app in Hb as [Hb | Hb].
    + specialize (Hdays b Hb). lia.
    + apply list_elem_of_singleton in Hb. subst b. simpl. lia.
  - intros sid s1 d n Hs1 Hn Hw. simpl in Hs1. rewrite touch_instance in Hs1.
    assert (Hon : forall x,
               works_on (commit (candidate s r) (sa_touch (id s) st)) sid x ->
               works_on st sid x \/ (sid = id s /\ x = c_day r)).
    { intros x (b & Hb & Hsid & Hday). rewrite Ea in Hb.
      apply elem_of_app in Hb as [Hb | Hb].
      - left. exists b. auto.
      - apply list_elem_of_singleton in Hb. subst b. right. simpl in *. auto. }
    destruct (split_run n (fun i => works_on st sid (d + Z.of_nat i))
                (fun i => sid = id s /\ d + Z.of_nat i = c_day r))
      as [Hold | (i & Hi & -> & Hd0)].
    { intros i Hi. apply Hon, Hw, Hi. }
    { apply (Hruns (sid) s1 d n); auto. }
    assert (Hbounds : forall j, (j < n)%nat ->
                                0 <= d + Z.of_nat j <= c_day r).
    { intros j Hj.
      destruct (Hon _ (Hw j Hj)) as [(b & Hb & _ & Hday) | [_ E]];
        [specialize (Hdays b Hb); lia | lia]. }
    pose proof (Hbounds 0%nat Hn) as Hfirst.
    pose proof (Hbounds (n - 1)%nat ltac:(lia)) as Hlast.
    assert (Hend : d + Z.of_nat (n - 1) = c_day r) by lia.
    assert (Hback : worked_days_back (sa_get (id s) st) (c_day r)
                      (Z.of_nat n - 1)).
    { intros j Hj.
      assert (Hm : (Z.to_nat (Z.of_nat n - 1 - j) < n)%nat) by lia.
      destruct (Hon _ (Hw _ Hm)) as [(b & Hb & Hsid & Hday) | [_ E]];
        [|lia].
      exists b. split; [|lia].
      rewrite (cons_staff st (reachable_consistent inst st Hreach)).
      apply list_elem_of_filter. auto. }
    rewrite (reachable_instance inst st Hreach) in Hs1, Hs'.
    rewrite Hs1 in Hs'. injection Hs' as <-.
    destruct (Z_le_gt_dec (Z.of_nat n) (max_consecutive_shifts s1))
      as [Hle | Hgt]; [exact Hle|].
    exfalso.
    assert (Hb : run_blocked s1 (candidate s r) st = true).
    { apply run_blocked_spec. exists (Z.of_nat n - 1). simpl.
      split; [lia|]. split; [exact Hback | lia]. }
    congruence.
Qed.

Lemma try_staff_ordered inst D r l needed st :
  ordered_inv inst D st ->
  D <= c_day r -> 0 <= c_day r ->
  l ⊆ staff inst -> r ∈ cover_requirements inst ->
  ordered_inv inst (c_day r)
    (final (try_staff (c_day r) (c_shift_id r) l needed st)).
Proof.
  revert D needed st.
  induction l as [|s rest IH]; intros D needed st Hinv HD H0 Hl Hr; simpl.
  { now apply (ordered_inv_weaken inst D). }
  destruct (needed <=? 0); [now apply (ordered_inv_weaken inst D)|].
  assert (Hs : s ∈ staff inst) by (apply Hl; left).
  assert (Hrest : rest ⊆ staff inst) by (intros x Hx; apply Hl; now right).
  fold (candidate s r).
  pose proof (ordered_inv_check inst D (candidate s r) st Hinv
                (reach_check inst s r st (proj1 Hinv) Hs Hr)) as Hchk.
  destruct (is_valid_assignment (candidate s r) st) as [[|] st1|e st1] eqn:Hv;
    simpl in Hchk.
  - apply (IH (c_day r)); auto; [|lia].
    apply (ordered_inv_commit inst D s r st st1); auto.
  - apply (IH D); auto.
  - now apply (ordered_inv_weaken inst D).
Qed.

Lemma fill_ordered inst D reqs st :
  StronglySorted day_le reqs ->
  (forall r, r ∈ reqs -> D <= c_day r /\ 0 <= c_day r) ->
  reqs ⊆ cover_requirements inst ->
  ordered_inv inst D st ->
  exists D', ordered_inv inst D' (final (fill reqs st)).
Proof.
  revert D st.
  induction reqs as [|r rest IH]; intros D st Hsorted Hge Hl Hinv; simpl;
    [eauto|].
  apply StronglySorted_inv in Hsorted as [Hsorted Hhd].
  assert (Hr : r ∈ cover_requirements inst) by (apply Hl; left).
  assert (Hrest : rest ⊆ cover_requirements inst)
    by (intros x Hx; apply Hl; now right).
  destruct (Hge r ltac:(left)) as [HD H0].
  destruct (_ <=? 0).
  { apply (IH D); auto. intros x Hx. apply Hge. now right. }
  rewrite (reachable_instance inst st (proj1 Hinv)).
  pose proof (try_staff_ordered inst D r (staff inst)
                (requirement r -
                 Z.of_nat (length (ds_get (c_day r, c_shift_id r) st)))
                st Hinv HD H0 (fun x Hx => Hx) Hr) as Hinv1.
  destruct (try_staff _ _ _ _ _) as [n st1|e st1]; simpl in Hinv1; [|eauto].
  destruct (0 <? n); [eauto|].
  apply (IH (c_day r)); auto.
  intros x Hx. split; [|apply Hge; now right].
  rewrite List.Forall_forall in Hhd. apply Hhd. now apply list_elem_of_In.
Qed.

(** X8. When the weight order is also the order of the days (the sorted
    cover rows have non-decreasing days) and no cover row is on a negative
    day, the schedule a run from the fresh schedule ends in, whether it
    returns or raises, has no staff member working on more consecutive days
    than the limit of the staff entry found under the id. *)
Theorem run_limit_holds_in_day_order (inst : Instance) :
  Sorted day_le (sort_by_weight (cover_requirements inst)) ->
  (forall r, r ∈ cover_requirements inst -> 0 <= c_day r) ->
  runs_within_limit (final (greedy_schedule (init inst))).
Proof.
  intros Hsorted Hdays.
  assert (Htrans : Relations_1.Transitive day_le)
    by (intros x y z; unfold day_le; lia).
  apply (Sorted_StronglySorted Htrans) in Hsorted.
  destruct (fill_ordered inst 0
              (sort_by_weight (cover_requirements inst)) (init inst) Hsorted)
    as (D' & _ & _ & Hruns).
  - intros r Hr. rewrite sort_by_weight_perm in Hr.
    specialize (Hdays r Hr). lia.
  - intros x Hx. now rewrite sort_by_weight_perm in Hx.
  - split; [apply reach_init|]. split.
    + intros a Ha. inversion Ha.
    + intros sid s d n _ Hn Hw.
      destruct (Hw 0%nat Hn) as (b & Hb & _). inversion Hb.
  - exact Hruns.
Qed.

Lemma run_limit_holds_in_day_order_witness :
  runs_within_limit (final (greedy_schedule (init scenario3))).
Proof.
  apply (run_limit_holds_in_day_order scenario3).
  - vm_compute. repeat constructor; discriminate.
  - intros r Hr. vm_compute in Hr.
    repeat (apply elem_of_cons in Hr as [-> | Hr]; [vm_compute; discriminate|]).
    inversion Hr.
Defined.

Lemma succession_inv_check inst D a st :
  succession_inv inst D st ->
  reachable inst (final (is_valid_assignment a st)) ->
  succession_inv inst D (final (is_valid_assignment a st)).
Proof.
  intros (_ & Hdays & Hlast & Hno) Hreach. split; [exact Hreach|].
  split; [now rewrite final_assignments|]. split.
  - intros sid la b. rewrite !final_sa_get. apply Hlast.
  - intros x y. rewrite final_assignments. intros Hx Hy Hf.
    apply (Hno x y Hx Hy). destruct Hf as (E1 & E2 & sh & Hsh & Hin).
    rewrite final_shifts_dict in Hsh. repeat split; eauto.
Qed.

Lemma succession_inv_weaken inst D D' st :
  D <= D' -> succession_inv inst D st -> succession_inv inst D' st.
Proof.
  intros Hle (Hreach & Hdays & Hrest). split; [exact Hreach|].
  split; [|exact Hrest]. intros a Ha. specialize (Hdays a Ha). lia.
Qed.

Lemma succession_inv_commit inst D s r st st' :
  (forall r1 r2, r1 ∈ cover_requirements inst ->
                 r2 ∈ cover_requirements inst ->
                 c_day r1 = c_day r2 -> c_shift_id r1 = c_shift_id r2) ->
  succession_inv inst D st ->
  s ∈ staff inst -> r ∈ cover_requirements inst ->
  D <= c_day r ->
  is_valid_assignment (candidate s r) st = Ret true st' ->
  succession_inv inst (c_day r) (commit (candidate s r) st').
Proof.
  intros Hone (Hreach & Hdays & Hlast & Hno) Hs Hr HD Hv.
  pose proof (reach_commit inst s r st st' Hreach Hs Hr Hv) as Hreach'.
  destruct (is_valid_true _ _ _ Hv) as (-> & _ & _ & _ & _ & Hsucc & _).
  change (staff_id (candidate s r)) with (id s) in *.
  pose proof (reachable_consistent inst st Hreach) as Hcons.
  assert (Ea : assignments (commit (candidate s r) (sa_touch (id s) st)) =
               assignments st ++ [candidate s r])
    by (simpl; now rewrite touch_assignments).
  assert (Eg : forall sid,
             sa_get sid (commit (candidate s r) (sa_touch (id s) st)) =
             if decide (id s = sid) then sa_get sid st ++ [candidate s r]
             else sa_get sid st).
  { intros sid. rewrite commit_sa_get. simpl. now rewrite !touch_sa_get. }
  split; [exact Hreach'|]. split; [|split].
  - intros b Hb. rewrite Ea in Hb. apply elem_of_app in Hb as [Hb | Hb].
    + specialize (Hdays b Hb). lia.
    + apply list_elem_of_singleton in Hb. subst b. simpl. lia.
  - intros sid la b. rewrite !Eg. case_decide as E; [|apply Hlast].
    rewrite last_snoc. intros [= <-] Hb. simpl.
    apply elem_of_app in Hb as [Hb | Hb].
    + rewrite (cons_staff st Hcons) in Hb.
      apply list_elem_of_filter in Hb as [_ Hb]. specialize (Hdays b Hb). lia.
    + apply list_elem_of_singleton in Hb. subst b. simpl. lia.
  - intros x y Hx Hy (Hid & Hday & sh & Hsh & Hin).
    simpl in Hsh. rewrite touch_shifts_dict in Hsh.
    rewrite Ea in Hx, Hy.
    apply elem_of_app in Hy as [Hy | Hy].
    + apply elem_of_app in Hx as [Hx | Hx].
      * apply (Hno x y Hx Hy). repeat split; eauto.
      * apply list_elem_of_singleton in Hx. subst x. simpl in *.
        specialize (Hdays y Hy). lia.
    + apply list_elem_of_singleton in Hy. subst y. simpl in *.
      apply elem_of_app in Hx as [Hx | Hx];
        [|apply list_elem_of_singleton in Hx; subst x; simpl in *; lia].
      assert (Hxs : x ∈ sa_get (id s) st).
      { rewrite (cons_staff st Hcons). apply list_elem_of_filter. auto. }
      destruct (last (sa_get (id s) st)) as [la|] eqn:El;
        [|apply last_None in El; rewrite El in Hxs; inversion Hxs].
      pose proof (Hlast (id s) la x El Hxs) as Hmax.
      assert (Hla : la ∈ assignments st).
      { apply last_Some_elem_of in El. rewrite (cons_staff st Hcons) in El.
        now apply list_elem_of_filter in El as [_ El]. }
      assert (Hlas : staff_id la = id s).
      { apply last_Some_elem_of in El. rewrite (cons_staff st Hcons) in El.
        now apply list_elem_of_filter in El as [El _]. }
      pose proof (Hdays la Hla) as Hlad.
      assert (Hshift : forall b c, b ∈ assignments st -> c ∈ assignments st ->
                                   day b = day c -> shift_id b = shift_id c).
      { intros b c Hb Hc E.
        destruct (reachable_origin inst st Hreach b Hb)
          as (sb & rb & _ & Hrb & ->).
        destruct (reachable_origin inst st Hreach c Hc)
          as (sc & rc & _ & Hrc & ->).
        simpl in *. now apply Hone. }
      destruct (decide (day la = c_day r - 1)) as [Ed | Ed].
      * unfold succession_blocked in Hsucc.
        cbn [staff_id day shift_id candidate] in Hsucc.
        rewrite El in Hsucc.
        apply Z.eqb_eq in Ed. rewrite Ed in Hsucc. apply Z.eqb_eq in Ed.
        rewrite (Hshift la x Hla Hx ltac:(lia)), Hsh in Hsucc.
        injection Hsucc as Hex.
        assert (Hex' : existsb (String.eqb (c_shift_id r))
                         (forbidden_following sh) = true).
        { apply existsb_exists. exists (c_shift_id r).
          split; [now apply list_elem_of_In | apply String.eqb_refl]. }
        congruence.
      * assert (Hrla : day la = c_day r) by lia.
        destruct (reachable_origin inst st Hreach la Hla)
          as (sl & rl & _ & Hrl & Ela).
        apply (Hno x la Hx Hla). split; [congruence|]. split; [lia|].
        exists sh. split; [exact Hsh|].
        rewrite Ela. simpl. rewrite Ela in Hrla. simpl in Hrla.
        now rewrite (Hone rl r Hrl Hr Hrla).
Qed.

Lemma try_staff_succession inst D r l needed st :
  (forall r1 r2, r1 ∈ cover_requirements inst ->
                 r2 ∈ cover_requirements inst ->
                 c_day r1 = c_day r2 -> c_shift_id r1 = c_shift_id r2) ->
  succession_inv inst D st ->
  D <= c_day r ->
  l ⊆ staff inst -> r ∈ cover_requirements inst ->
  succession_inv inst (c_day r)
    (final (try_staff (c_day r) (c_shift_id r) l needed st)).
Proof.
  intros Hone. revert D needed st.
  induction l as [|s rest IH]; intros D needed st Hinv HD Hl Hr; simpl.
  { now apply (succession_inv_weaken inst D). }
  destruct (needed <=? 0); [now apply (succession_inv_weaken inst D)|].
  assert (Hs : s ∈ staff inst) by (apply Hl; left).
  assert (Hrest : rest ⊆ staff inst) by (intros x Hx; apply Hl; now right).
  fold (candidate s r).
  pose proof (succession_inv_check inst D (candidate s r) st Hinv
                (reach_check inst s r st (proj1 Hinv) Hs Hr)) as Hchk.
  destruct (is_valid_assignment (candidate s r) st) as [[|] st1|e st1] eqn:Hv;
    simpl in Hchk.
  - apply (IH (c_day r)); auto; [|lia].
    apply (succession_inv_commit inst D s r st st1); auto.
  - apply (IH D); auto.
  - now apply (succession_inv_weaken inst D).
Qed.

Lemma fill_succession inst D reqs st :
  (forall r1 r2, r1 ∈ cover_requirements inst ->
                 r2 ∈ cover_requirements inst ->
                 c_day r1 = c_day r2 -> c_shift_id r1 = c_shift_id r2) ->
  StronglySorted day_le reqs ->
  (forall r, r ∈ reqs -> D <= c_day r) ->
  reqs ⊆ cover_requirements inst ->
  succession_inv inst D st ->
  exists D', succession_inv inst D' (final (fill reqs st)).
Proof.
  intros Hone. revert D st.
  induction reqs as [|r rest IH]; intros D st Hsorted Hge Hl Hinv; simpl;
    [eauto|].
  apply StronglySorted_inv in Hsorted as [Hsorted Hhd].
  assert (Hr : r ∈ cover_requirements inst) by (apply Hl; left).
  assert (Hrest : rest ⊆ cover_requirements inst)
    by (intros x Hx; apply Hl; now right).
  pose proof (Hge r ltac:(left)) as HD.
  destruct (_ <=? 0).
  { apply (IH D); auto. intros x Hx. apply Hge. now right. }
  rewrite (reachable_instance inst st (proj1 Hinv)).
  pose proof (try_staff_succession inst D r (staff inst)
                (requirement r -
                 Z.of_nat (length (ds_get (c_day r, c_shift_id r) st)))
                st Hone Hinv HD (fun x Hx => Hx) Hr) as Hinv1.
  destruct (try_staff _ _ _ _ _) as [n st1|e st1]; simpl in Hinv1; [|eauto].
  destruct (0 <? n); [eauto|].
  apply (IH (c_day r)); auto.
  intros x Hx. rewrite List.Forall_forall in Hhd.
  apply Hhd. now apply list_elem_of_In.
Qed.

(** X9. When the weight order is also the order of the days (the sorted
    cover rows have non-decreasing days) and the cover rows of one day all
    ask for the same shift id, the schedule a run from the fresh schedule
    ends in, whether it returns or raises, holds no forbidden succession:
    no staff member has, on consecutive days, a shift that the shift of the
    earlier day forbids after it. *)
Theorem no_forbidden_succession_in_day_order (inst : Instance) :
  Sorted day_le (sort_by_weight (cover_requirements inst)) ->
  (forall r1 r2,
      r1 ∈ cover_requirements inst -> r2 ∈ cover_requirements inst ->
      c_day r1 = c_day r2 -> c_shift_id r1 = c_shift_id r2) ->
  no_forbidden_succession (final (greedy_schedule (init inst))).
Proof.
  intros Hsorted Hone.
  assert (Htrans : Relations_1.Transitive day_le)
    by (intros x y z; unfold day_le; lia).
  apply (Sorted_StronglySorted Htrans) in Hsorted.
  set (reqs := sort_by_weight (cover_requirements inst)) in *.
  set (D := match reqs with [] => 0 | r :: _ => c_day r end).
  destruct (fill_succession inst D reqs (init inst) Hone Hsorted)
    as (D' & _ & _ & _ & Hno).
  - intros r Hr. unfold D. destruct reqs as [|r0 rest]; [inversion Hr|].
    apply elem_of_cons in Hr as [-> | Hr]; [lia|].
    apply StronglySorted_inv in Hsorted as [_ Hhd].
    rewrite List.Forall_forall in Hhd. apply Hhd. now apply list_elem_of_In.
  - intros x Hx. unfold reqs in Hx. now rewrite sort_by_weight_perm in Hx.
  - split; [apply reach_init|]. split; [intros a Ha; inversion Ha|]. split.
    + intros sid la b Hl. unfold sa_get in Hl. simpl in Hl.
      rewrite lookup_empty in Hl. discriminate.
    + intros x y Hx. inversion Hx.
  - exact Hno.
Qed.

Lemma no_forbidden_succession_in_day_order_witness :
  no_forbidden_succession
    (final (greedy_schedule (init
       (mkInstance 2 [mkShift "E" 480 []; mkShift "L" 480 ["E"]]
          [staff_S1 5; mkStaff "S2" ∅ 10 1000 0 5 1 1 None] ∅
          [mkCover 0 "L" 1 10 1; mkCover 1 "E" 1 10 1])))).
Proof.
  apply no_forbidden_succession_in_day_order.
  - vm_compute. repeat constructor; discriminate.
  - intros r1 r2 H1 H2. vm_compute in H1, H2.
    apply elem_of_cons in H1 as [-> | H1];
      [|apply elem_of_cons in H1 as [-> | H1]; [|inversion H1]];
      (apply elem_of_cons in H2 as [-> | H2];
       [|apply elem_of_cons in H2 as [-> | H2]; [|inversion H2]]);
      simpl; intros E; try reflexivity; discriminate.
Defined.

(** ** The order of the requirements, the staff loop and the edges *)

(** X10. The requirements are taken heaviest first: the order in which
    the fill loop sees the cover rows is a rearrangement of the input, by
    non-increasing under-coverage weight, and rows of equal weight keep
    their input order. *)
Theorem requirements_order (l : list Cover) :
  sort_by_weight l ≡ₚ l /\
  Sorted heavier (sort_by_weight l) /\
  (forall w,
      filter (fun c => weight_under c = w) (sort_by_weight l) =
      filter (fun c => weight_under c = w) l).
Proof.
  split; [apply sort_by_weight_perm|].
  split; [apply sort_by_weight_sorted | intros w; apply sort_by_weight_stable].
Qed.

(** X11. One pass of the staff loop over a requirement that returns
    appends to the flat list exactly as many assignments as the needed
    count went down by, all for the day and shift of the requirement, given
    to staff members in the order of the staff list, each position of the
    list at most once; the needed count does not drop below zero. *)
Theorem staff_loop_commits
    (d : Z) (sh : string) (l : list Staff) (needed n : Z) (st st' : Schedule) :
  try_staff d sh l needed st = Ret n st' ->
  exists added,
    assignments st' = assignments st ++ added /\
    Z.of_nat (length added) = needed - n /\
    Forall (fun a => day a = d /\ shift_id a = sh) added /\
    sublist (map staff_id added) (map id l) /\
    (0 <= needed -> 0 <= n).
Proof.
  revert needed st. induction l as [|s rest IH]; intros needed st; simpl.
  { intros [= <- <-]. exists []. rewrite app_nil_r. simpl.
    split; [reflexivity|]. split; [lia|]. split; [constructor|].
    split; [constructor | auto]. }
  destruct (needed <=? 0) eqn:En.
  { intros [= <- <-]. exists []. rewrite app_nil_r. simpl.
    split; [reflexivity|]. split; [lia|]. split; [constructor|].
    split; [apply sublist_nil_l | auto]. }
  apply Z.leb_gt in En.
  pose proof (final_assignments (mkAssignment (id s) d sh) st) as Ef.
  destruct (is_valid_assignment _ st) as [[|] st1|e st1]; simpl in Ef;
    [| |discriminate].
  - intros Ht. destruct (IH _ _ Ht) as (added & Ha & Hlen & Hall & Hsub & Hn).
    exists (mkAssignment (id s) d sh :: added). simpl in Ha.
    rewrite Ha, Ef, <- app_assoc. simpl.
    split; [reflexivity|]. split; [lia|]. split; [|split; [|lia]].
    + constructor; auto.
    + now apply sublist_skip.
  - intros Ht. destruct (IH _ _ Ht) as (added & Ha & Hlen & Hall & Hsub & Hn).
    exists added. rewrite Ha, Ef.
    split; [reflexivity|]. split; [lia|]. split; [exact Hall|].
    split; [now apply sublist_cons | exact Hn].
Qed.

Lemma staff_loop_commits_witness :
  exists added,
    assignments (commit (mkAssignment "S1" 0 "D")
                   (sa_touch "S1" (init scenario3))) =
      assignments (init scenario3) ++ added /\
    Z.of_nat (length added) = 1 - 0 /\
    Forall (fun a => day a = 0 /\ shift_id a = "D") added /\
    sublist (map staff_id added) (map id [staff_S1 2]) /\
    (0 <= 1 -> 0 <= 0).
Proof.
  apply (staff_loop_commits 0 "D" [staff_S1 2] 1 0 (init scenario3)).
  reflexivity.
Defined.





Lemma foldl_shifts_lookup l (m : gmap string Shift) k :
  foldl (fun m sh => <[sh_id sh := sh]> m) m l !! k =
  match last (filter (fun sh => sh_id sh = k) l) with
  | Some sh => Some sh
  | None => m !! k
  end.
Proof.
  revert m. induction l as [|x xs IH]; intros m; simpl; [reflexivity|].
  rewrite IH, filter_cons. case_decide as E.
  - rewrite last_cons.
    destruct (last (filter (fun sh => sh_id sh = k) xs)); [reflexivity|].
    subst k. apply lookup_insert_eq.
  - destruct (last (filter (fun sh => sh_id sh = k) xs)); [reflexivity|].
    now apply lookup_insert_ne.
Qed.

(** X13. The shift table built by [__init__] maps an id to the last shift
    of the instance with that id: an id no shift has is missing, and when
    the shift ids are pairwise distinct every shift is found under its
    id. *)
Theorem shifts_dict_lookup (inst : Instance) :
  (forall k, shifts_dict (init inst) !! k =
             last (filter (fun sh => sh_id sh = k) (shifts inst))) /\
  (forall k, k ∉ map sh_id (shifts inst) ->
             shifts_dict (init inst) !! k = None) /\
  (NoDup (map sh_id (shifts inst)) ->
   forall sh, sh ∈ shifts inst ->
              shifts_dict (init inst) !! sh_id sh = Some sh).
Proof.
  assert (Hlook : forall k, shifts_dict (init inst) !! k =
                   last (filter (fun sh => sh_id sh = k) (shifts inst))).
  { intros k. simpl. unfold make_shifts_dict.
    rewrite foldl_shifts_lookup, lookup_empty.
    now destruct (last _). }
  split; [exact Hlook|]. split.
  - intros k Hk. rewrite Hlook.
    destruct (last _) as [sh|] eqn:El; [|reflexivity].
    apply last_Some_elem_of, list_elem_of_filter in El as [E Hin].
    exfalso. apply Hk. subst k. apply list_elem_of_fmap. eauto.
  - intros Hnd sh Hsh. rewrite Hlook.
    destruct (last _) as [sh'|] eqn:El.
    + apply last_Some_elem_of, list_elem_of_filter in El as [E Hin].
      f_equal. eapply NoDup_key_inj; eauto.
    + apply last_None in El.
      assert (Hin : sh ∈ filter (fun x => sh_id x = sh_id sh) (shifts inst))
        by (apply list_elem_of_filter; auto).
      rewrite El in Hin. inversion Hin.
Qed.

Lemma shifts_dict_lookup_witness :
  shifts_dict (init scenario_succession) !! "L" = Some (mkShift "L" 480 ["E"]) /\
  shifts_dict (init scenario_succession) !! "X" = None.
Proof.
  split.
  - apply (proj2 (proj2 (shifts_dict_lookup scenario_succession))
             ltac:(apply (bool_decide_unpack _); vm_compute; exact I)
             (mkShift "L" 480 ["E"])).
    vm_compute. right. left.
  - apply (proj1 (proj2 (shifts_dict_lookup scenario_succession))).
    vm_compute. intros H.
    apply elem_of_cons in H as [H | H]; [discriminate|].
    apply elem_of_cons in H as [H | H]; [discriminate | inversion H].
Defined.

(** X14. A run from the fresh schedule never raises [StopIteration]: the
    only exception it can end in is the [KeyError] of the succession check,
    and then an assignment has been committed whose shift id, taken from a
    cover row, is not in the shift table. *)
Theorem run_raises_only_key_error (inst : Instance) (e : exn) :
  verdict (greedy_schedule (init inst)) = inl e ->
  e = KeyError /\
  exists b r,
    b ∈ assignments (final (greedy_schedule (init inst))) /\
    r ∈ cover_requirements inst /\
    shift_id b = c_shift_id r /\
    ~ known_shift (init inst) (c_shift_id r).
Proof.
  intros Hv.
  pose proof (greedy_reachable inst _ (reach_init inst)) as Hreach.
  destruct (greedy_schedule (init inst)) as [ok st|e' st] eqn:Hg;
    [discriminate|].
  injection Hv as ->. unfold greedy_schedule in Hg.
  apply (fill_raise inst) in Hg as (-> & b & Hb & Hk).
  - split; [reflexivity|]. simpl in Hreach.
    destruct (reachable_origin inst st Hreach b Hb) as (s & r & _ & Hr & ->).
    exists (candidate s r), r. repeat split; auto.
    unfold known_shift in *.
    now rewrite (reachable_shifts_dict inst st Hreach) in Hk.
  - apply reach_init.
  - simpl. intros x Hx. now rewrite sort_by_weight_perm in Hx.
Qed.

Lemma run_raises_only_key_error_witness :
  KeyError = KeyError /\
  exists b r,
    b ∈ assignments (final (greedy_schedule (init scenario_unknown_shift))) /\
    r ∈ cover_requirements scenario_unknown_shift /\
    shift_id b = c_shift_id r /\
    ~ known_shift (init scenario_unknown_shift) (c_shift_id r).
Proof.
  apply (run_raises_only_key_error scenario_unknown_shift KeyError).
  reflexivity.
Defined.

(** ** First fit *)

Lemma is_valid_verdict_touched a sids st :
  verdict (is_valid_assignment a (touched sids st)) =
  verdict (is_valid_assignment a st).
Proof.
  revert st. induction sids as [|sid rest IH]; intros st; [reflexivity|].
  unfold touched in *. simpl. rewrite IH. apply is_valid_verdict_touch.
Qed.

Lemma touched_snoc sids sid st :
  sa_touch sid (touched sids st) = touched (sids ++ [sid]) st.
Proof. unfold touched. now rewrite foldl_app. Qed.

Lemma is_valid_final_touched a sids st :
  exists sids',
    final (is_valid_assignment a (touched sids st)) = touched sids' st.
Proof.
  destruct (is_valid_final a (touched sids st)) as [E | E]; rewrite E.
  - now exists sids.
  - exists (sids ++ [staff_id a]). apply touched_snoc.
Qed.

Lemma touched_assignments sids st :
  assignments (touched sids st) = assignments st.
Proof.
  revert st. induction sids as [|sid rest IH]; intros st; [reflexivity|].
  unfold touched in *. simpl. rewrite IH. apply touch_assignments.
Qed.

Lemma try_staff_first_fit d sh l1 s l2 needed sids st :
  0 < needed ->
  (forall x, x ∈ l1 ->
     verdict (is_valid_assignment (mkAssignment (id x) d sh) st) = inr false) ->
  verdict (is_valid_assignment (mkAssignment (id s) d sh) st) = inr true ->
  exists sids',
    try_staff d sh (l1 ++ s :: l2) needed (touched sids st) =
    try_staff d sh l2 (needed - 1)
      (commit (mkAssignment (id s) d sh) (touched sids' st)).
Proof.
  intros Hn. revert sids.
  induction l1 as [|x rest IH]; intros sids Hrej Hacc; simpl.
  - assert (E : (needed <=? 0) = false) by (apply Z.leb_gt; lia). rewrite E.
    pose proof (is_valid_verdict_touched (mkAssignment (id s) d sh) sids st)
      as Hv.
    destruct (is_valid_final_touched (mkAssignment (id s) d sh) sids st)
      as [sids' Hf].
    rewrite Hacc in Hv.
    destruct (is_valid_assignment _ (touched sids st)) as [[|] st1|e st1];
      try discriminate.
    simpl in Hf. subst st1. now exists sids'.
  - assert (E : (needed <=? 0) = false) by (apply Z.leb_gt; lia). rewrite E.
    pose proof (is_valid_verdict_touched (mkAssignment (id x) d sh) sids st)
      as Hv.
    destruct (is_valid_final_touched (mkAssignment (id x) d sh) sids st)
      as [sids' Hf].
    rewrite (Hrej x ltac:(left)) in Hv.
    destruct (is_valid_assignment _ (touched sids st)) as [[|] st1|e st1];
      try discriminate.
    simpl in Hf. subst st1. apply IH; [|exact Hacc].
    intros y Hy. apply Hrej. now right.
Qed.

(** X25. The staff loop is first fit: when a count is still needed, the
    candidates of the staff members at the head of the list are rejected
    and the candidate of the next one is accepted, the loop commits that
    candidate and goes on with the rest of the list and one less needed;
    the rejected candidates leave the lists of the schedule as they
    were. *)
Theorem staff_loop_first_fit
    (d : Z) (sh : string) (l1 l2 : list Staff) (s : Staff) (needed : Z)
    (st : Schedule) :
  0 < needed ->
  (forall x, x ∈ l1 ->
     verdict (is_valid_assignment (mkAssignment (id x) d sh) st) = inr false) ->
  verdict (is_valid_assignment (mkAssignment (id s) d sh) st) = inr true ->
  exists sids,
    try_staff d sh (l1 ++ s :: l2) needed st =
    try_staff d sh l2 (needed - 1)
      (commit (mkAssignment (id s) d sh) (touched sids st)) /\
    assignments (commit (mkAssignment (id s) d sh) (touched sids st)) =
      assignments st ++ [mkAssignment (id s) d sh].
Proof.
  intros Hn Hrej Hacc.
  destruct (try_staff_first_fit d sh l1 s l2 needed [] st Hn Hrej Hacc)
    as [sids Ht].
  exists sids. split; [exact Ht|]. simpl. now rewrite touched_assignments.
Qed.

Lemma staff_loop_first_fit_witness :
  exists sids,
    try_staff 0 "D"
      ([staff_S0] ++ staff_S1 2 :: []) 1 (init scenario_first_fit) =
    try_staff 0 "D" [] (1 - 1)
      (commit (mkAssignment "S1" 0 "D")
         (touched sids (init scenario_first_fit))) /\
    assignments (commit (mkAssignment "S1" 0 "D")
                   (touched sids (init scenario_first_fit))) =
      assignments (init scenario_first_fit) ++ [mkAssignment "S1" 0 "D"].
Proof.
  apply (staff_loop_first_fit 0 "D" [staff_S0] [] (staff_S1 2) 1
           (init scenario_first_fit)).
  - lia.
  - intros x Hx. apply list_elem_of_singleton in Hx. subst x.
    vm_compute. reflexivity.
  - vm_compute. reflexivity.
Defined.

(** ** The statistics of [main] *)

Lemma count_per_staff_snoc l a :
  count_per_staff (l ++ [a]) =
  <[staff_id a := default 0 (count_per_staff l !! staff_id a) + 1]>
    (count_per_staff l).
Proof. unfold count_per_staff. now rewrite foldl_app. Qed.

Lemma count_per_staff_lookup l sid :
  count_per_staff l !! sid =
  match by_staff sid l with
  | [] => None
  | _ :: _ => Some (Z.of_nat (length (by_staff sid l)))
  end.
Proof.
  induction l as [|a l IH] using rev_ind; [reflexivity|].
  rewrite count_per_staff_snoc. unfold by_staff in *.
  rewrite filter_app, filter_cons, filter_nil.
  destruct (decide (staff_id a = sid)) as [E | E].
  - subst sid. rewrite lookup_insert_eq, IH.
    destruct (filter _ l) as [|b bs]; simpl; [reflexivity|].
    rewrite length_app. simpl. f_equal. lia.
  - rewrite lookup_insert_ne by exact E. rewrite IH, app_nil_r. reflexivity.
Qed.

(** X15. The per-staff statistics [main] computes from the flat list have
    an entry exactly for the staff ids with an assignment, and the entry
    is the number of that staff member's assignments; on a schedule
    reachable by greedy fill it is the length of the engine's own per-staff
    list. *)
Theorem statistics_count_assignments (inst : Instance) (st : Schedule) (sid : string) :
  (count_per_staff (assignments st) !! sid = None <->
   by_staff sid (assignments st) = []) /\
  (forall n, count_per_staff (assignments st) !! sid = Some n ->
             n = Z.of_nat (length (by_staff sid (assignments st))) /\ 1 <= n) /\
  (reachable inst st ->
   forall n, count_per_staff (assignments st) !! sid = Some n ->
             n = Z.of_nat (length (sa_get sid st))).
Proof.
  rewrite count_per_staff_lookup. split; [|split].
  - destruct (by_staff sid (assignments st)); split; congruence.
  - intros n. destruct (by_staff sid (assignments st)); [discriminate|].
    intros [= <-]. simpl. split; [reflexivity | lia].
  - intros Hreach n.
    rewrite (cons_staff st (reachable_consistent inst st Hreach)).
    destruct (by_staff sid (assignments st)); [discriminate|].
    now intros [= <-].
Qed.

Lemma statistics_count_assignments_witness :
  2 = Z.of_nat (length (sa_get "S1" (final (greedy_schedule (init scenario3))))).
Proof.
  apply (proj2 (proj2 (statistics_count_assignments scenario3
                         (final (greedy_schedule (init scenario3))) "S1"))).
  - apply greedy_reachable, reach_init.
  - reflexivity.
Defined.

(** ** Fields of the instance the engine does not read *)

Lemma plain_touch sid st : plain (sa_touch sid st) = sa_touch sid (plain st).
Proof.
  unfold sa_touch. simpl. destruct (staff_assignments st !! sid); reflexivity.
Qed.

Lemma plain_commit a st : plain (commit a st) = commit a (plain st).
Proof. reflexivity. Qed.

Lemma succession_plain a st :
  succession_blocked a (plain st) = outcome_map plain (succession_blocked a st).
Proof.
  unfold succession_blocked. rewrite <- plain_touch.
  change (sa_get (staff_id a) (plain st)) with (sa_get (staff_id a) st).
  destruct (last (sa_get (staff_id a) st)) as [la|]; [|reflexivity].
  destruct (day la =? day a - 1); [|reflexivity].
  simpl shifts_dict. rewrite lookup_fmap.
  destruct (shifts_dict st !! shift_id la); reflexivity.
Qed.

Lemma is_valid_plain a st :
  is_valid_assignment a (plain st) =
  outcome_map plain (is_valid_assignment a st).
Proof.
  unfold is_valid_assignment.
  change (staff (instance_data (plain st))) with (staff (instance_data st)).
  destruct (next_staff (staff (instance_data st)) (staff_id a)) as [s|];
    [|reflexivity].
  change (day_off a (plain st)) with (day_off a st).
  destruct (day_off a st); [reflexivity|].
  assert (Hq : quota_blocked s a (plain st) =
               (fst (quota_blocked s a st), plain (snd (quota_blocked s a st)))).
  { unfold quota_blocked.
    change (sa_get (staff_id a) (plain st)) with (sa_get (staff_id a) st).
    destruct (shift_limits s !! shift_id a); simpl; [|reflexivity].
    now rewrite <- plain_touch. }
  rewrite Hq. destruct (quota_blocked s a st) as [blocked st1]. simpl.
  destruct blocked; [reflexivity|].
  rewrite succession_plain.
  destruct (succession_blocked a st1) as [[|] st2|e st2]; reflexivity.
Qed.

Lemma try_staff_plain d sh l needed st :
  try_staff d sh l needed (plain st) =
  outcome_map plain (try_staff d sh l needed st).
Proof.
  revert needed st. induction l as [|s rest IH]; intros needed st; simpl;
    [reflexivity|].
  destruct (needed <=? 0); [reflexivity|].
  rewrite is_valid_plain.
  destruct (is_valid_assignment _ st) as [[|] st1|e st1]; simpl;
    [|apply IH | reflexivity].
  rewrite <- plain_commit. apply IH.
Qed.

Lemma fill_plain reqs st :
  fill (map plain_cover reqs) (plain st) = outcome_map plain (fill reqs st).
Proof.
  revert st. induction reqs as [|r rest IH]; intros st; simpl; [reflexivity|].
  change (ds_get (c_day r, c_shift_id r) (plain st))
    with (ds_get (c_day r, c_shift_id r) st).
  destruct (_ <=? 0); [apply IH|].
  change (staff (plain_instance (instance_data st)))
    with (staff (instance_data st)).
  rewrite try_staff_plain.
  destruct (try_staff _ _ _ _ st) as [n st1|e st1]; simpl; [|reflexivity].
  destruct (0 <? n); [reflexivity | apply IH].
Qed.

Lemma insert_by_weight_plain x l :
  insert_by_weight (plain_cover x) (map plain_cover l) =
  map plain_cover (insert_by_weight x l).
Proof.
  induction l as [|y ys IH]; simpl; [reflexivity|].
  destruct (weight_under y <=? weight_under x); [reflexivity|].
  now rewrite IH.
Qed.

Lemma sort_by_weight_plain l :
  sort_by_weight (map plain_cover l) = map plain_cover (sort_by_weight l).
Proof.
  induction l as [|x xs IH]; simpl; [reflexivity|].
  now rewrite IH, insert_by_weight_plain.
Qed.

Lemma make_shifts_dict_plain l :
  make_shifts_dict (map plain_shift l) = plain_shift <$> make_shifts_dict l.
Proof.
  unfold make_shifts_dict.
  assert (H : forall m : gmap string Shift,
             foldl (fun m sh => <[sh_id sh := sh]> m) (plain_shift <$> m)
               (map plain_shift l) =
             plain_shift <$> foldl (fun m sh => <[sh_id sh := sh]> m) m l).
  { induction l as [|x xs IH]; intros m; simpl; [reflexivity|].
    rewrite <- IH. now rewrite fmap_insert. }
  rewrite <- H. now rewrite fmap_empty.
Qed.

Lemma greedy_plain inst :
  greedy_schedule (init (plain_instance inst)) =
  outcome_map plain (greedy_schedule (init inst)).
Proof.
  unfold greedy_schedule. simpl instance_data.
  change (cover_requirements (plain_instance inst))
    with (map plain_cover (cover_requirements inst)).
  rewrite sort_by_weight_plain, <- fill_plain.
  unfold plain, init. simpl. now rewrite make_shifts_dict_plain.
Qed.

(** X22. The engine never reads the horizon, the length of a shift or
    the over-coverage weight of a cover row: two instances that differ at
    most in these give the same result, the same sequence of assignments
    and the same indexes.  In particular the days are not checked against
    the horizon: a cover row on day 7 of an instance with horizon 3 is
    filled. *)
Theorem unread_instance_fields :
  (forall i1 i2,
      plain_instance i1 = plain_instance i2 ->
      let o1 := greedy_schedule (init i1) in
      let o2 := greedy_schedule (init i2) in
      verdict o1 = verdict o2 /\
      assignments (final o1) = assignments (final o2) /\
      staff_assignments (final o1) = staff_assignments (final o2) /\
      day_shift_assignments (final o1) = day_shift_assignments (final o2)) /\
  (exists st,
      greedy_schedule (init scenario_beyond_horizon) = Ret true st /\
      assignments st = [mkAssignment "S1" 7 "D"] /\
      horizon (instance_data st) = 3).
Proof.
  split.
  - intros i1 i2 E o1 o2.
    assert (Eo : outcome_map plain o1 = outcome_map plain o2)
      by (unfold o1, o2; now rewrite <- !greedy_plain, E).
    split; [|split; [|split]].
    + rewrite <- (verdict_outcome_map plain o1), Eo.
      apply verdict_outcome_map.
    + change (assignments (plain (final o1)) = assignments (plain (final o2))).
      now rewrite <- !final_outcome_map, Eo.
    + change (staff_assignments (plain (final o1)) =
              staff_assignments (plain (final o2))).
      now rewrite <- !final_outcome_map, Eo.
    + change (day_shift_assignments (plain (final o1)) =
              day_shift_assignments (plain (final o2))).
      now rewrite <- !final_outcome_map, Eo.
  - eexists. split; [vm_compute; reflexivity|]. split; reflexivity.
Qed.

Lemma unread_instance_fields_witness :
  verdict (greedy_schedule (init scenario_beyond_horizon)) =
  verdict (greedy_schedule (init
    (mkInstance 30 [mkShift "D" 60 []] [staff_S1 2] ∅ [mkCover 7 "D" 1 10 9]))).
Proof.
  apply (proj1 unread_instance_fields). reflexivity.
Defined.

(** ** A second run *)

Lemma fill_instance reqs st :
  instance_data (final (fill reqs st)) = instance_data st.
Proof.
  revert st. induction reqs as [|r rest IH]; intros st; simpl; [reflexivity|].
  destruct (_ <=? 0); [apply IH|].
  pose proof (try_staff_instance (c_day r) (c_shift_id r)
                (staff (instance_data st))
                (requirement r -
                 Z.of_nat (length (ds_get (c_day r, c_shift_id r) st))) st)
    as Ei.
  destruct (try_staff _ _ _ _ _) as [n st1|e st1]; simpl in Ei; [|exact Ei].
  destruct (0 <? n); [exact Ei|]. now rewrite IH.
Qed.

Lemma fill_covered reqs st :
  (forall r, r ∈ reqs -> covered st r) -> fill reqs st = Ret true st.
Proof.
  induction reqs as [|r rest IH]; intros Hall; simpl; [reflexivity|].
  pose proof (Hall r ltac:(left)) as Hr. unfold covered, key_of_cover in Hr.
  destruct (_ <=? 0) eqn:E; [|apply Z.leb_gt in E; lia].
  apply IH. intros x Hx. apply Hall. now right.
Qed.

(** X23. A successful run is final: greedy fill run again on the schedule
    it returned with true commits nothing and returns true with the same
    schedule. *)
Theorem second_run_after_success (st st' : Schedule) :
  greedy_schedule st = Ret true st' ->
  greedy_schedule st' = Ret true st'.
Proof.
  intros Hg. unfold greedy_schedule in *.
  pose proof (fill_instance
                (sort_by_weight (cover_requirements (instance_data st))) st)
    as Ei.
  rewrite Hg in Ei. simpl in Ei. rewrite Ei.
  apply fill_covered. exact (fill_true_covered _ _ _ Hg).
Qed.

Lemma second_run_after_success_witness :
  greedy_schedule (final (greedy_schedule (init scenario_max_shifts))) =
  Ret true (final (greedy_schedule (init scenario_max_shifts))).
Proof.
  apply (second_run_after_success (init scenario_max_shifts)). reflexivity.
Defined.

(** * Properties of the loader *)

(** ** Splitting on a character *)

Lemma has_char_cons sep c s :
  has_char sep (String c s) = Ascii.eqb sep c || has_char sep s.
Proof. reflexivity. Qed.

Lemma sep_free_cons sep c s :
  sep_free sep (String c s) <-> Ascii.eqb c sep = false /\ sep_free sep s.
Proof.
  unfold sep_free. rewrite has_char_cons, orb_false_iff, (Ascii.eqb_sym sep c).
  reflexivity.
Qed.

Lemma split_on_nonempty sep s : split_on sep s <> [].
Proof.
  destruct s as [|c rest]; simpl; [discriminate|].
  destruct (Ascii.eqb c sep); [discriminate|].
  destruct (split_on sep rest); discriminate.
Qed.

(** A piece holds no separator; the text is the first piece when there is
    no other, and otherwise the first piece, a separator and a text that
    splits into the other pieces. *)
Lemma split_on_inv sep s p ps :
  split_on sep s = p :: ps ->
  sep_free sep p /\
  match ps with
  | [] => s = p
  | _ :: _ => exists s', s = p +:+ String sep s' /\ split_on sep s' = ps
  end.
Proof.
  revert p ps. induction s as [|c rest IH]; intros p ps; simpl.
  { intros [= <- <-]. split; reflexivity. }
  destruct (Ascii.eqb c sep) eqn:Ec.
  - apply Ascii.eqb_eq in Ec. subst c. intros [= <- <-].
    split; [reflexivity|].
    pose proof (split_on_nonempty sep rest) as Hne.
    destruct (split_on sep rest) as [|q qs] eqn:Er; [contradiction|].
    exists rest. split; [reflexivity | exact Er].
  - destruct (split_on sep rest) as [|q qs] eqn:Er.
    { now destruct (split_on_nonempty sep rest). }
    intros [= <- <-]. destruct (IH q qs eq_refl) as [Hq Hrest].
    split; [apply sep_free_cons; auto|].
    destruct qs as [|q' qs'].
    + now subst rest.
    + destruct Hrest as (s' & -> & Hs'). exists s'. split; [reflexivity|exact Hs'].
Qed.

Lemma split_on_free sep p : sep_free sep p -> split_on sep p = [p].
Proof.
  induction p as [|c rest IH]; intros Hf; simpl; [reflexivity|].
  apply sep_free_cons in Hf as [Ec Hf]. rewrite Ec, (IH Hf). reflexivity.
Qed.

Lemma split_on_app sep p s :
  sep_free sep p ->
  split_on sep (p +:+ String sep s) = p :: split_on sep s.
Proof.
  induction p as [|c rest IH]; intros Hf; simpl.
  - now rewrite Ascii.eqb_refl.
  - apply sep_free_cons in Hf as [Ec Hf]. rewrite Ec, (IH Hf). reflexivity.
Qed.

Lemma split_on_pieces_free sep s : Forall (sep_free sep) (split_on sep s).
Proof.
  remember (split_on sep s) as l eqn:El. revert s El.
  induction l as [|p ps IH]; intros s El; constructor.
  - symmetry in El. now apply split_on_inv in El as [Hp _].
  - symmetry in El. apply split_on_inv in El as [_ Hrest].
    destruct ps as [|q qs]; [constructor|].
    destruct Hrest as (s' & _ & Hs'). now apply (IH s').
Qed.

Section LoaderLines.
Variable py_int : string -> option Z.

(** X16. A line of [SHIFTS] loads exactly when it is three comma-free
    fields joined by commas whose second field [int] accepts; the shift
    then has the first field as id and, as forbidden followers, nothing
    when the third field is empty and its pieces between [|] otherwise,
    none of which holds a [|] or a comma.  Any other line raises
    [ValueError]. *)
Theorem shift_line_loads (line : string) :
  (forall sh,
      parse_shift_line py_int line = Done sh <->
      exists a b c n,
        line = a +:+ String "," (b +:+ String "," c) /\
        sep_free "," a /\ sep_free "," b /\ sep_free "," c /\
        py_int b = Some n /\
        sh = mkShift a n
               (if String.eqb c EmptyString then [] else split_on "|" c)) /\
  (forall e, parse_shift_line py_int line = Fail e -> e = ValueError) /\
  (forall sh x,
      parse_shift_line py_int line = Done sh ->
      x ∈ forbidden_following sh ->
      sep_free "|" x /\ sep_free "," x).
Proof.
  assert (Hiff : forall sh,
      parse_shift_line py_int line = Done sh <->
      exists a b c n,
        line = a +:+ String "," (b +:+ String "," c) /\
        sep_free "," a /\ sep_free "," b /\ sep_free "," c /\
        py_int b = Some n /\
        sh = mkShift a n
               (if String.eqb c EmptyString then [] else split_on "|" c)).
  { intros sh. unfold parse_shift_line, to_int. split.
    - destruct (split_on "," line) as [|a [|b [|c [|x xs]]]] eqn:Es;
        try discriminate.
      apply split_on_inv in Es as (Ha & s1 & -> & Es).
      apply split_on_inv in Es as (Hb & s2 & -> & Es).
      apply split_on_inv in Es as (Hc & ->).
      destruct (py_int b) as [n|] eqn:Hn; [|discriminate].
      simpl. intros [= <-]. exists a, b, c, n. auto 10.
    - intros (a & b & c & n & -> & Ha & Hb & Hc & Hn & ->).
      rewrite (split_on_app _ _ _ Ha), (split_on_app _ _ _ Hb),
        (split_on_free _ _ Hc), Hn.
      reflexivity. }
  split; [exact Hiff|]. split.
  - intros e. unfold parse_shift_line, to_int.
    destruct (split_on "," line) as [|a [|b [|c [|x xs]]]];
      try (now intros [= <-]).
    destruct (py_int b); simpl; [discriminate | now intros [= <-]].
  - intros sh x Hsh Hx.
    apply Hiff in Hsh as (a & b & c & n & _ & _ & _ & Hc & _ & ->).
    simpl in Hx. destruct (String.eqb c EmptyString); [inversion Hx|].
    pose proof (split_on_pieces_free "|" c) as Hall.
    rewrite Forall_forall in Hall. split; [now apply Hall|].
    clear Hall. revert x Hx Hc. generalize "|"%char. intros sep.
    induction c as [|ch rest IH]; intros x Hx Hc; simpl in Hx.
    + apply list_elem_of_singleton in Hx. now subst x.
    + apply sep_free_cons in Hc as [Ech Hc].
      destruct (Ascii.eqb ch sep).
      * apply elem_of_cons in Hx as [-> | Hx]; [reflexivity | now apply IH].
      * pose proof (split_on_nonempty sep rest) as Hne.
        destruct (split_on sep rest) as [|q qs]; [contradiction|].
        apply elem_of_cons in Hx as [-> | Hx].
        -- apply sep_free_cons. split; [exact Ech|]. apply IH; [left | exact Hc].
        -- apply IH; [now right | exact Hc].
Qed.

End LoaderLines.

Lemma shift_line_loads_witness :
  parse_shift_line decimal_int "L,480,E|N" = Done (mkShift "L" 480 ["E"; "N"]).
Proof.
  apply (proj1 (shift_line_loads decimal_int "L,480,E|N")).
  exists "L", "480", "E|N", 480. repeat split; reflexivity.
Defined.

Lemma split_on_append sep s t :
  split_on sep (s +:+ String sep t) = split_on sep s ++ split_on sep t.
Proof.
  induction s as [|c rest IH]; simpl.
  - now rewrite Ascii.eqb_refl.
  - destruct (Ascii.eqb c sep); [now rewrite IH|].
    rewrite IH. pose proof (split_on_nonempty sep rest) as Hne.
    destruct (split_on sep rest); [contradiction | reflexivity].
Qed.

Section StaffLine.
Variable py_int : string -> option Z.

Lemma int_at_done parts i n :
  int_at py_int parts i = Done n <-> parts !! i ≫= py_int = Some n.
Proof.
  unfold int_at, to_int. destruct (parts !! i) as [x|]; simpl.
  - destruct (py_int x); split; congruence.
  - split; discriminate.
Qed.

Lemma int_at_app parts more i :
  (i < length parts)%nat ->
  int_at py_int (parts ++ more) i = int_at py_int parts i.
Proof. intros Hi. unfold int_at. now rewrite lookup_app_l. Qed.

(** X17. A line of [STAFF] that loads has at least eight comma-separated
    fields: the first is the id, the second holds the quota items, the
    third to the eighth are read by [int] into [max_shifts],
    [max_total_minutes], [min_total_minutes], [max_consecutive_shifts],
    [min_consecutive_shifts] and [min_consecutive_days_off], and
    [max_weekends] is present exactly when there is a ninth field, which it
    is read from.  A line of one field raises [IndexError], and whatever
    follows a ninth field is ignored. *)
Theorem staff_line_loads (line : string) :
  (forall st,
      parse_staff_line py_int line = Done st ->
      let parts := split_on "," line in
      (8 <= length parts)%nat /\
      parts !! 0%nat = Some (id st) /\
      (exists limits,
          parts !! 1%nat = Some limits /\
          parse_limits py_int (split_on "|" limits) ∅ =
            Done (shift_limits st)) /\
      parts !! 2%nat ≫= py_int = Some (max_shifts st) /\
      parts !! 3%nat ≫= py_int = Some (max_total_minutes st) /\
      parts !! 4%nat ≫= py_int = Some (min_total_minutes st) /\
      parts !! 5%nat ≫= py_int = Some (max_consecutive_shifts st) /\
      parts !! 6%nat ≫= py_int = Some (min_consecutive_shifts st) /\
      parts !! 7%nat ≫= py_int = Some (min_consecutive_days_off st) /\
      max_weekends st =
        (if (8 <? length parts)%nat then parts !! 8%nat ≫= py_int
         else None)) /\
  (sep_free "," line -> parse_staff_line py_int line = Fail IndexError) /\
  (forall more,
      (9 <= length (split_on "," line))%nat ->
      parse_staff_line py_int (line +:+ String "," more) =
      parse_staff_line py_int line).
Proof.
  split; [|split].
  - intros st. unfold parse_staff_line. simpl.
    set (parts := split_on "," line).
    pose proof (split_on_nonempty "," line) as Hne. fold parts in Hne.
    destruct (parts !! 1%nat) as [limits|] eqn:H1; [|discriminate].
    destruct (parse_limits py_int (split_on "|" limits) ∅) as [m|] eqn:Hm;
      [|discriminate].
    simpl.
    destruct (int_at py_int parts 2) as [v2|] eqn:E2; [|discriminate].
    destruct (int_at py_int parts 3) as [v3|] eqn:E3; [|discriminate].
    destruct (int_at py_int parts 4) as [v4|] eqn:E4; [|discriminate].
    destruct (int_at py_int parts 5) as [v5|] eqn:E5; [|discriminate].
    destruct (int_at py_int parts 6) as [v6|] eqn:E6; [|discriminate].
    destruct (int_at py_int parts 7) as [v7|] eqn:E7; [|discriminate].
    simpl.
    apply int_at_done in E2, E3, E4, E5, E6, E7.
    assert (Hlen : (8 <= length parts)%nat).
    { destruct (parts !! 7%nat) as [x|] eqn:H7; [|discriminate].
      apply lookup_lt_Some in H7. lia. }
    assert (H0 : parts !! 0%nat = Some (default EmptyString (parts !! 0%nat))).
    { destruct parts; [contradiction | reflexivity]. }
    destruct (8 <? length parts)%nat eqn:E8.
    + destruct (int_at py_int parts 8) as [v8|] eqn:E9; [|discriminate].
      apply int_at_done in E9. simpl. intros [= <-]. simpl.
      split; [exact Hlen|]. split; [exact H0|].
      split; [exists limits; auto|]. auto 10.
    + intros [= <-]. simpl.
      split; [exact Hlen|]. split; [exact H0|].
      split; [exists limits; auto|]. auto 10.
  - intros Hf. unfold parse_staff_line. now rewrite (split_on_free _ _ Hf).
  - intros more Hlen. unfold parse_staff_line.
    rewrite split_on_append. set (parts := split_on "," line) in *.
    set (extra := split_on "," more).
    rewrite !(lookup_app_l parts extra) by lia.
    rewrite !int_at_app by lia.
    assert (E1 : (8 <? length (parts ++ extra))%nat = true)
      by (apply Nat.ltb_lt; rewrite length_app; lia).
    assert (E2 : (8 <? length parts)%nat = true) by (apply Nat.ltb_lt; lia).
    now rewrite E1, E2.
Qed.

End StaffLine.

Lemma staff_line_loads_witness :
  parse_staff_line decimal_int "S1" = Fail IndexError /\
  parse_staff_line decimal_int "S2,,8,800,0,3,1,1,1,x,y" =
  parse_staff_line decimal_int "S2,,8,800,0,3,1,1,1,x".
Proof.
  split.
  - apply (proj1 (proj2 (staff_line_loads decimal_int "S1"))). reflexivity.
  - apply (proj2 (proj2 (staff_line_loads decimal_int
                           "S2,,8,800,0,3,1,1,1,x")) "y").
    vm_compute. lia.
Defined.

(** ** The quota items and the days off *)

Lemma has_char_app sep k v : has_char sep (k +:+ String sep v) = true.
Proof.
  induction k as [|c rest IH].
  - unfold has_char. simpl. now rewrite Ascii.eqb_refl.
  - change (has_char sep (String c (rest +:+ String sep v)) = true).
    rewrite has_char_cons, IH. apply orb_true_r.
Qed.

Lemma split_quota_item k v :
  sep_free "=" k -> sep_free "=" v -> split_on "=" (quota_item k v) = [k; v].
Proof.
  intros Hk Hv. unfold quota_item.
  now rewrite (split_on_app _ _ _ Hk), (split_on_free _ _ Hv).
Qed.

Lemma split_two_inv sep item k v :
  split_on sep item = [k; v] ->
  item = k +:+ String sep v /\ sep_free sep k /\ sep_free sep v.
Proof.
  intros Hs. apply split_on_inv in Hs as (Hk & s' & -> & Hs).
  apply split_on_inv in Hs as (Hv & ->). auto.
Qed.

Section QuotaItems.
Variable py_int : string -> option Z.

Lemma parse_limits_keeps items acc m k :
  parse_limits py_int items acc = Done m ->
  (forall item v, item ∈ items -> item <> quota_item k v) ->
  m !! k = acc !! k.
Proof.
  revert acc. induction items as [|item rest IH]; intros acc; simpl.
  { now intros [= <-]. }
  intros Hp Hno.
  assert (Hrest : forall item' v, item' ∈ rest -> item' <> quota_item k v)
    by (intros item' v Hin; apply Hno; now right).
  destruct (has_char "=" item); [|now apply IH].
  destruct (split_on "=" item) as [|shift [|max_count [|x xs]]] eqn:Es;
    try discriminate.
  unfold to_int in Hp. destruct (py_int max_count) as [n|]; [|discriminate].
  simpl in Hp. rewrite (IH _ Hp Hrest).
  apply lookup_insert_ne. intros ->.
  apply split_two_inv in Es as (-> & _).
  apply (Hno _ max_count ltac:(left)). reflexivity.
Qed.

Lemma parse_limits_origin items acc m k n :
  parse_limits py_int items acc = Done m ->
  m !! k = Some n ->
  acc !! k = Some n \/
  exists v,
    quota_item k v ∈ items /\ sep_free "=" k /\ sep_free "=" v /\
    py_int v = Some n.
Proof.
  revert acc. induction items as [|item rest IH]; intros acc; simpl.
  { intros [= <-] Hk. now left. }
  intros Hp Hk.
  assert (Hstep : forall acc', parse_limits py_int rest acc' = Done m ->
            acc' !! k = Some n \/
            exists v, quota_item k v ∈ item :: rest /\ sep_free "=" k /\
                      sep_free "=" v /\ py_int v = Some n).
  { intros acc' Hp'. destruct (IH acc' Hp' Hk) as [Ha | (v & Hin & Hv)];
      [now left|]. right. exists v. split; [now right | exact Hv]. }
  destruct (has_char "=" item); [|now apply Hstep].
  destruct (split_on "=" item) as [|shift [|max_count [|x xs]]] eqn:Es;
    try discriminate.
  unfold to_int in Hp.
  destruct (py_int max_count) as [n'|] eqn:Hn; [|discriminate].
  simpl in Hp. destruct (Hstep _ Hp) as [Ha | Hex]; [|now right].
  destruct (decide (shift = k)) as [-> | Hne].
  - rewrite lookup_insert_eq in Ha. injection Ha as ->.
    apply split_two_inv in Es as (-> & Hfk & Hfv).
    right. exists max_count. split; [left|]; auto.
  - rewrite lookup_insert_ne in Ha by exact Hne. now left.
Qed.

Lemma parse_limits_last pre post acc m k v :
  parse_limits py_int (pre ++ quota_item k v :: post) acc = Done m ->
  sep_free "=" k -> sep_free "=" v ->
  (forall item v', item ∈ post -> item <> quota_item k v') ->
  m !! k = py_int v.
Proof.
  intros Hp Hk Hv Hpost. revert acc Hp.
  induction pre as [|item rest IH]; intros acc; simpl.
  - unfold quota_item at 1. rewrite has_char_app.
    rewrite (split_quota_item k v Hk Hv). unfold to_int.
    destruct (py_int v) as [n|]; [|discriminate]. simpl. intros Hp.
    rewrite (parse_limits_keeps _ _ _ k Hp Hpost). apply lookup_insert_eq.
  - destruct (has_char "=" item); [|apply IH].
    destruct (split_on "=" item) as [|shift [|max_count [|x xs]]];
      try discriminate.
    unfold to_int. destruct (py_int max_count); [|discriminate].
    simpl. apply IH.
Qed.

Lemma parse_limits_fail items acc e :
  parse_limits py_int items acc = Fail e -> e = ValueError.
Proof.
  revert acc. induction items as [|item rest IH]; intros acc; simpl;
    [discriminate|].
  destruct (has_char "=" item); [|apply IH].
  destruct (split_on "=" item) as [|shift [|max_count [|x xs]]];
    try (now intros [= <-]).
  unfold to_int. destruct (py_int max_count); simpl;
    [apply IH | now intros [= <-]].
Qed.

Lemma parse_limits_two_signs items acc item :
  item ∈ items -> (2 < length (split_on "=" item))%nat ->
  parse_limits py_int items acc = Fail ValueError.
Proof.
  intros Hin Hlen. revert acc.
  induction items as [|x rest IH]; intros acc; [inversion Hin|]. simpl.
  apply elem_of_cons in Hin as [<- | Hin].
  - assert (Hhas : has_char "=" item = true).
    { destruct (has_char "=" item) eqn:E; [reflexivity|].
      rewrite (split_on_free _ _ E) in Hlen. simpl in Hlen. lia. }
    rewrite Hhas.
    destruct (split_on "=" item) as [|a [|b [|c cs]]]; simpl in Hlen;
      try lia; reflexivity.
  - specialize (IH Hin).
    destruct (has_char "=" x); [|apply IH].
    destruct (split_on "=" x) as [|a [|b [|c cs]]]; try reflexivity.
    unfold to_int. destruct (py_int b); simpl; [apply IH | reflexivity].
Qed.

(** X18. The quota mapping of a [STAFF] line comes from the items [k=v]
    of the second field: every cap is the [int] of the value of such an
    item, the last item of a shift id wins, and an item without [=] is
    skipped.  The only failure is a [ValueError], raised in particular
    when an item holds more than one [=]. *)
Theorem quota_items_load (items : list string) :
  (forall m k n,
      parse_limits py_int items ∅ = Done m -> m !! k = Some n ->
      exists v,
        quota_item k v ∈ items /\ sep_free "=" k /\ sep_free "=" v /\
        py_int v = Some n) /\
  (forall m pre post k v,
      items = pre ++ quota_item k v :: post ->
      parse_limits py_int items ∅ = Done m ->
      sep_free "=" k -> sep_free "=" v ->
      (forall item v', item ∈ post -> item <> quota_item k v') ->
      m !! k = py_int v) /\
  (forall item acc,
      sep_free "=" item ->
      parse_limits py_int (item :: items) acc = parse_limits py_int items acc) /\
  (forall e, parse_limits py_int items ∅ = Fail e -> e = ValueError) /\
  (forall item,
      item ∈ items -> (2 < length (split_on "=" item))%nat ->
      parse_limits py_int items ∅ = Fail ValueError).
Proof.
  split; [|split; [|split; [|split]]].
  - intros m k n Hp Hk.
    destruct (parse_limits_origin _ _ _ _ _ Hp Hk) as [Hempty | Hex];
      [|exact Hex].
    rewrite lookup_empty in Hempty. discriminate.
  - intros m pre post k v -> Hp Hk Hv Hpost.
    now apply (parse_limits_last pre post ∅).
  - intros item acc Hf. simpl. unfold sep_free in Hf. now rewrite Hf.
  - intros e. apply parse_limits_fail.
  - intros item Hin Hlen. now apply (parse_limits_two_signs items ∅ item).
Qed.

End QuotaItems.

Lemma quota_items_load_witness :
  (exists m, parse_limits decimal_int ["E=2"; "x"; "E=5"] ∅ = Done m /\
             m !! "E" = decimal_int "5") /\
  parse_limits decimal_int ["E=2"; "L=1=3"] ∅ = Fail ValueError.
Proof.
  split.
  - eexists. split; [reflexivity|].
    apply (proj1 (proj2 (quota_items_load decimal_int ["E=2"; "x"; "E=5"]))
             _ ["E=2"; "x"] [] "E" "5");
      [reflexivity | reflexivity | reflexivity | reflexivity|].
    intros item v' Hin. inversion Hin.
  - apply (proj2 (proj2 (proj2 (proj2
             (quota_items_load decimal_int ["E=2"; "L=1=3"])))) "L=1=3").
    + right. left.
    + vm_compute. lia.
Defined.

Section DaysOff.
Variable py_int : string -> option Z.

Lemma load_all_ints days ds :
  load_all (to_int py_int) days = Done ds <->
  Forall2 (fun s n => py_int s = Some n) days ds.
Proof.
  revert ds. induction days as [|x xs IH]; intros ds; simpl.
  - split; [intros [= <-]; constructor | intros H; inversion H; reflexivity].
  - unfold to_int at 1. destruct (py_int x) as [n|] eqn:Hn; simpl.
    + destruct (load_all (to_int py_int) xs) as [ys|e] eqn:Hl; simpl.
      * split.
        -- intros [= <-]. constructor; [exact Hn | now apply IH].
        -- intros H. inversion H as [|? n' ? ys' Hn' Hrest]; subst.
           apply IH in Hrest. congruence.
      * split; [discriminate|]. intros H.
        inversion H as [|? n' ? ys' Hn' Hrest]; subst.
        apply IH in Hrest. discriminate.
    + split; [discriminate|]. intros H.
      inversion H as [|? n' ? ys' Hn' Hrest]; subst. congruence.
Qed.

Lemma load_all_ints_fail days e :
  load_all (to_int py_int) days = Fail e -> e = ValueError.
Proof.
  induction days as [|x xs IH]; simpl; [discriminate|].
  unfold to_int at 1. destruct (py_int x); simpl; [|now intros [= <-]].
  destruct (load_all (to_int py_int) xs); simpl; [discriminate|].
  intros [= <-]. now apply IH.
Qed.

Lemma parse_days_off_keeps lines acc m sid :
  parse_days_off py_int lines acc = Done m ->
  (forall line, line ∈ lines -> first_field line <> sid) ->
  m !! sid = acc !! sid.
Proof.
  revert acc. induction lines as [|line rest IH]; intros acc; simpl.
  { now intros [= <-]. }
  intros Hp Hno.
  pose proof (Hno line ltac:(left)) as Hline. unfold first_field in Hline.
  destruct (split_on "," line) as [|staff_id days]; [discriminate|].
  destruct (load_all (to_int py_int) days) as [ds|]; [|discriminate].
  simpl in Hp, Hline.
  rewrite (IH _ Hp) by (intros l Hl; apply Hno; now right).
  now apply lookup_insert_ne.
Qed.

Lemma parse_days_off_last pre line post acc m :
  parse_days_off py_int (pre ++ line :: post) acc = Done m ->
  (forall l, l ∈ post -> first_field l <> first_field line) ->
  exists ds,
    Forall2 (fun s n => py_int s = Some n) (tail (split_on "," line)) ds /\
    m !! first_field line = Some ds.
Proof.
  intros Hp Hpost. revert acc Hp.
  induction pre as [|x rest IH]; intros acc; simpl.
  - unfold first_field in *.
    destruct (split_on "," line) as [|staff_id days]; [discriminate|].
    destruct (load_all (to_int py_int) days) as [ds|] eqn:Hl; [|discriminate].
    simpl in *. intros Hp. exists ds. split; [now apply load_all_ints|].
    rewrite (parse_days_off_keeps _ _ _ staff_id Hp Hpost).
    apply lookup_insert_eq.
  - destruct (split_on "," x) as [|staff_id days]; [discriminate|].
    destruct (load_all (to_int py_int) days); [|discriminate].
    simpl. apply IH.
Qed.

Lemma parse_days_off_fail lines acc e :
  parse_days_off py_int lines acc = Fail e -> e = ValueError.
Proof.
  revert acc. induction lines as [|line rest IH]; intros acc; simpl;
    [discriminate|].
  destruct (split_on "," line) as [|staff_id days]; [now intros [= <-]|].
  destruct (load_all (to_int py_int) days) as [ds|e'] eqn:Hl; simpl.
  - apply IH.
  - intros [= <-]. now apply (load_all_ints_fail days).
Qed.

(** X19. The days off are loaded line by line: the days of a staff id
    are the fields after the first of the last line that starts with that
    id, each read by [int] (none when the line has only the id); a staff
    id that starts no line has no entry; the only failure is the
    [ValueError] of [int]. *)
Theorem days_off_lines_load (lines : list string) :
  (forall m pre line post,
      lines = pre ++ line :: post ->
      parse_days_off py_int lines ∅ = Done m ->
      (forall l, l ∈ post -> first_field l <> first_field line) ->
      exists ds,
        Forall2 (fun s n => py_int s = Some n) (tail (split_on "," line)) ds /\
        m !! first_field line = Some ds) /\
  (forall m sid,
      parse_days_off py_int lines ∅ = Done m ->
      (forall line, line ∈ lines -> first_field line <> sid) ->
      m !! sid = None) /\
  (forall e, parse_days_off py_int lines ∅ = Fail e -> e = ValueError).
Proof.
  split; [|split].
  - intros m pre line post -> Hp Hpost.
    now apply (parse_days_off_last pre line post ∅).
  - intros m sid Hp Hno.
    rewrite (parse_days_off_keeps _ _ _ sid Hp Hno). apply lookup_empty.
  - intros e. apply parse_days_off_fail.
Qed.

End DaysOff.

Lemma days_off_lines_load_witness :
  exists m ds,
    parse_days_off decimal_int ["S1,4"; "S2"; "S1,0,1"] ∅ = Done m /\
    Forall2 (fun s n => decimal_int s = Some n) ["0"; "1"] ds /\
    m !! "S1" = Some ds.
Proof.
  eexists.
  destruct (proj1 (days_off_lines_load decimal_int ["S1,4"; "S2"; "S1,0,1"])
              _ ["S1,4"; "S2"] "S1,0,1" [] eq_refl eq_refl) as (ds & Hds & Hm).
  - intros l Hl. inversion Hl.
  - exists ds. split; [reflexivity|]. split; [exact Hds | exact Hm].
Defined.

(** ** The lines of a section *)

Lemma lstrip_head s :
  lstrip s = EmptyString \/
  exists c r, lstrip s = String c r /\ is_space c = false.
Proof.
  induction s as [|c rest IH]; simpl; [now left|].
  destruct (is_space c) eqn:E; [exact IH|]. right. eauto.
Qed.

Lemma rstrip_head c r :
  is_space c = false -> exists r', rstrip (String c r) = String c r'.
Proof.
  intros E. simpl. rewrite E. destruct (rstrip r); eauto.
Qed.

Lemma rstrip_cons c r :
  rstrip (String c r) =
  match rstrip r with
  | EmptyString => if is_space c then EmptyString else String c EmptyString
  | x => String c x
  end.
Proof. reflexivity. Qed.

Lemma rstrip_idem s : rstrip (rstrip s) = rstrip s.
Proof.
  induction s as [|c rest IH]; [reflexivity|].
  rewrite (rstrip_cons c rest).
  remember (rstrip rest) as t eqn:Et. destruct t as [|d r'].
  - destruct (is_space c) eqn:E; [reflexivity|].
    rewrite rstrip_cons. simpl. now rewrite E.
  - rewrite rstrip_cons, IH. reflexivity.
Qed.

Lemma strip_idem s : strip (strip s) = strip s.
Proof.
  unfold strip.
  destruct (lstrip_head s) as [-> | (c & r & -> & Ec)]; [reflexivity|].
  destruct (rstrip_head c r Ec) as [r' Er]. rewrite Er.
  simpl lstrip. rewrite Ec. rewrite <- Er. apply rstrip_idem.
Qed.

Lemma lstrip_free sep s : sep_free sep s -> sep_free sep (lstrip s).
Proof.
  induction s as [|c rest IH]; intros Hf; simpl; [exact Hf|].
  destruct (is_space c); [|exact Hf].
  apply sep_free_cons in Hf as [_ Hf]. auto.
Qed.

Lemma rstrip_free sep s : sep_free sep s -> sep_free sep (rstrip s).
Proof.
  induction s as [|c rest IH]; intros Hf; simpl; [exact Hf|].
  apply sep_free_cons in Hf as [Ec Hf]. specialize (IH Hf).
  destruct (rstrip rest) as [|d r'].
  - destruct (is_space c); [reflexivity|]. apply sep_free_cons. auto.
  - apply sep_free_cons. auto.
Qed.

Lemma data_lines_elem section_content l :
  l ∈ data_lines section_content <->
  exists raw,
    raw ∈ split_on newline section_content /\
    l = strip raw /\ strip raw <> EmptyString /\
    String.prefix "#" raw = false.
Proof.
  unfold data_lines. rewrite list_elem_of_In, in_map_iff. split.
  - intros (raw & <- & Hin). apply filter_In in Hin as [Hin Hc].
    apply andb_true_iff in Hc as [H1 H2].
    apply negb_true_iff in H1, H2. apply String.eqb_neq in H1.
    exists raw. split; [now apply list_elem_of_In | auto].
  - intros (raw & Hin & -> & Hne & Hp). exists raw. split; [reflexivity|].
    apply filter_In. split; [now apply list_elem_of_In|].
    apply andb_true_iff. split; apply negb_true_iff; [|exact Hp].
    now apply String.eqb_neq.
Qed.

(** X20. The data lines of a section are the stripped lines that are not
    blank and whose raw text does not start with [#]: a data line is never
    empty, has no white space around it and holds no newline.  The test
    for [#] is on the raw line, so a comment behind white space is kept as
    a data line that starts with [#]. *)
Theorem data_lines_kept (section_content : string) :
  (forall l,
      l ∈ data_lines section_content <->
      exists raw,
        raw ∈ split_on newline section_content /\
        l = strip raw /\ strip raw <> EmptyString /\
        String.prefix "#" raw = false) /\
  (forall l,
      l ∈ data_lines section_content ->
      l <> EmptyString /\ strip l = l /\ sep_free newline l) /\
  (forall raw,
      raw ∈ split_on newline section_content ->
      String.prefix "#" raw = false ->
      String.prefix "#" (strip raw) = true ->
      strip raw ∈ data_lines section_content).
Proof.
  split; [apply data_lines_elem|]. split.
  - intros l Hl. apply data_lines_elem in Hl as (raw & Hin & -> & Hne & _).
    split; [exact Hne|]. split; [apply strip_idem|].
    unfold strip. apply rstrip_free, lstrip_free.
    pose proof (split_on_pieces_free newline section_content) as Hall.
    rewrite Forall_forall in Hall. now apply Hall.
  - intros raw Hin Hraw Hstrip. apply data_lines_elem.
    exists raw. split; [exact Hin|]. split; [reflexivity|].
    split; [|exact Hraw]. intros E. rewrite E in Hstrip. discriminate.
Qed.

Lemma data_lines_kept_witness :
  "# note" ∈ data_lines "D,480,
  # note".
Proof.
  apply (proj2 (proj2 (data_lines_kept "D,480,
  # note")) "  # note");
    [vm_compute; right; left | reflexivity | reflexivity].
Defined.

(** ** The sections of a file *)

Lemma append_cons c (a b : string) : String c a +:+ b = String c (a +:+ b).
Proof. reflexivity. Qed.

Lemma append_assoc_str (a b c : string) : (a +:+ b) +:+ c = a +:+ (b +:+ c).
Proof.
  induction a as [|x a IH]; [reflexivity|].
  now rewrite !append_cons, IH.
Qed.

Lemma prefix_spec p s :
  String.prefix p s = true <-> exists t, s = p +:+ t.
Proof.
  revert s. induction p as [|a p IH]; intros s.
  - split; [intros _; exists s; reflexivity | intros _; now destruct s].
  - destruct s as [|b s]; simpl;
      [split; [discriminate | intros [t Ht]; discriminate]|].
    destruct (ascii_dec a b) as [<- | Hne].
    + rewrite IH. split; intros [t Ht]; exists t.
      * now rewrite append_cons, Ht.
      * rewrite append_cons in Ht. now injection Ht.
    + split; [discriminate|]. intros [t Ht].
      rewrite append_cons in Ht. congruence.
Qed.

Lemma occurs_cons pat c s :
  occurs pat (String c s) ->
  String.prefix pat (String c s) = true \/ occurs pat s.
Proof.
  intros (pre & post & E). destruct pre as [|x pre].
  - left. apply prefix_spec. exists post. exact E.
  - right. rewrite append_cons in E. injection E as _ E.
    exists pre, post. exact E.
Qed.

Lemma not_occurs_empty pat : pat <> EmptyString -> ~ occurs pat EmptyString.
Proof.
  intros Hne (pre & post & E).
  destruct pre; [|discriminate]. destruct pat; [contradiction | discriminate].
Qed.

(** The first piece is the beginning of the text. *)
Lemma split_str_first pat s :
  exists p ps t, split_str pat 0 s = p :: ps /\ s = p +:+ t.
Proof.
  induction s as [|c rest IH].
  - exists EmptyString, [], EmptyString. split; reflexivity.
  - cbn [split_str].
    destruct (String.prefix pat (String c rest)).
    + eexists EmptyString, _, _. split; reflexivity.
    + destruct IH as (p & ps & t & -> & Ht).
      exists (String c p), ps, t. split; [reflexivity|].
      now rewrite append_cons, <- Ht.
Qed.

(** No piece holds the pattern. *)
Lemma split_str_no_occurrence pat skip s p :
  pat <> EmptyString -> p ∈ split_str pat skip s -> ~ occurs pat p.
Proof.
  intros Hpat. revert skip p. induction s as [|c rest IH]; intros skip p Hp.
  - destruct skip; simpl in Hp; apply list_elem_of_singleton in Hp; subst p;
      now apply not_occurs_empty.
  - cbn [split_str] in Hp. destruct skip as [|k]; [|now apply (IH k)].
    destruct (String.prefix pat (String c rest)) eqn:Epre.
    + apply elem_of_cons in Hp as [-> | Hp];
        [now apply not_occurs_empty | now apply (IH _ _ Hp)].
    + destruct (split_str_first pat rest) as (q & qs & t & Eq & Ht).
      rewrite Eq in Hp.
      apply elem_of_cons in Hp as [-> | Hp].
      * intros Hocc. apply occurs_cons in Hocc as [Hpre | Hocc].
        -- apply prefix_spec in Hpre as [u Hu].
           assert (String.prefix pat (String c rest) = true); [|congruence].
           apply prefix_spec. exists (u +:+ t).
           rewrite <- append_assoc_str, <- Hu, Ht. reflexivity.
        -- apply (IH 0%nat q); [rewrite Eq; left | exact Hocc].
      * apply (IH 0%nat p). rewrite Eq. now right.
Qed.

(** A text without the pattern is one piece. *)
Lemma split_str_whole pat s :
  ~ occurs pat s -> split_str pat 0 s = [s].
Proof.
  induction s as [|c rest IH]; intros Hno; [reflexivity|].
  cbn [split_str].
  destruct (String.prefix pat (String c rest)) eqn:Epre.
  - exfalso. apply Hno. apply prefix_spec in Epre as [t Ht].
    exists EmptyString, t. exact Ht.
  - rewrite IH; [reflexivity|].
    intros (pre & post & E). apply Hno.
    exists (String c pre), post. now rewrite append_cons, E.
Qed.

Lemma lstrip_suffix s : exists pre, s = pre +:+ lstrip s.
Proof.
  induction s as [|c rest IH]; [exists EmptyString; reflexivity|]. simpl.
  destruct (is_space c); [|exists EmptyString; reflexivity].
  destruct IH as [pre Hpre]. exists (String c pre).
  now rewrite append_cons, <- Hpre.
Qed.

Lemma rstrip_prefix s : exists post, s = rstrip s +:+ post.
Proof.
  induction s as [|c rest IH]; [exists EmptyString; reflexivity|].
  rewrite rstrip_cons. destruct IH as [post Hpost].
  destruct (rstrip rest) as [|d r'].
  - destruct (is_space c).
    + exists (String c rest). reflexivity.
    + exists rest. reflexivity.
  - exists post. now rewrite append_cons, <- Hpost.
Qed.

Lemma split_once_prefix sep s :
  exists t, s = fst (split_once sep s) +:+ t.
Proof.
  induction s as [|c rest IH]; [exists EmptyString; reflexivity|]. simpl.
  destruct (Ascii.eqb c sep).
  - exists (String c rest). reflexivity.
  - destruct IH as [t Ht]. destruct (split_once sep rest) as [p r].
    exists t. simpl fst in *. now rewrite append_cons, <- Ht.
Qed.

(** The name of a section is a part of the section. *)
Lemma section_name_inside section :
  exists pre post,
    section = pre +:+ fst (split_once newline (strip section)) +:+ post.
Proof.
  destruct (lstrip_suffix section) as [pre Hpre].
  destruct (rstrip_prefix (lstrip section)) as [post Hpost].
  destruct (split_once_prefix newline (strip section)) as [t Ht].
  exists pre, (t +:+ post).
  assert (E : section =
              pre +:+ (fst (split_once newline (strip section)) +:+ t) +:+ post).
  { rewrite <- Ht. unfold strip. now rewrite <- Hpost. }
  rewrite E at 1. now rewrite append_assoc_str.
Qed.

(** X21. The sections are the pieces of the text after the occurrences
    of [SECTION_], so no section, and no section name, holds that text: the
    branch for the name [SECTION_DAYS_OFF] is never taken (the days off
    are stored by the branch for [DAYS_OFF]).  A text without [SECTION_]
    has no section, and the loader returns the empty dictionary for it,
    whatever it holds. *)
Theorem section_names (py_int : string -> option Z) (content : string) :
  (forall section,
      section ∈ tail (split_str "SECTION_" 0 content) ->
      ~ occurs "SECTION_" section /\
      ~ occurs "SECTION_" (fst (split_once newline (strip section))) /\
      fst (split_once newline (strip section)) <> "SECTION_DAYS_OFF") /\
  (~ occurs "SECTION_" content ->
   read_instance py_int content = Done no_section).
Proof.
  split.
  - intros section Hin.
    assert (Hsec : ~ occurs "SECTION_" section).
    { apply (split_str_no_occurrence "SECTION_" 0 content); [discriminate|].
      destruct (split_str "SECTION_" 0 content); [inversion Hin | now right]. }
    assert (Hname : ~ occurs "SECTION_"
                      (fst (split_once newline (strip section)))).
    { intros (a & b & E). apply Hsec.
      destruct (section_name_inside section) as (pre & post & Hs).
      exists (pre +:+ a), (b +:+ post). rewrite Hs at 1. rewrite E.
      now rewrite !append_assoc_str. }
    split; [exact Hsec|]. split; [exact Hname|].
    intros E. apply Hname. rewrite E.
    exists EmptyString, "DAYS_OFF". reflexivity.
  - intros Hno. unfold read_instance.
    now rewrite (split_str_whole _ _ Hno).
Qed.

Lemma section_names_witness :
  read_instance decimal_int "HORIZON
3
" = Done no_section.
Proof.
  apply (proj2 (section_names decimal_int "HORIZON
3
")).
  intros Hocc.
  assert (Hin : "HORIZON
3
" ∈ split_str "SECTION_" 0 "HORIZON
3
") by (vm_compute; left).
  now apply (split_str_no_occurrence "SECTION_" 0 _ _ ltac:(discriminate) Hin).
Defined.

Section CoverLine.
Variable py_int : string -> option Z.

(** X24. A line of [COVER] loads exactly when it is five comma-free fields
    joined by commas of which [int] accepts the first and the last three;
    the row then has them as day, shift id, required count, under-coverage
    weight and over-coverage weight, in this order.  Any other line raises
    [ValueError]. *)
Theorem cover_line_loads (line : string) :
  (forall r,
      parse_cover_line py_int line = Done r <->
      exists f1 f2 f3 f4 f5,
        line =
          f1 +:+ String "," (f2 +:+ String "," (f3 +:+ String ","
            (f4 +:+ String "," f5))) /\
        sep_free "," f1 /\ sep_free "," f2 /\ sep_free "," f3 /\
        sep_free "," f4 /\ sep_free "," f5 /\
        py_int f1 = Some (c_day r) /\
        f2 = c_shift_id r /\
        py_int f3 = Some (requirement r) /\
        py_int f4 = Some (weight_under r) /\
        py_int f5 = Some (weight_over r)) /\
  (forall e, parse_cover_line py_int line = Fail e -> e = ValueError).
Proof.
  split.
  - intros r. unfold parse_cover_line, to_int. split.
    + destruct (split_on "," line)
        as [|f1 [|f2 [|f3 [|f4 [|f5 [|x xs]]]]]] eqn:Es; try discriminate.
      apply split_on_inv in Es as (H1 & s1 & -> & Es).
      apply split_on_inv in Es as (H2 & s2 & -> & Es).
      apply split_on_inv in Es as (H3 & s3 & -> & Es).
      apply split_on_inv in Es as (H4 & s4 & -> & Es).
      apply split_on_inv in Es as (H5 & ->).
      destruct (py_int f1) as [d|] eqn:E1; [|discriminate].
      destruct (py_int f3) as [rq|] eqn:E3; [|discriminate].
      destruct (py_int f4) as [wu|] eqn:E4; [|discriminate].
      destruct (py_int f5) as [wo|] eqn:E5; [|discriminate].
      simpl. intros [= <-]. exists f1, f2, f3, f4, f5. simpl. auto 12.
    + intros (f1 & f2 & f3 & f4 & f5 & -> & H1 & H2 & H3 & H4 & H5 &
              E1 & E2 & E3 & E4 & E5).
      rewrite (split_on_app _ _ _ H1), (split_on_app _ _ _ H2),
        (split_on_app _ _ _ H3), (split_on_app _ _ _ H4),
        (split_on_free _ _ H5), E1, E3, E4, E5.
      simpl. subst f2. now destruct r.
  - intros e. unfold parse_cover_line, to_int.
    destruct (split_on "," line) as [|f1 [|f2 [|f3 [|f4 [|f5 [|x xs]]]]]];
      try (now intros [= <-]).
    destruct (py_int f1); simpl; [|now intros [= <-]].
    destruct (py_int f3); simpl; [|now intros [= <-]].
    destruct (py_int f4); simpl; [|now intros [= <-]].
    destruct (py_int f5); simpl; [discriminate | now intros [= <-]].
Qed.

End CoverLine.

Lemma cover_line_loads_witness :
  parse_cover_line decimal_int "1,E,2,20,1" = Done (mkCover 1 "E" 2 20 1).
Proof.
  apply (proj1 (cover_line_loads decimal_int "1,E,2,20,1")).
  exists "1", "E", "2", "20", "1". repeat split; reflexivity.
Defined.
